(** * Augmented interval tree of [src/core/interval_tree.c]

    The C module keeps interval nodes in caller-owned memory and links them
    through the [parent]/[left]/[right] pointers of an embedded [rb_node].
    The embedding below keeps that picture: a heap maps addresses to node
    records, a pointer is an optional address ([None] is [NULL]), and every
    C loop becomes a fuel-indexed recursion that returns [None] when it is
    stuck on a dangling pointer or runs out of fuel. *)

From Stdlib Require Import ZArith List Lia Bool.
From stdpp Require Import base option list sorting gmap.

Open Scope Z_scope.

(** ** Data model *)

(** The structs are declared in [core/interval_tree.h] and [core/rb_tree.h],
    which are not among the sources; the records below hold the fields that
    [interval_tree.c] reads and writes. [INTERVAL_NODE], [RB_NODE] and
    [rb_entry] convert between a node and its embedded [rb_node], the first
    member, so both are one address here. *)

Abbreviation addr := positive.
Abbreviation ptr := (option addr).

(** [struct rb_node]: only the linkage is read by this module. *)
Record rb_node := mk_rb_node {
  rb_parent : ptr;
  rb_left : ptr;
  rb_right : ptr
}.

(** Modelled from the spec: [interval_type_t] is declared in the missing
    header; the spec asks for closed interval endpoints of any totally ordered
    numeric type. Endpoints are therefore integers, of either sign: the module
    only compares them and takes their maximum, except in the comparator,
    which subtracts and converts to [int]. [size] and [height] are [int]. *)
Record interval_node := mk_interval_node {
  base : rb_node;
  n_size : Z;
  n_height : Z;
  n_low : Z;
  n_high : Z;
  n_max : Z
}.

Abbreviation heap := (gmap addr interval_node).

(** [struct rb_tree]. *)
Record rb_tree := mk_rb_tree { root : ptr }.

(** [struct interval_tree_it]. *)
Record interval_tree_it := mk_interval_tree_it {
  it_low : Z;
  it_high : Z;
  it_n : ptr
}.

Definition n_parent (nd : interval_node) : ptr := rb_parent (base nd).
Definition n_left (nd : interval_node) : ptr := rb_left (base nd).
Definition n_right (nd : interval_node) : ptr := rb_right (base nd).

(** ** Machine arithmetic *)

(** Conversion to a 32-bit [int]: the value modulo 2^32 read as two's
    complement, which is what the conversion of an out-of-range value and an
    overflowing [int] addition yield on the usual targets. *)
Definition to_int (z : Z) : Z := (z + 2 ^ 31) mod 2 ^ 32 - 2 ^ 31.

Definition int_add (a b : Z) : Z := to_int (a + b).

(** Modelled from the spec: the macro [MAX] comes from [core/math.h], which
    is not among the sources; the spec describes the aggregate it computes as
    the maximum of its arguments. *)
Definition MAX (a b : Z) : Z := if a >? b then a else b.

(** ** Augmentation bookkeeping *)

Definition interval_tree_node_max (h : heap) (n : ptr) : option Z :=
  match n with
  | None => Some 0
  | Some a => n_max <$> h !! a
  end.

Definition interval_tree_node_size (h : heap) (n : ptr) : option Z :=
  match n with
  | None => Some 0
  | Some a => n_size <$> h !! a
  end.

Definition interval_tree_node_height (h : heap) (n : ptr) : option Z :=
  match n with
  | None => Some 0
  | Some a => n_height <$> h !! a
  end.

Definition interval_tree_fix_counts (h : heap) (n : ptr) : option heap :=
  match n with
  | None => Some h
  | Some a =>
      nd ← h !! a;
      let l := n_left nd in
      let r := n_right nd in
      sl ← interval_tree_node_size h l;
      sr ← interval_tree_node_size h r;
      hl ← interval_tree_node_height h l;
      hr ← interval_tree_node_height h r;
      ml ← interval_tree_node_max h l;
      mr ← interval_tree_node_max h r;
      Some (<[a := {| base := base nd;
                      n_size := int_add (int_add 1 sl) sr;
                      n_height := int_add 1 (MAX hl hr);
                      n_low := n_low nd;
                      n_high := n_high nd;
                      n_max := MAX (MAX (n_high nd) ml) mr |}]> h)
  end.

Fixpoint interval_tree_augment_propagate (fuel : nat) (h : heap) (n : ptr)
  : option heap :=
  match n with
  | None => Some h
  | Some a =>
      match fuel with
      | O => None
      | S fuel' =>
          h1 ← interval_tree_fix_counts h n;
          nd ← h1 !! a;
          interval_tree_augment_propagate fuel' h1 (n_parent nd)
      end
  end.

Definition interval_tree_augment_rotate (h : heap) (oldn newn : ptr)
  : option heap :=
  h1 ← interval_tree_fix_counts h oldn;
  h2 ← interval_tree_fix_counts h1 newn;
  a ← newn;
  nd ← h2 !! a;
  interval_tree_fix_counts h2 (n_parent nd).

(** ** Comparator *)

Definition interval_tree_cmp (lhs rhs : interval_node) : Z :=
  let cmp := to_int (n_low lhs - n_low rhs) in
  if cmp =? 0 then to_int (n_high lhs - n_high rhs) else cmp.

(** ** Overlap searches *)

Definition interval_tree_intersects (n : interval_node) (low high : Z) : bool :=
  (high >=? n_low n) && (n_high n >=? low).

(** The loop of [interval_tree_min_interval], with the local [min] as an
    accumulator. *)
Fixpoint min_interval_loop (fuel : nat) (h : heap) (n : ptr) (low high : Z)
    (min : ptr) : option ptr :=
  match n with
  | None => Some min
  | Some a =>
      match fuel with
      | O => None
      | S fuel' =>
          nd ← h !! a;
          let intersects := interval_tree_intersects nd low high in
          let min := if intersects then Some a else min in
          no_left ← match n_left nd with
                    | None => Some true
                    | Some la => lnd ← h !! la; Some (n_max lnd <? low)
                    end;
          if no_left : bool then
            if intersects then Some min
            else min_interval_loop fuel' h (n_right nd) low high min
          else min_interval_loop fuel' h (n_left nd) low high min
      end
  end.

Definition interval_tree_min_interval (fuel : nat) (h : heap) (n : ptr)
    (low high : Z) : option ptr :=
  min_interval_loop fuel h n low high None.

(** The inner loop of [interval_tree_next_interval]: climb while the node
    climbed from is the right child. *)
Fixpoint climb_loop (fuel : nat) (h : heap) (c : addr) (n : ptr) : option ptr :=
  match n with
  | None => Some None
  | Some a =>
      match fuel with
      | O => None
      | S fuel' =>
          nd ← h !! a;
          if decide (n_right nd = Some c) then climb_loop fuel' h a (n_parent nd)
          else Some (Some a)
      end
  end.

Fixpoint interval_tree_next_interval (fuel : nat) (h : heap) (n : ptr)
    (low high : Z) : option ptr :=
  match n with
  | None => Some None
  | Some a =>
      match fuel with
      | O => None
      | S fuel' =>
          nd ← h !! a;
          min ← match n_right nd with
                | None => Some None
                | Some _ => interval_tree_min_interval fuel' h (n_right nd) low high
                end;
          match min with
          | Some m => Some (Some m)
          | None =>
              n' ← climb_loop fuel' h a (n_parent nd);
              match n' with
              | None => Some None
              | Some pa =>
                  pnd ← h !! pa;
                  if interval_tree_intersects pnd low high then Some (Some pa)
                  else interval_tree_next_interval fuel' h (Some pa) low high
              end
          end
      end
  end.

(** ** Tree operations and queries *)

(** [interval_tree_insert] and [interval_tree_remove] only hand the node and
    the callback table to [rb_insert] and [rb_unlink] of the balancing
    engine, which is not among the sources; they are not modelled. What the
    callbacks do when the engine calls them is modelled above. *)

(** [interval_tree_clear] receives the tree handle only; the heap is threaded
    through to state what it leaves alone. *)
Definition interval_tree_clear (h : heap) (t : rb_tree) : heap * rb_tree :=
  (h, {| root := None |}).

Fixpoint find_loop (fuel : nat) (h : heap) (n : ptr) (low high : Z) : option ptr :=
  match n with
  | None => Some None
  | Some a =>
      match fuel with
      | O => None
      | S fuel' =>
          nd ← h !! a;
          let l := n_left nd in
          let r := n_right nd in
          if interval_tree_intersects nd low high then Some (Some a)
          else
            no_left ← match l with
                      | None => Some true
                      | Some la => lnd ← h !! la; Some (n_max lnd <? low)
                      end;
            if no_left : bool then find_loop fuel' h r low high
            else find_loop fuel' h l low high
      end
  end.

Definition interval_tree_find (fuel : nat) (h : heap) (t : rb_tree)
    (low high : Z) : option ptr :=
  find_loop fuel h (root t) low high.

Definition interval_tree_iter_first (fuel : nat) (h : heap) (t : rb_tree)
    (low high : Z) : option (ptr * interval_tree_it) :=
  n ← interval_tree_min_interval fuel h (root t) low high;
  Some (n, {| it_low := low; it_high := high; it_n := n |}).

Definition interval_tree_iter_next (fuel : nat) (h : heap)
    (it : interval_tree_it) : option (ptr * interval_tree_it) :=
  n ← interval_tree_next_interval fuel h (it_n it) (it_low it) (it_high it);
  Some (n, {| it_low := it_low it; it_high := it_high it; it_n := n |}).

(** The caller's loop over the iterator: [iter_first], then [iter_next]
    until it returns [NULL]; the nodes are collected in the order they are
    produced. [steps] bounds the number of [iter_next] calls. *)
Fixpoint iter_collect (steps fuel : nat) (h : heap) (it : interval_tree_it)
    (cur : ptr) : option (list addr) :=
  match cur with
  | None => Some []
  | Some a =>
      match steps with
      | O => None
      | S steps' =>
          r ← interval_tree_iter_next fuel h it;
          rest ← iter_collect steps' fuel h r.2 r.1;
          Some (a :: rest)
      end
  end.

Definition iterate (steps fuel : nat) (h : heap) (t : rb_tree) (low high : Z)
  : option (list addr) :=
  r ← interval_tree_iter_first fuel h t low high;
  iter_collect steps fuel h r.2 r.1.

(** ** Abstract view of a linked tree *)

(** The shape of a linked tree: which address sits where. The fields of a
    node are always read from the heap. *)
Inductive tree :=
| Leaf
| Node (l : tree) (a : addr) (r : tree).

Definition root_ptr (t : tree) : ptr :=
  match t with
  | Leaf => None
  | Node _ a _ => Some a
  end.

Fixpoint inorder (t : tree) : list addr :=
  match t with
  | Leaf => []
  | Node l a r => inorder l ++ a :: inorder r
  end.

Fixpoint theight (t : tree) : nat :=
  match t with
  | Leaf => O
  | Node l _ r => S (Nat.max (theight l) (theight r))
  end.

(** [rep h par t]: the heap links the nodes of [t] as the shape says, and
    the root of [t] has parent pointer [par]. *)
Fixpoint rep (h : heap) (par : ptr) (t : tree) : Prop :=
  match t with
  | Leaf => True
  | Node l a r =>
      ∃ nd, h !! a = Some nd ∧ n_parent nd = par ∧
            n_left nd = root_ptr l ∧ n_right nd = root_ptr r ∧
            rep h (Some a) l ∧ rep h (Some a) r
  end.

(** A well-formed tree: the links are acyclic and consistent, that is, the
    handle's root points to a linked shape no address occurs twice in. *)
Definition wf_tree (h : heap) (t : rb_tree) (T : tree) : Prop :=
  root t = root_ptr T ∧ rep h None T ∧ NoDup (inorder T).

Global Instance interval_node_inhabited : Inhabited interval_node :=
  populate (mk_interval_node (mk_rb_node None None None) 0 0 0 0 0).

Definition low_of (h : heap) (a : addr) : Z := n_low (h !!! a).
Definition high_of (h : heap) (a : addr) : Z := n_high (h !!! a).
Definition max_of (h : heap) (a : addr) : Z := n_max (h !!! a).
Definition size_of (h : heap) (a : addr) : Z := n_size (h !!! a).
Definition height_of (h : heap) (a : addr) : Z := n_height (h !!! a).

(** Two closed intervals [[a,b]] and [[c,d]] overlap. *)
Definition overlap (a b c d : Z) : Prop := b >= c ∧ d >= a.

Global Instance overlap_dec a b c d : Decision (overlap a b c d).
Proof. unfold overlap. apply _. Defined.

(** The stored interval at [x] overlaps the query [[lo,hi]]. *)
Definition hits (h : heap) (lo hi : Z) (x : addr) : Prop :=
  overlap (low_of h x) (high_of h x) lo hi.

Global Instance hits_dec h lo hi x : Decision (hits h lo hi x).
Proof. unfold hits. apply _. Defined.

(** Brute-force scan: every stored interval, in in-order position, kept when
    it overlaps the query. *)
Definition scan (h : heap) (lo hi : Z) (T : tree) : list addr :=
  filter (hits h lo hi) (inorder T).

(** Lexicographic order on (low, high). *)
Definition lex_lt (h : heap) (x y : addr) : Prop :=
  low_of h x < low_of h y ∨ (low_of h x = low_of h y ∧ high_of h x < high_of h y).

(** BST ordering: the left subtree sorts strictly before the node and the
    right subtree strictly after it. *)
Fixpoint bst (h : heap) (t : tree) : Prop :=
  match t with
  | Leaf => True
  | Node l a r =>
      (∀ x, x ∈ inorder l → lex_lt h x a) ∧
      (∀ y, y ∈ inorder r → lex_lt h a y) ∧
      bst h l ∧ bst h r
  end.

(** The maximum of [m] and the stored [max] of the root of [t], when [t] has
    a root. *)
Definition max_with (h : heap) (t : tree) (m : Z) : Z :=
  match t with
  | Leaf => m
  | Node _ a _ => Z.max m (max_of h a)
  end.

(** The [max] part of augmentation consistency: the stored [max] of every
    node is the maximum of its own [high] and the [max] of the children that
    are present. *)
Fixpoint max_consistent (h : heap) (t : tree) : Prop :=
  match t with
  | Leaf => True
  | Node l a r =>
      max_of h a = max_with h r (max_with h l (high_of h a)) ∧
      max_consistent h l ∧ max_consistent h r
  end.

(** ** Positions inside a tree *)

(** One step of the path from a node up to the root: the node is the left
    child of [a] (whose right subtree is [r]), or the right child of [a]
    (whose left subtree is [l]). *)
Inductive frame :=
| InLeft (a : addr) (r : tree)
| InRight (l : tree) (a : addr).

Definition frame_addr (f : frame) : addr :=
  match f with
  | InLeft a _ => a
  | InRight _ a => a
  end.

(** The path is listed from the node upwards. *)
Fixpoint plug (ctx : list frame) (t : tree) : tree :=
  match ctx with
  | [] => t
  | InLeft a r :: ctx' => plug ctx' (Node t a r)
  | InRight l a :: ctx' => plug ctx' (Node l a t)
  end.

Definition hole_parent (ctx : list frame) : ptr :=
  match ctx with
  | [] => None
  | f :: _ => Some (frame_addr f)
  end.

(** The nodes visited in order before and after the subtree at the hole. *)
Fixpoint before (ctx : list frame) : list addr :=
  match ctx with
  | [] => []
  | InLeft _ _ :: ctx' => before ctx'
  | InRight l a :: ctx' => before ctx' ++ inorder l ++ [a]
  end.

Fixpoint after (ctx : list frame) : list addr :=
  match ctx with
  | [] => []
  | InLeft a r :: ctx' => a :: inorder r ++ after ctx'
  | InRight _ _ :: ctx' => after ctx'
  end.

(** Climbing while the edge just taken was a right-child edge. *)
Fixpoint up (ctx : list frame) : list frame :=
  match ctx with
  | InRight _ _ :: ctx' => up ctx'
  | _ => ctx
  end.

(** The heap links the nodes of the path as the frames say; [p] is the
    pointer stored in the child slot the path starts from. *)
Fixpoint rep_ctx (h : heap) (ctx : list frame) (p : ptr) : Prop :=
  match ctx with
  | [] => True
  | InLeft a r :: ctx' =>
      ∃ nd, h !! a = Some nd ∧ n_parent nd = hole_parent ctx' ∧
            n_left nd = p ∧ n_right nd = root_ptr r ∧
            rep h (Some a) r ∧ rep_ctx h ctx' (Some a)
  | InRight l a :: ctx' =>
      ∃ nd, h !! a = Some nd ∧ n_parent nd = hole_parent ctx' ∧
            n_left nd = root_ptr l ∧ n_right nd = p ∧
            rep h (Some a) l ∧ rep_ctx h ctx' (Some a)
  end.

(** A property of every right sibling hanging off the path. *)
Fixpoint siblings (P : tree → Prop) (ctx : list frame) : Prop :=
  match ctx with
  | [] => True
  | InLeft _ r :: ctx' => P r ∧ siblings P ctx'
  | InRight _ _ :: ctx' => siblings P ctx'
  end.

(** In the path above a node at [c], no right sibling is rooted at the
    address the climb arrives from. *)
Fixpoint distinct_edges (ctx : list frame) (c : addr) : Prop :=
  match ctx with
  | [] => True
  | InLeft a r :: ctx' => root_ptr r ≠ Some c ∧ distinct_edges ctx' a
  | InRight _ a :: ctx' => distinct_edges ctx' a
  end.

(** [k] further calls of [interval_tree_iter_next], returning the last result
    and the iterator it leaves behind. *)
Fixpoint iter_next_times (k fuel : nat) (h : heap) (it : interval_tree_it)
  : option (ptr * interval_tree_it) :=
  match k with
  | O => Some (it_n it, it)
  | S k' =>
      r ← interval_tree_iter_next fuel h it;
      iter_next_times k' fuel h r.2
  end.

(** ** Example trees *)

Definition node (parent left right : ptr) (size height low high max : Z)
  : interval_node :=
  {| base := {| rb_parent := parent; rb_left := left; rb_right := right |};
     n_size := size; n_height := height;
     n_low := low; n_high := high; n_max := max |}.

(** The intervals [1,5], [3,7], [10,12] with [3,7] at the root. *)
Definition ex_heap : heap :=
  <[1%positive := node (Some 2%positive) None None 1 1 1 5 5]>
  (<[2%positive := node None (Some 1%positive) (Some 3%positive) 3 2 3 7 12]>
  (<[3%positive := node (Some 2%positive) None None 1 1 10 12 12]> ∅)).

Definition ex_tree : rb_tree := {| root := Some 2%positive |}.

Definition ex_shape : tree :=
  Node (Node Leaf 1%positive Leaf) 2%positive (Node Leaf 3%positive Leaf).

(** The intervals [1,5], [2,2], [3,7] with [2,2] at the root. *)
Definition gap_heap : heap :=
  <[1%positive := node (Some 2%positive) None None 1 1 1 5 5]>
  (<[2%positive := node None (Some 1%positive) (Some 3%positive) 3 2 2 2 7]>
  (<[3%positive := node (Some 2%positive) None None 1 1 3 7 7]> ∅)).

Definition gap_tree : rb_tree := {| root := Some 2%positive |}.

Definition gap_shape : tree :=
  Node (Node Leaf 1%positive Leaf) 2%positive (Node Leaf 3%positive Leaf).

(** ** Augmentation as the hooks compute it *)

(** [interval_tree_node_max] and its two companions read through the shape:
    an absent child contributes 0. *)
Definition root_max (h : heap) (t : tree) : Z :=
  match t with
  | Leaf => 0
  | Node _ a _ => max_of h a
  end.

Definition root_size (h : heap) (t : tree) : Z :=
  match t with
  | Leaf => 0
  | Node _ a _ => size_of h a
  end.

Definition root_height (h : heap) (t : tree) : Z :=
  match t with
  | Leaf => 0
  | Node _ a _ => height_of h a
  end.

(** Every node stores the [max] that [interval_tree_fix_counts] computes
    from its children. *)
Fixpoint max_fixed (h : heap) (t : tree) : Prop :=
  match t with
  | Leaf => True
  | Node l a r =>
      max_of h a = MAX (MAX (high_of h a) (root_max h l)) (root_max h r) ∧
      max_fixed h l ∧ max_fixed h r
  end.

(** The same for the nodes of a path and the subtrees hanging off it, when
    the subtree the path starts from contributes [m]. *)
Fixpoint ctx_fixed (h : heap) (ctx : list frame) (m : Z) : Prop :=
  match ctx with
  | [] => True
  | InLeft a r :: ctx' =>
      max_of h a = MAX (MAX (high_of h a) m) (root_max h r) ∧
      max_fixed h r ∧ ctx_fixed h ctx' (max_of h a)
  | InRight l a :: ctx' =>
      max_of h a = MAX (MAX (high_of h a) (root_max h l)) m ∧
      max_fixed h l ∧ ctx_fixed h ctx' (max_of h a)
  end.

(** The three equations of augmentation consistency at one node. *)
Definition node_consistent (h : heap) (l : tree) (a : addr) (r : tree) : Prop :=
  max_of h a = MAX (MAX (high_of h a) (root_max h l)) (root_max h r) ∧
  size_of h a = 1 + root_size h l + root_size h r ∧
  height_of h a = 1 + MAX (root_height h l) (root_height h r).

Fixpoint all_consistent (h : heap) (t : tree) : Prop :=
  match t with
  | Leaf => True
  | Node l a r => node_consistent h l a r ∧ all_consistent h l ∧ all_consistent h r
  end.

(** A property of every subtree hanging off a path, on either side. *)
Fixpoint all_siblings (P : tree → Prop) (ctx : list frame) : Prop :=
  match ctx with
  | [] => True
  | InLeft _ r :: ctx' => P r ∧ all_siblings P ctx'
  | InRight l _ :: ctx' => P l ∧ all_siblings P ctx'
  end.

(** The largest of 0 and the high endpoints stored in a subtree. *)
Definition max_high0 (h : heap) (t : tree) : Z :=
  foldr Z.max 0 (high_of h <$> inorder t).

(** ** Rotations *)

(** Modelled from the spec: a rotation exchanges a node [oldn] with one of
    its children [newn], which becomes the top of the pair. *)
Inductive rotation : tree → addr → addr → tree → Prop :=
| rotate_left ctx A x B y C :
    rotation (plug ctx (Node A x (Node B y C))) x y
             (plug ctx (Node (Node A x B) y C))
| rotate_right ctx A y B x C :
    rotation (plug ctx (Node (Node A y B) x C)) x y
             (plug ctx (Node A y (Node B x C))).

(** The test [!n->left || n->left->max < low] as the shape sees it. *)
Definition left_excluded (h : heap) (l : tree) (lo : Z) : bool :=
  match l with
  | Leaf => true
  | Node _ la _ => max_of h la <? lo
  end.

(** [h'] stores the same [high] and [max] as [h] at the nodes of [l]. *)
Definition agree (h h' : heap) (l : list addr) : Prop :=
  ∀ b, b ∈ l → max_of h' b = max_of h b ∧ high_of h' b = high_of h b.

(** ** Example states built with the hooks *)

(** Relinking written out, to build the example states: every node of the
    shape gets the links the shape dictates and keeps its data. *)
Fixpoint relink (h : heap) (par : ptr) (T : tree) : heap :=
  match T with
  | Leaf => h
  | Node l a r =>
      let h1 := relink (relink h (Some a) l) (Some a) r in
      match h1 !! a with
      | Some nd =>
          <[a := {| base := {| rb_parent := par;
                               rb_left := root_ptr l;
                               rb_right := root_ptr r |};
                    n_size := n_size nd; n_height := n_height nd;
                    n_low := n_low nd; n_high := n_high nd;
                    n_max := n_max nd |}]> h1
      | None => h1
      end
  end.

(** Linking [n] so that the shape becomes [T1], then the propagate hook. *)
Definition run_link (h : heap) (T1 : tree) (n : addr) : heap :=
  default ∅ (interval_tree_augment_propagate 8 (relink h None T1) (Some n)).

(** A rotation that turns the shape into [T1], then the rotation hook. *)
Definition run_rotate (h : heap) (T1 : tree) (oldn newn : addr) : heap :=
  default ∅ (interval_tree_augment_rotate (relink h None T1) (Some oldn) (Some newn)).

Definition leaf_node (a : addr) : tree := Node Leaf a Leaf.

(** One free node holding the interval [-5,-3], and the one-node tree after
    it is linked as the root and the propagate hook has run from it. *)
Definition neg_heap0 : heap := {[ 1%positive := node None None None 0 0 (-5) (-3) 0 ]}.
Definition neg_shape : tree := leaf_node 1.
Definition neg_heap : heap := run_link neg_heap0 neg_shape 1.


(** Seven free nodes holding [1,1], ..., [7,7], linked in ascending order,
    each link followed by the propagate hook from the new node; after the
    third, fifth and seventh link the tree is rotated left at 1, at 3 and at
    5, each rotation followed by the rotation hook. *)
Definition asc_heap0 : heap :=
  list_to_map ((λ i, (i, node None None None 0 0 (Z.pos i) (Z.pos i) 0)) <$>
               [1; 2; 3; 4; 5; 6; 7]%positive).

Definition asc_shape1 : tree := leaf_node 1.
Definition asc_shape2 : tree := Node Leaf 1 (leaf_node 2).
Definition asc_shape3_linked : tree := Node Leaf 1 (Node Leaf 2 (leaf_node 3)).
Definition asc_shape3 : tree := Node (leaf_node 1) 2 (leaf_node 3).
Definition asc_shape4 : tree := Node (leaf_node 1) 2 (Node Leaf 3 (leaf_node 4)).
Definition asc_shape5_linked : tree :=
  Node (leaf_node 1) 2 (Node Leaf 3 (Node Leaf 4 (leaf_node 5))).
Definition asc_shape5 : tree :=
  Node (leaf_node 1) 2 (Node (leaf_node 3) 4 (leaf_node 5)).
Definition asc_shape6 : tree :=
  Node (leaf_node 1) 2 (Node (leaf_node 3) 4 (Node Leaf 5 (leaf_node 6))).
Definition asc_shape7_linked : tree :=
  Node (leaf_node 1) 2 (Node (leaf_node 3) 4 (Node Leaf 5 (Node Leaf 6 (leaf_node 7)))).
Definition asc_shape7 : tree :=
  Node (leaf_node 1) 2 (Node (leaf_node 3) 4 (Node (leaf_node 5) 6 (leaf_node 7))).

Definition asc_heap1 : heap := run_link asc_heap0 asc_shape1 1.
Definition asc_heap2 : heap := run_link asc_heap1 asc_shape2 2.
Definition asc_heap3_linked : heap := run_link asc_heap2 asc_shape3_linked 3.
Definition asc_heap3 : heap := run_rotate asc_heap3_linked asc_shape3 1 2.
Definition asc_heap4 : heap := run_link asc_heap3 asc_shape4 4.
Definition asc_heap5_linked : heap := run_link asc_heap4 asc_shape5_linked 5.
Definition asc_heap5 : heap := run_rotate asc_heap5_linked asc_shape5 3 4.
Definition asc_heap6 : heap := run_link asc_heap5 asc_shape6 6.
Definition asc_heap7_linked : heap := run_link asc_heap6 asc_shape7_linked 7.
Definition asc_heap7 : heap := run_rotate asc_heap7_linked asc_shape7 5 6.

(** [rep] as a check that computes. *)
Fixpoint rep_check (h : heap) (par : ptr) (t : tree) : bool :=
  match t with
  | Leaf => true
  | Node l a r =>
      match h !! a with
      | Some nd =>
          bool_decide (n_parent nd = par) && bool_decide (n_left nd = root_ptr l) &&
          bool_decide (n_right nd = root_ptr r) &&
          rep_check h (Some a) l && rep_check h (Some a) r
      | None => false
      end
  end.

Ltac elems :=
  repeat match goal with
         | H : _ ∈ [] |- _ => by apply elem_of_nil in H
         | H : _ ∈ _ :: _ |- _ => apply elem_of_cons in H as [->|H]
         | H : _ ∈ _ ++ _ |- _ => apply elem_of_app in H as [H|H]
         end.

Ltac example_wf :=
  split; [reflexivity|]; split;
  [ simpl; repeat (eexists; repeat split; try reflexivity)
  | simpl; apply (bool_decide_unpack _); by vm_compute ].

Ltac example_bst :=
  simpl; repeat split; try (intros ? ?; elems; vm_compute; (by left) || (right; by split)).

(** The [size] and [height] equations at every node. *)
Fixpoint counts_fixed (h : heap) (t : tree) : Prop :=
  match t with
  | Leaf => True
  | Node l a r =>
      size_of h a = 1 + root_size h l + root_size h r ∧
      height_of h a = 1 + MAX (root_height h l) (root_height h r) ∧
      counts_fixed h l ∧ counts_fixed h r
  end.

(** [h'] stores the same [size] and [height] as [h] at the nodes of [l]. *)
Definition agree_counts (h h' : heap) (l : list addr) : Prop :=
  ∀ b, b ∈ l → size_of h' b = size_of h b ∧ height_of h' b = height_of h b.

(** The path from the seventh node of the ascending example up to the root,
    just after it is linked below 6. *)
Definition asc_path7 : list frame :=
  [InRight Leaf 6; InRight Leaf 5; InRight (leaf_node 3) 4; InRight (leaf_node 1) 2].

(** Membership in lists built with [++] and [::], by propositional
    reasoning. *)
Ltac in_lists :=
  repeat match goal with
         | H : _ |- _ => rewrite elem_of_app in H
         | H : _ |- _ => rewrite elem_of_cons in H
         end;
  repeat (rewrite elem_of_app || rewrite elem_of_cons); intuition congruence.

(** One rotation seen at the rotated pair: the subtree before it, the old
    top, the new top and the subtree after it. [rotation] is this step
    anywhere in a tree. *)
Inductive rotated : tree → addr → addr → tree → Prop :=
| rotated_left A x B y C :
    rotated (Node A x (Node B y C)) x y (Node (Node A x B) y C)
| rotated_right A y B x C :
    rotated (Node (Node A y B) x C) x y (Node A y (Node B x C)).

(** The seventh node of the ascending example linked below 6 and the tree
    rotated left at 5 as before, but with the rotation hook called first and
    the propagate hook from the new node last. *)
Definition asc_heap7_walk_last : heap :=
  default ∅ (h1 ← interval_tree_augment_rotate (relink asc_heap6 None asc_shape7)
                     (Some 5%positive) (Some 6%positive);
             interval_tree_augment_propagate 8 h1 (Some 7%positive)).

(** Every node whose subtree does not hold [n] satisfies the three equations:
    only [n] and the nodes above it may store stale aggregates. *)
Fixpoint clean_off (n : addr) (h : heap) (t : tree) : Prop :=
  match t with
  | Leaf => True
  | Node l a r =>
      ((n ∉ inorder (Node l a r)) → node_consistent h l a r) ∧
      clean_off n h l ∧ clean_off n h r
  end.

Global Instance node_consistent_dec h l a r : Decision (node_consistent h l a r).
Proof. unfold node_consistent. apply _. Defined.

Global Instance clean_off_dec n h t : Decision (clean_off n h t).
Proof. induction t; simpl; apply _. Defined.

(** The subtree hanging off a frame. *)
Definition frame_sibling (f : frame) : tree :=
  match f with
  | InLeft _ r => r
  | InRight l _ => l
  end.

(** * Verification *)

(** ** Arithmetic helpers *)

Lemma MAX_is_max a b : MAX a b = Z.max a b.
Proof. unfold MAX. destruct (Z.gtb_spec a b); lia. Qed.

Lemma to_int_small z : - 2 ^ 31 <= z < 2 ^ 31 → to_int z = z.
Proof. intros Hz. unfold to_int. rewrite Z.mod_small; lia. Qed.

(** ** Reading nodes through the representation *)

Lemma low_of_lookup h a nd : h !! a = Some nd → low_of h a = n_low nd.
Proof. intros Ha. unfold low_of. by rewrite (lookup_total_correct h a nd Ha). Qed.

Lemma high_of_lookup h a nd : h !! a = Some nd → high_of h a = n_high nd.
Proof. intros Ha. unfold high_of. by rewrite (lookup_total_correct h a nd Ha). Qed.

Lemma max_of_lookup h a nd : h !! a = Some nd → max_of h a = n_max nd.
Proof. intros Ha. unfold max_of. by rewrite (lookup_total_correct h a nd Ha). Qed.

Lemma intersects_hits h a nd lo hi :
  h !! a = Some nd →
  interval_tree_intersects nd lo hi = bool_decide (hits h lo hi a).
Proof.
  intros Ha. unfold interval_tree_intersects.
  destruct (decide (hits h lo hi a)) as [Hh|Hh];
    [rewrite bool_decide_eq_true_2 by done|rewrite bool_decide_eq_false_2 by done];
    unfold hits, overlap in Hh;
    rewrite (low_of_lookup h a nd Ha), (high_of_lookup h a nd Ha) in Hh;
    destruct (Z.geb_spec hi (n_low nd)), (Z.geb_spec (n_high nd) lo); simpl; lia || done.
Qed.

Lemma rep_root_lookup h par t a :
  rep h par t → root_ptr t = Some a → ∃ nd, h !! a = Some nd ∧ n_parent nd = par.
Proof.
  destruct t as [|l b r]; simpl; [done|].
  intros (nd & Hb & Hp & _) [= ->]. eauto.
Qed.

Lemma left_test_shape h a l lo :
  rep h (Some a) l →
  match root_ptr l with
  | None => Some true
  | Some la => lnd ← h !! la; Some (n_max lnd <? lo)
  end = Some (left_excluded h l lo).
Proof.
  destruct l as [|ll la lr]; simpl; [done|].
  intros (lnd & Hla & _). rewrite Hla. simpl.
  by rewrite (max_of_lookup h la lnd Hla).
Qed.

(** ** The stored maximum bounds and is attained *)

Lemma max_with_ge h t m : m <= max_with h t m.
Proof. destruct t; simpl; lia. Qed.

Lemma max_with_mono h t m m' : m <= m' → max_with h t m <= max_with h t m'.
Proof. destruct t; simpl; lia. Qed.

Lemma max_consistent_bound h t :
  max_consistent h t → ∀ x m, x ∈ inorder t → high_of h x <= max_with h t m.
Proof.
  induction t as [|l IHl a r IHr]; simpl.
  - intros _ x m Hx. by apply elem_of_nil in Hx.
  - intros (Hm & Hl & Hr) x m Hx. rewrite Hm.
    apply elem_of_app in Hx as [Hx|Hx]; [|apply elem_of_cons in Hx as [->|Hx]].
    + specialize (IHl Hl x (high_of h a) Hx).
      pose proof (max_with_ge h r (max_with h l (high_of h a))). lia.
    + pose proof (max_with_ge h l (high_of h a)).
      pose proof (max_with_ge h r (max_with h l (high_of h a))). lia.
    + specialize (IHr Hr x (max_with h l (high_of h a)) Hx). lia.
Qed.

Lemma max_consistent_attained h t :
  max_consistent h t →
  ∀ m, max_with h t m = m ∨ ∃ x, x ∈ inorder t ∧ high_of h x = max_with h t m.
Proof.
  induction t as [|l IHl a r IHr]; simpl; [by left|].
  intros (Hm & Hl & Hr) m.
  destruct (Z.max_spec m (max_of h a)) as [[_ ->]|[_ ->]]; [|by left].
  right. rewrite Hm.
  destruct (IHr Hr (max_with h l (high_of h a))) as [->|(x & Hx & <-)].
  - destruct (IHl Hl (high_of h a)) as [->|(x & Hx & <-)].
    + exists a. split; [|done]. apply elem_of_app. right. apply elem_of_cons. by left.
    + exists x. split; [|done]. apply elem_of_app. by left.
  - exists x. split; [|done]. apply elem_of_app. right. apply elem_of_cons. by right.
Qed.

Lemma root_max_bound h l a r x :
  max_consistent h (Node l a r) → x ∈ inorder (Node l a r) → high_of h x <= max_of h a.
Proof.
  intros Hc Hx. pose proof (max_consistent_bound h _ Hc x (max_of h a) Hx) as H.
  simpl in H. lia.
Qed.

Lemma root_max_attained h l a r :
  max_consistent h (Node l a r) →
  ∃ x, x ∈ inorder (Node l a r) ∧ high_of h x = max_of h a.
Proof.
  intros Hc. pose proof Hc as (Hm & Hl & Hr).
  destruct (max_consistent_attained h _ Hc (max_of h a - 1)) as [H|(x & Hx & H)].
  - simpl in H. lia.
  - exists x. split; [done|]. simpl in H. lia.
Qed.

(** ** Pruning facts *)

Lemma filter_none {A} (P : A → Prop) `{∀ x, Decision (P x)} (l : list A) :
  (∀ x, x ∈ l → ¬ P x) → filter P l = [].
Proof.
  induction l as [|y l IH]; intros Hl; [done|].
  rewrite filter_cons_False by (apply Hl, elem_of_cons; by left).
  apply IH. intros x Hx. apply Hl, elem_of_cons. by right.
Qed.

Lemma filter_nil_none {A} (P : A → Prop) `{∀ x, Decision (P x)} (l : list A) x :
  filter P l = [] → x ∈ l → ¬ P x.
Proof. intros Hf Hx HP. by apply (filter_nil_not_elem_of P l x). Qed.

(** A left subtree whose stored maximum is below the query holds no match. *)
Lemma excluded_no_hit h l lo hi :
  max_consistent h l → left_excluded h l lo = true → scan h lo hi l = [].
Proof.
  intros Hc He. destruct l as [|ll la lr]; [done|].
  simpl in He. apply Z.ltb_lt in He.
  apply filter_none. intros x Hx [Hhi _].
  pose proof (root_max_bound h ll la lr x Hc Hx). lia.
Qed.

(** A left subtree whose stored maximum reaches the query, but which holds
    no match, has a node that starts after the query ends. *)
Lemma reached_no_hit h l lo hi :
  max_consistent h l → left_excluded h l lo = false → scan h lo hi l = [] →
  ∃ x, x ∈ inorder l ∧ hi < low_of h x.
Proof.
  intros Hc He Hs. destruct l as [|ll la lr]; [done|].
  simpl in He. apply Z.ltb_ge in He.
  destruct (root_max_attained h ll la lr Hc) as (x & Hx & Hmax).
  exists x. split; [done|].
  pose proof (filter_nil_none _ _ x Hs Hx) as Hn.
  unfold hits, overlap in Hn. lia.
Qed.

Lemma bst_left_low h l a r x : bst h (Node l a r) → x ∈ inorder l → low_of h x <= low_of h a.
Proof. intros (Hl & _) Hx. destruct (Hl x Hx); lia. Qed.

Lemma bst_right_low h l a r y : bst h (Node l a r) → y ∈ inorder r → low_of h a <= low_of h y.
Proof. intros (_ & Hr & _) Hy. destruct (Hr y Hy); lia. Qed.

Lemma scan_node h lo hi l a r :
  scan h lo hi (Node l a r) =
  scan h lo hi l ++ (if decide (hits h lo hi a) then [a] else []) ++ scan h lo hi r.
Proof.
  unfold scan. simpl. rewrite filter_app, filter_cons.
  by destruct (decide (hits h lo hi a)).
Qed.

(** ** Leftmost-overlap primitive *)

Lemma min_interval_loop_scan h lo hi t :
  ∀ par fuel acc,
    rep h par t → bst h t → max_consistent h t → (theight t ≤ fuel)%nat →
    min_interval_loop fuel h (root_ptr t) lo hi acc =
    Some (from_option Some acc (head (scan h lo hi t))).
Proof.
  induction t as [|l IHl a r IHr]; intros par fuel acc Hrep Hbst Hmax Hfuel.
  - by destruct fuel.
  - destruct fuel as [|fuel]; [simpl in Hfuel; lia|].
    simpl in Hfuel.
    destruct Hrep as (nd & Ha & Hp & Hleft & Hright & Hrl & Hrr).
    pose proof Hbst as (_ & _ & Hbl & Hbr).
    pose proof Hmax as (_ & Hml & Hmr).
    simpl. rewrite Ha. simpl.
    rewrite Hleft, (left_test_shape h a l lo Hrl). simpl.
    rewrite (intersects_hits h a nd lo hi Ha), Hright.
    rewrite scan_node.
    destruct (left_excluded h l lo) eqn:He.
    + rewrite (excluded_no_hit h l lo hi Hml He). simpl.
      destruct (decide (hits h lo hi a)) as [Hh|Hh].
      * by rewrite bool_decide_eq_true_2.
      * rewrite bool_decide_eq_false_2 by done. simpl.
        apply (IHr (Some a)); [done..|lia].
    + rewrite (IHl (Some a)) by (done || lia). f_equal.
      destruct (scan h lo hi l) as [|b bs] eqn:Hs; [|done].
      destruct (reached_no_hit h l lo hi Hml He Hs) as (x & Hx & Hlow).
      pose proof (bst_left_low h l a r x Hbst Hx) as Hxa.
      assert (¬ hits h lo hi a) as Hh by (unfold hits, overlap; lia).
      rewrite bool_decide_eq_false_2 by done.
      rewrite decide_False by done. simpl.
      assert (scan h lo hi r = []) as ->; [|done].
      apply filter_none. intros y Hy.
      pose proof (bst_right_low h l a r y Hbst Hy).
      unfold hits, overlap. lia.
Qed.

(** ** Single-overlap search *)

Lemma find_loop_scan h lo hi t :
  ∀ par fuel,
    rep h par t → bst h t → max_consistent h t → (theight t ≤ fuel)%nat →
    ∃ res, find_loop fuel h (root_ptr t) lo hi = Some res ∧
           match res with
           | Some a => a ∈ scan h lo hi t
           | None => scan h lo hi t = []
           end.
Proof.
  induction t as [|l IHl a r IHr]; intros par fuel Hrep Hbst Hmax Hfuel.
  - exists None. by destruct fuel.
  - destruct fuel as [|fuel]; [simpl in Hfuel; lia|].
    simpl in Hfuel.
    destruct Hrep as (nd & Ha & Hp & Hleft & Hright & Hrl & Hrr).
    pose proof Hbst as (_ & _ & Hbl & Hbr).
    pose proof Hmax as (_ & Hml & Hmr).
    simpl. rewrite Ha. simpl.
    rewrite (intersects_hits h a nd lo hi Ha).
    rewrite Hleft, (left_test_shape h a l lo Hrl), Hright. simpl.
    rewrite scan_node.
    destruct (decide (hits h lo hi a)) as [Hh|Hh].
    { rewrite bool_decide_eq_true_2 by done. exists (Some a). split; [done|].
      apply elem_of_app. right. apply elem_of_app. left. by apply elem_of_cons; left. }
    rewrite bool_decide_eq_false_2 by done.
    destruct (left_excluded h l lo) eqn:He.
    + rewrite (excluded_no_hit h l lo hi Hml He). simpl.
      apply (IHr (Some a)); [done..|lia].
    + destruct (IHl (Some a) fuel) as (res & -> & Hres); [done..|lia|].
      exists res. split; [done|]. destruct res as [b|].
      * apply elem_of_app. by left.
      * rewrite Hres. simpl.
        destruct (reached_no_hit h l lo hi Hml He Hres) as (x & Hx & Hlow).
        apply filter_none. intros y Hy.
        pose proof (bst_right_low h l a r y Hbst Hy).
        pose proof (bst_left_low h l a r x Hbst Hx).
        unfold hits, overlap. lia.
Qed.

Lemma scan_elem h lo hi t x :
  x ∈ scan h lo hi t ↔ overlap (low_of h x) (high_of h x) lo hi ∧ x ∈ inorder t.
Proof. unfold scan. by rewrite list_elem_of_filter. Qed.

(** ** In-order lists of ordered trees are sorted *)

Lemma lex_lt_trans h x y z : lex_lt h x y → lex_lt h y z → lex_lt h x z.
Proof. unfold lex_lt. lia. Qed.

Lemma bst_sorted h t : bst h t → StronglySorted (lex_lt h) (inorder t).
Proof.
  induction t as [|l IHl a r IHr]; simpl; [constructor|].
  intros (Hl & Hr & Hbl & Hbr).
  apply StronglySorted_app_2; [|by apply IHl|].
  - intros x y Hx Hy. apply elem_of_cons in Hy as [->|Hy]; [by apply Hl|].
    eapply lex_lt_trans; [by apply Hl|by apply Hr].
  - apply StronglySorted_cons. split; [|by apply IHr].
    apply Forall_forall. intros y Hy. by apply Hr.
Qed.

Lemma StronglySorted_filter {A} (R : relation A) (P : A → Prop)
    `{∀ x, Decision (P x)} (l : list A) :
  StronglySorted R l → StronglySorted R (filter P l).
Proof.
  induction l as [|x l IH]; [done|].
  rewrite StronglySorted_cons. intros [Hx Hl].
  rewrite filter_cons. destruct (decide (P x)); [|by apply IH].
  apply StronglySorted_cons. split; [|by apply IH].
  apply Forall_forall. intros y Hy. apply list_elem_of_filter in Hy as [_ Hy].
  rewrite Forall_forall in Hx. by apply Hx.
Qed.

Lemma scan_sorted h lo hi t : bst h t → StronglySorted (lex_lt h) (scan h lo hi t).
Proof. intros Hb. apply StronglySorted_filter. by apply bst_sorted. Qed.

(** ** Positions: plugging a subtree into its path *)

Lemma rep_plug h ctx :
  ∀ t, rep h None (plug ctx t) ↔ rep h (hole_parent ctx) t ∧ rep_ctx h ctx (root_ptr t).
Proof.
  induction ctx as [|[a r|l a] ctx IH]; intros t; simpl.
  - tauto.
  - rewrite IH. simpl. split.
    + intros ((nd & ? & ? & ? & ? & ? & ?) & ?). split; [done|]. by exists nd.
    + intros (? & nd & ? & ? & ? & ? & ? & ?). split; [|done]. by exists nd.
  - rewrite IH. simpl. split.
    + intros ((nd & ? & ? & ? & ? & ? & ?) & ?). split; [done|]. by exists nd.
    + intros (? & nd & ? & ? & ? & ? & ? & ?). split; [|done]. by exists nd.
Qed.

Lemma inorder_plug ctx :
  ∀ t, inorder (plug ctx t) = before ctx ++ inorder t ++ after ctx.
Proof.
  induction ctx as [|[a r|l a] ctx IH]; intros t; simpl.
  - by rewrite app_nil_r.
  - rewrite IH. simpl. by rewrite <- !app_assoc.
  - rewrite IH. simpl. by rewrite <- !app_assoc.
Qed.

Lemma after_up ctx : after (up ctx) = after ctx.
Proof. induction ctx as [|[a r|l a] ctx IH]; simpl; done. Qed.

Lemma up_length ctx : (length (up ctx) ≤ length ctx)%nat.
Proof. induction ctx as [|[a r|l a] ctx IH]; simpl; lia. Qed.

Lemma up_shape ctx : up ctx = [] ∨ ∃ a r ctx', up ctx = InLeft a r :: ctx'.
Proof. induction ctx as [|[a r|l a] ctx IH]; simpl; eauto. Qed.

Lemma siblings_up P ctx : siblings P ctx → siblings P (up ctx).
Proof. induction ctx as [|[a r|l a] ctx IH]; simpl; auto. Qed.

Lemma rep_ctx_up h ctx : ∀ p, rep_ctx h ctx p → ∃ p', rep_ctx h (up ctx) p'.
Proof.
  induction ctx as [|[a r|l a] ctx IH]; intros p Hp; simpl.
  - by exists p.
  - by exists p.
  - destruct Hp as (nd & _ & _ & _ & _ & _ & Hc). by apply (IH (Some a)).
Qed.

Lemma distinct_edges_up ctx :
  ∀ c, distinct_edges ctx c →
       match up ctx with
       | InLeft a _ :: ctx' => distinct_edges ctx' a
       | _ => True
       end.
Proof.
  induction ctx as [|[a r|l a] ctx IH]; intros c Hc; simpl; [done|by destruct Hc|].
  simpl in Hc. by apply (IH a).
Qed.

(** A tree without repeated addresses has distinct edges everywhere. *)
Lemma NoDup_distinct_edges ctx :
  ∀ t c, root_ptr t = Some c → NoDup (inorder (plug ctx t)) → distinct_edges ctx c.
Proof.
  induction ctx as [|[a r|l a] ctx IH]; intros t c Hc Hnd; simpl; [done| |].
  - split; [|by apply (IH (Node t a r))].
    simpl in Hnd. rewrite inorder_plug in Hnd.
    apply NoDup_app in Hnd as (_ & _ & Hnd).
    apply NoDup_app in Hnd as (Hnd & _ & _). simpl in Hnd.
    apply NoDup_app in Hnd as (_ & Hnd & _).
    intros Hr. destruct t as [|tl tc tr]; [done|]. destruct r as [|rl rc rr]; [done|].
    simpl in Hc, Hr. simplify_eq.
    apply (Hnd c).
    + simpl. apply elem_of_app. right. by apply elem_of_cons; left.
    + apply elem_of_cons. right. simpl. apply elem_of_app. right. by apply elem_of_cons; left.
  - by apply (IH (Node l a t)).
Qed.

(** ** Successor search *)

Lemma climb_loop_up h ctx :
  ∀ c fuel,
    rep_ctx h ctx (Some c) → distinct_edges ctx c → (length ctx ≤ fuel)%nat →
    climb_loop fuel h c (hole_parent ctx) = Some (hole_parent (up ctx)).
Proof.
  induction ctx as [|[a r|l a] ctx IH]; intros c fuel Hrep Hd Hfuel.
  - by destruct fuel.
  - destruct fuel as [|fuel]; [simpl in Hfuel; lia|].
    destruct Hrep as (nd & Ha & Hp & Hleft & Hright & Hr & Hc).
    destruct Hd as [Hne _].
    simpl. rewrite Ha. simpl. rewrite Hright. by rewrite decide_False.
  - destruct fuel as [|fuel]; [simpl in Hfuel; lia|].
    destruct Hrep as (nd & Ha & Hp & Hleft & Hright & Hl & Hc).
    simpl in Hd, Hfuel.
    simpl. rewrite Ha. simpl. rewrite Hright. rewrite decide_True by done.
    rewrite Hp. apply IH; [done..|lia].
Qed.

Lemma min_interval_right h lo hi a r fuel :
  rep h (Some a) r → bst h r → max_consistent h r → (theight r ≤ fuel)%nat →
  match root_ptr r with
  | None => Some None
  | Some _ => interval_tree_min_interval fuel h (root_ptr r) lo hi
  end = Some (head (scan h lo hi r)).
Proof.
  intros Hrep Hbst Hmax Hfuel.
  assert (interval_tree_min_interval fuel h (root_ptr r) lo hi
          = Some (head (scan h lo hi r))) as Hmin.
  { unfold interval_tree_min_interval.
    rewrite (min_interval_loop_scan h lo hi r (Some a)) by done.
    by destruct (head (scan h lo hi r)). }
  destruct r; [done|]. exact Hmin.
Qed.

Lemma next_interval_scan h lo hi H n :
  ∀ ctx, (length ctx ≤ n)%nat →
  ∀ a r nd fuel,
    h !! a = Some nd → n_parent nd = hole_parent ctx → n_right nd = root_ptr r →
    rep h (Some a) r → rep_ctx h ctx (Some a) → distinct_edges ctx a →
    bst h r → max_consistent h r →
    siblings (bst h) ctx → siblings (max_consistent h) ctx →
    (theight r ≤ H)%nat → siblings (λ s, (theight s ≤ H)%nat) ctx →
    (H + length ctx < fuel)%nat →
    interval_tree_next_interval fuel h (Some a) lo hi =
    Some (head (filter (hits h lo hi) (inorder r ++ after ctx))).
Proof.
  induction n as [|n IH]; intros ctx Hlen a r nd fuel Ha Hp Hright Hrep Hctx Hd
    Hbst Hmax Hsb Hsm Hh Hsh Hfuel.
  all: destruct fuel as [|fuel]; [lia|].
  all: simpl; rewrite Ha; simpl; rewrite Hright.
  all: rewrite (min_interval_right h lo hi a r fuel) by (done || lia); simpl.
  all: rewrite filter_app; fold (scan h lo hi r).
  all: destruct (scan h lo hi r) as [|m ms] eqn:Hs; [|done]; simpl.
  all: rewrite Hp, (climb_loop_up h ctx a fuel) by (done || lia); simpl.
  all: rewrite <- (after_up ctx).
  all: pose proof (up_length ctx) as Hul.
  all: pose proof (rep_ctx_up h ctx _ Hctx) as (p' & Hup).
  all: pose proof (distinct_edges_up ctx a Hd) as Hdu.
  all: pose proof (siblings_up _ ctx Hsb) as Hsbu.
  all: pose proof (siblings_up _ ctx Hsm) as Hsmu.
  all: pose proof (siblings_up _ ctx Hsh) as Hshu.
  all: destruct (up_shape ctx) as [Hu|(pa & rs & ctx' & Hu)]; rewrite Hu in *; [done|].
  all: destruct Hup as (pnd & Hpa & Hpp & Hpl & Hpr & Hprep & Hpctx).
  all: simpl; rewrite Hpa; simpl.
  all: rewrite (intersects_hits h pa pnd lo hi Hpa), filter_cons.
  all: destruct (decide (hits h lo hi pa)) as [Hh'|Hh'];
    [by rewrite bool_decide_eq_true_2|rewrite bool_decide_eq_false_2 by done].
  - simpl in Hul. destruct ctx; simpl in *; lia.
  - destruct Hsbu as [? ?], Hsmu as [? ?], Hshu as [? ?].
    simpl in Hul.
    apply (IH ctx' ltac:(lia) pa rs pnd fuel); try done. lia.
Qed.

(** ** From the whole tree to a position *)

Lemma position_exists T b :
  b ∈ inorder T → ∃ ctx l r, T = plug ctx (Node l b r).
Proof.
  assert (∀ t ctx, b ∈ inorder t → ∃ ctx' l r, plug ctx t = plug ctx' (Node l b r)) as Hgen.
  { induction t as [|l IHl a r IHr]; intros ctx Hb; simpl in Hb.
    - by apply elem_of_nil in Hb.
    - apply elem_of_app in Hb as [Hb|Hb]; [|apply elem_of_cons in Hb as [->|Hb]].
      + apply (IHl (InLeft a r :: ctx) Hb).
      + by exists ctx, l, r.
      + apply (IHr (InRight l a :: ctx) Hb). }
  intros Hb. apply (Hgen T [] Hb).
Qed.

Lemma bst_plug h ctx :
  ∀ t, bst h (plug ctx t) → bst h t ∧ siblings (bst h) ctx.
Proof.
  induction ctx as [|[a r|l a] ctx IH]; intros t Hb; simpl in *; [done| |].
  - destruct (IH _ Hb) as ((_ & _ & ? & ?) & ?). done.
  - destruct (IH _ Hb) as ((_ & _ & ? & ?) & ?). done.
Qed.

Lemma max_consistent_plug h ctx :
  ∀ t, max_consistent h (plug ctx t) → max_consistent h t ∧ siblings (max_consistent h) ctx.
Proof.
  induction ctx as [|[a r|l a] ctx IH]; intros t Hb; simpl in *; [done| |].
  - destruct (IH _ Hb) as ((_ & ? & ?) & ?). done.
  - destruct (IH _ Hb) as ((_ & ? & ?) & ?). done.
Qed.

Lemma siblings_weaken (P Q : tree → Prop) ctx :
  (∀ t, P t → Q t) → siblings P ctx → siblings Q ctx.
Proof.
  intros HPQ. induction ctx as [|[a r|l a] ctx IH]; simpl; [done| |done].
  intros [? ?]. auto.
Qed.

Lemma theight_plug ctx :
  ∀ t, (theight t + length ctx ≤ theight (plug ctx t))%nat ∧
       siblings (λ s, (theight s ≤ theight (plug ctx t))%nat) ctx.
Proof.
  induction ctx as [|[a r|l a] ctx IH]; intros t; simpl; [split; [lia|done]| |].
  - destruct (IH (Node t a r)) as [Hh Hs]. simpl in Hh. repeat split; [lia|lia|done].
  - destruct (IH (Node l a t)) as [Hh Hs]. simpl in Hh. split; [lia|done].
Qed.

(** In a well-formed, ordered tree with a consistent stored maximum, the
    successor search started at any node returns the first overlapping node
    that comes after it in order. *)
Lemma next_interval_position h lo hi ctx l a r fuel :
  rep h None (plug ctx (Node l a r)) →
  NoDup (inorder (plug ctx (Node l a r))) →
  bst h (plug ctx (Node l a r)) →
  max_consistent h (plug ctx (Node l a r)) →
  (2 * theight (plug ctx (Node l a r)) ≤ fuel)%nat →
  interval_tree_next_interval fuel h (Some a) lo hi =
  Some (head (filter (hits h lo hi) (inorder r ++ after ctx))).
Proof.
  intros Hrep Hnd Hbst Hmax Hfuel.
  apply rep_plug in Hrep as [(nd & Ha & Hp & Hleft & Hright & Hl & Hr) Hctx].
  apply bst_plug in Hbst as [(_ & _ & _ & Hbr) Hbs].
  apply max_consistent_plug in Hmax as [(_ & _ & Hmr) Hms].
  destruct (theight_plug ctx (Node l a r)) as [Hh Hsh]. simpl in Hh.
  apply (next_interval_scan h lo hi (theight (plug ctx (Node l a r))) (length ctx) ctx
           ltac:(lia) a r nd fuel); try done.
  - by apply (NoDup_distinct_edges ctx (Node l a r)).
  - lia.
  - lia.
Qed.

(** ** Iteration *)

Lemma NoDup_split_unique {A} (x : A) l1 :
  ∀ l2 k1 k2, NoDup (l1 ++ x :: l2) → l1 ++ x :: l2 = k1 ++ x :: k2 → l2 = k2.
Proof.
  induction l1 as [|y l1 IH]; intros l2 k1 k2 Hnd Heq.
  - destruct k1 as [|z k1]; simpl in Heq; [by simplify_eq|].
    simplify_eq. apply NoDup_cons in Hnd as [Hx _].
    exfalso. apply Hx. apply elem_of_app. right. by apply elem_of_cons; left.
  - destruct k1 as [|z k1]; simpl in Heq; simplify_eq.
    + apply NoDup_cons in Hnd as [Hx _].
      exfalso. apply Hx. apply elem_of_app. right. by apply elem_of_cons; left.
    + apply NoDup_cons in Hnd as [_ Hnd]. by apply (IH l2 k1 k2).
Qed.

Lemma filter_head_split {A} (P : A → Prop) `{∀ x, Decision (P x)} (l : list A) c rest :
  filter P l = c :: rest →
  ∃ p1 p2, l = p1 ++ c :: p2 ∧ filter P p1 = [] ∧ filter P p2 = rest.
Proof.
  induction l as [|y l IH]; [done|].
  rewrite filter_cons. destruct (decide (P y)) as [Hy|Hy].
  - intros [= -> <-]. by exists [], l.
  - intros Hf. destruct (IH Hf) as (p1 & p2 & -> & Hp1 & Hp2).
    exists (y :: p1), p2. split; [done|]. split; [|done].
    by rewrite filter_cons_False.
Qed.

Lemma iter_collect_scan h lo hi T fuel :
  rep h None T → NoDup (inorder T) → bst h T → max_consistent h T →
  (2 * theight T ≤ fuel)%nat →
  ∀ steps b pre post,
    inorder T = pre ++ b :: post → (length post < steps)%nat →
    iter_collect steps fuel h {| it_low := lo; it_high := hi; it_n := Some b |} (Some b)
    = Some (b :: filter (hits h lo hi) post).
Proof.
  intros Hrep Hnd Hbst Hmax Hfuel.
  induction steps as [|steps IH]; intros b pre post Hin Hlen; [lia|].
  assert (b ∈ inorder T) as Hb.
  { rewrite Hin. apply elem_of_app. right. by apply elem_of_cons; left. }
  destruct (position_exists T b Hb) as (ctx & l & r & HT).
  assert (post = inorder r ++ after ctx) as Hpost.
  { symmetry. apply (NoDup_split_unique b (before ctx ++ inorder l) _ pre post).
    - rewrite HT, inorder_plug in Hnd. simpl in Hnd. by rewrite <- !app_assoc in Hnd |- *.
    - rewrite <- Hin, HT, inorder_plug. simpl. by rewrite <- !app_assoc. }
  simpl. unfold interval_tree_iter_next. simpl.
  rewrite (next_interval_position h lo hi ctx l b r fuel) by (by rewrite <- HT).
  rewrite <- Hpost. simpl.
  destruct (filter (hits h lo hi) post) as [|c rest] eqn:Hf; [by destruct steps|].
  destruct (filter_head_split _ _ _ _ Hf) as (p1 & p2 & -> & Hp1 & Hp2).
  simpl. rewrite (IH c (pre ++ b :: p1) p2).
  - simpl. by rewrite Hp2.
  - rewrite Hin. by rewrite <- app_assoc.
  - rewrite length_app in Hlen. simpl in Hlen. lia.
Qed.

Lemma iterate_scan h t T lo hi steps fuel :
  wf_tree h t T → bst h T → max_consistent h T →
  (2 * theight T ≤ fuel)%nat → (length (inorder T) ≤ steps)%nat →
  iterate steps fuel h t lo hi = Some (scan h lo hi T).
Proof.
  intros (Hroot & Hrep & Hnd) Hbst Hmax Hfuel Hsteps.
  unfold iterate, interval_tree_iter_first, interval_tree_min_interval.
  rewrite Hroot, (min_interval_loop_scan h lo hi T None) by (done || lia). simpl.
  destruct (scan h lo hi T) as [|b rest] eqn:Hs; [by destruct steps|]. simpl.
  destruct (filter_head_split _ _ _ _ Hs) as (p1 & p2 & Hin & Hp1 & Hp2).
  rewrite (iter_collect_scan h lo hi T fuel Hrep Hnd Hbst Hmax Hfuel steps b p1 p2 Hin).
  - by rewrite Hp2.
  - rewrite Hin, length_app in Hsteps. simpl in Hsteps. lia.
Qed.

(** ** More fuel never changes a result *)

Lemma min_interval_loop_mono h lo hi fuel :
  ∀ n acc res fuel',
    min_interval_loop fuel h n lo hi acc = Some res → (fuel ≤ fuel')%nat →
    min_interval_loop fuel' h n lo hi acc = Some res.
Proof.
  induction fuel as [|fuel IH]; intros [a|] acc res fuel' Hres Hle;
    try (destruct fuel'; done).
  destruct fuel' as [|fuel']; [lia|].
  simpl in *. destruct (h !! a) as [nd|]; simpl in *; [|done].
  destruct (match n_left nd with
            | Some la => h !! la ≫= λ lnd, Some (n_max lnd <? lo)
            | None => Some true
            end) as [[|]|]; simpl in *; [|apply IH; [done|lia]|done].
  destruct (interval_tree_intersects nd lo hi); [done|]. apply IH; [done|lia].
Qed.

Lemma find_loop_mono h lo hi fuel :
  ∀ n res fuel',
    find_loop fuel h n lo hi = Some res → (fuel ≤ fuel')%nat →
    find_loop fuel' h n lo hi = Some res.
Proof.
  induction fuel as [|fuel IH]; intros [a|] res fuel' Hres Hle;
    try (destruct fuel'; done).
  destruct fuel' as [|fuel']; [lia|].
  simpl in *. destruct (h !! a) as [nd|]; simpl in *; [|done].
  destruct (interval_tree_intersects nd lo hi); [done|].
  destruct (match n_left nd with
            | Some la => h !! la ≫= λ lnd, Some (n_max lnd <? lo)
            | None => Some true
            end) as [[|]|]; simpl in *; [| |done]; (apply IH; [done|lia]).
Qed.

Lemma climb_loop_mono h fuel :
  ∀ c n res fuel',
    climb_loop fuel h c n = Some res → (fuel ≤ fuel')%nat →
    climb_loop fuel' h c n = Some res.
Proof.
  induction fuel as [|fuel IH]; intros c [a|] res fuel' Hres Hle;
    try (destruct fuel'; done).
  destruct fuel' as [|fuel']; [lia|].
  simpl in *. destruct (h !! a) as [nd|]; simpl in *; [|done].
  destruct (decide (n_right nd = Some c)); [|done]. apply IH; [done|lia].
Qed.

Lemma next_interval_mono h lo hi fuel :
  ∀ n res fuel',
    interval_tree_next_interval fuel h n lo hi = Some res → (fuel ≤ fuel')%nat →
    interval_tree_next_interval fuel' h n lo hi = Some res.
Proof.
  induction fuel as [|fuel IH]; intros [a|] res fuel' Hres Hle;
    try (destruct fuel'; done).
  destruct fuel' as [|fuel']; [lia|].
  simpl in *. destruct (h !! a) as [nd|]; simpl in *; [|done].
  destruct (match n_right nd with
            | Some _ => interval_tree_min_interval fuel h (n_right nd) lo hi
            | None => Some None
            end) as [min|] eqn:Hmin; simpl in *; [|done].
  assert (match n_right nd with
          | Some _ => interval_tree_min_interval fuel' h (n_right nd) lo hi
          | None => Some None
          end = Some min) as ->.
  { destruct (n_right nd); [|done].
    apply (min_interval_loop_mono h lo hi fuel); [done|lia]. }
  simpl. destruct min as [m|]; [done|].
  destruct (climb_loop fuel h a (n_parent nd)) as [n'|] eqn:Hclimb; simpl in *; [|done].
  rewrite (climb_loop_mono h fuel a (n_parent nd) n' fuel') by (done || lia). simpl.
  destruct n' as [pa|]; [|done].
  destruct (h !! pa) as [pnd|]; simpl in *; [|done].
  destruct (interval_tree_intersects pnd lo hi); [done|]. apply IH; [done|lia].
Qed.

(** ** Termination on well-formed links *)

Lemma min_interval_loop_total h lo hi t :
  ∀ par fuel acc,
    rep h par t → (theight t ≤ fuel)%nat →
    is_Some (min_interval_loop fuel h (root_ptr t) lo hi acc).
Proof.
  induction t as [|l IHl a r IHr]; intros par fuel acc Hrep Hfuel.
  - by destruct fuel.
  - destruct fuel as [|fuel]; [simpl in Hfuel; lia|].
    simpl in Hfuel.
    destruct Hrep as (nd & Ha & Hp & Hleft & Hright & Hrl & Hrr).
    simpl. rewrite Ha. simpl.
    rewrite Hleft, (left_test_shape h a l lo Hrl), Hright. simpl.
    destruct (left_excluded h l lo).
    + destruct (interval_tree_intersects nd lo hi); [done|].
      apply (IHr (Some a)); [done|lia].
    + apply (IHl (Some a)); [done|lia].
Qed.

Lemma find_loop_total h lo hi t :
  ∀ par fuel,
    rep h par t → (theight t ≤ fuel)%nat →
    is_Some (find_loop fuel h (root_ptr t) lo hi).
Proof.
  induction t as [|l IHl a r IHr]; intros par fuel Hrep Hfuel.
  - by destruct fuel.
  - destruct fuel as [|fuel]; [simpl in Hfuel; lia|].
    simpl in Hfuel.
    destruct Hrep as (nd & Ha & Hp & Hleft & Hright & Hrl & Hrr).
    simpl. rewrite Ha. simpl.
    destruct (interval_tree_intersects nd lo hi); [done|].
    rewrite Hleft, (left_test_shape h a l lo Hrl), Hright. simpl.
    destruct (left_excluded h l lo).
    + apply (IHr (Some a)); [done|lia].
    + apply (IHl (Some a)); [done|lia].
Qed.

Lemma next_interval_total h lo hi H n :
  ∀ ctx, (length ctx ≤ n)%nat →
  ∀ a r nd fuel,
    h !! a = Some nd → n_parent nd = hole_parent ctx → n_right nd = root_ptr r →
    rep h (Some a) r → rep_ctx h ctx (Some a) → distinct_edges ctx a →
    (theight r ≤ H)%nat → siblings (λ s, (theight s ≤ H)%nat) ctx →
    (H + length ctx < fuel)%nat →
    is_Some (interval_tree_next_interval fuel h (Some a) lo hi).
Proof.
  induction n as [|n IH]; intros ctx Hlen a r nd fuel Ha Hp Hright Hrep Hctx Hd
    Hh Hsh Hfuel.
  all: destruct fuel as [|fuel]; [lia|].
  all: simpl; rewrite Ha; simpl; rewrite Hright.
  all: assert (is_Some (match root_ptr r with
                        | Some _ => interval_tree_min_interval fuel h (root_ptr r) lo hi
                        | None => Some None
                        end)) as [min ->];
    [destruct r; [done|];
     apply (min_interval_loop_total h lo hi _ (Some a)); [done|lia]|].
  all: simpl; destruct min as [m|]; [done|].
  all: rewrite Hp, (climb_loop_up h ctx a fuel) by (done || lia); simpl.
  all: pose proof (up_length ctx) as Hul.
  all: pose proof (rep_ctx_up h ctx _ Hctx) as (p' & Hup).
  all: pose proof (distinct_edges_up ctx a Hd) as Hdu.
  all: pose proof (siblings_up _ ctx Hsh) as Hshu.
  all: destruct (up_shape ctx) as [Hu|(pa & rs & ctx' & Hu)]; rewrite Hu in *; [done|].
  all: destruct Hup as (pnd & Hpa & Hpp & Hpl & Hpr & Hprep & Hpctx).
  all: simpl; rewrite Hpa; simpl.
  all: destruct (interval_tree_intersects pnd lo hi); [done|].
  - simpl in Hul. destruct ctx; simpl in *; lia.
  - destruct Hshu as [? ?]. simpl in Hul.
    apply (IH ctx' ltac:(lia) pa rs pnd fuel); try done. lia.
Qed.

Lemma next_interval_total_position h lo hi ctx l a r fuel :
  rep h None (plug ctx (Node l a r)) →
  NoDup (inorder (plug ctx (Node l a r))) →
  (2 * theight (plug ctx (Node l a r)) ≤ fuel)%nat →
  is_Some (interval_tree_next_interval fuel h (Some a) lo hi).
Proof.
  intros Hrep Hnd Hfuel.
  apply rep_plug in Hrep as [(nd & Ha & Hp & Hleft & Hright & Hl & Hr) Hctx].
  destruct (theight_plug ctx (Node l a r)) as [Hh Hsh]. simpl in Hh.
  apply (next_interval_total h lo hi (theight (plug ctx (Node l a r))) (length ctx) ctx
           ltac:(lia) a r nd fuel); try done.
  - by apply (NoDup_distinct_edges ctx (Node l a r)).
  - lia.
  - lia.
Qed.

(** Every node of a linked tree roots a linked subtree that is no taller
    than the whole tree. *)
Lemma subtree_at h T a :
  rep h None T → a ∈ inorder T →
  ∃ par sub, rep h par sub ∧ root_ptr sub = Some a ∧ (theight sub ≤ theight T)%nat.
Proof.
  intros Hrep Ha. destruct (position_exists T a Ha) as (ctx & l & r & ->).
  apply rep_plug in Hrep as [Hsub _].
  exists (hole_parent ctx), (Node l a r). split; [done|]. split; [done|].
  destruct (theight_plug ctx (Node l a r)) as [Hh _]. lia.
Qed.

(** ** The example trees *)

Lemma ex_wf : wf_tree ex_heap ex_tree ex_shape.
Proof. example_wf. Qed.

Lemma ex_bst : bst ex_heap ex_shape.
Proof. example_bst. Qed.

Lemma ex_max_consistent : max_consistent ex_heap ex_shape.
Proof. by vm_compute. Qed.

Lemma gap_wf : wf_tree gap_heap gap_tree gap_shape.
Proof. example_wf. Qed.

Lemma gap_bst : bst gap_heap gap_shape.
Proof. example_bst. Qed.

Lemma gap_max_consistent : max_consistent gap_heap gap_shape.
Proof. by vm_compute. Qed.

(** The example of the specification: the query [4,4] meets [1,5] and
    [3,7], in that order, and the query [20,30] meets nothing. *)
Example ex_iterate_4_4 :
  iterate 3 4 ex_heap ex_tree 4 4 = Some [1%positive; 2%positive].
Proof. by vm_compute. Qed.

Example ex_iterate_20_30 : iterate 3 4 ex_heap ex_tree 20 30 = Some [].
Proof. by vm_compute. Qed.

Example ex_find_4_4 : interval_tree_find 2 ex_heap ex_tree 4 4 = Some (Some 2%positive).
Proof. by vm_compute. Qed.

(** ** The path above the ancestor a climb stops at *)

Lemma plug_app c1 : ∀ c2 t, plug (c1 ++ c2) t = plug c2 (plug c1 t).
Proof. induction c1 as [|[a r|l a] c1 IH]; intros c2 t; simpl; by rewrite ?IH. Qed.

Lemma up_split ctx : ∃ sk, ctx = sk ++ up ctx.
Proof.
  induction ctx as [|[a r|l a] ctx IH]; simpl.
  - by exists [].
  - by exists [].
  - destruct IH as (sk & Hsk). exists (InRight l a :: sk). simpl. by rewrite <- Hsk.
Qed.

(** The ancestor a climb stops at is itself a position of the tree. *)
Lemma up_position ctx t pa rs ctx' :
  up ctx = InLeft pa rs :: ctx' →
  ∃ L, plug ctx t = plug ctx' (Node L pa rs) ∧ (S (length ctx') ≤ length ctx)%nat.
Proof.
  intros Hup. destruct (up_split ctx) as (sk & Hsk). rewrite Hup in Hsk.
  exists (plug sk t). split.
  - rewrite Hsk at 1. by rewrite plug_app.
  - rewrite Hsk, length_app. simpl. lia.
Qed.

(** ** Heaps that agree on the data of some nodes *)

Lemma agree_sub h h' l k : agree h h' l → (∀ b, b ∈ k → b ∈ l) → agree h h' k.
Proof. intros Hag Hsub b Hb. apply Hag. by apply Hsub. Qed.

Lemma agree_root_max h h' t : agree h h' (inorder t) → root_max h' t = root_max h t.
Proof.
  destruct t as [|l a r]; [done|]. intros Hag. simpl.
  apply Hag. simpl. apply elem_of_app. right. by apply elem_of_cons; left.
Qed.

Lemma max_fixed_agree h h' t : agree h h' (inorder t) → max_fixed h t → max_fixed h' t.
Proof.
  induction t as [|l IHl a r IHr]; [done|]. simpl.
  intros Hag (Hm & Hl & Hr).
  assert (agree h h' (inorder l)) as Hagl.
  { apply (agree_sub _ _ _ _ Hag). intros b Hb. apply elem_of_app. by left. }
  assert (agree h h' (inorder r)) as Hagr.
  { apply (agree_sub _ _ _ _ Hag). intros b Hb. apply elem_of_app. right.
    by apply elem_of_cons; right. }
  destruct (Hag a) as [Hma Hha].
  { apply elem_of_app. right. by apply elem_of_cons; left. }
  split; [|split; auto].
  by rewrite Hma, Hha, (agree_root_max h h' l Hagl), (agree_root_max h h' r Hagr).
Qed.

(** ** Updating one node *)

Lemma max_of_insert h a nd b :
  max_of (<[a := nd]> h) b = if decide (a = b) then n_max nd else max_of h b.
Proof.
  unfold max_of. destruct (decide (a = b)) as [->|Hne].
  - by rewrite lookup_total_insert_eq.
  - by rewrite lookup_total_insert_ne.
Qed.

Lemma high_of_insert h a nd b :
  high_of (<[a := nd]> h) b = if decide (a = b) then n_high nd else high_of h b.
Proof.
  unfold high_of. destruct (decide (a = b)) as [->|Hne].
  - by rewrite lookup_total_insert_eq.
  - by rewrite lookup_total_insert_ne.
Qed.

Lemma agree_insert_notin h a nd l : a ∉ l → agree h (<[a := nd]> h) l.
Proof.
  intros Ha b Hb. rewrite max_of_insert, high_of_insert.
  destruct (decide (a = b)) as [->|]; done.
Qed.

(** Rewriting the aggregates of a node keeps every link in place. *)
Lemma rep_insert_same_base h a nd nd' :
  h !! a = Some nd → base nd' = base nd →
  ∀ T par, rep h par T → rep (<[a := nd']> h) par T.
Proof.
  intros Ha Hbase. induction T as [|l IHl b r IHr]; intros par; simpl; [done|].
  intros (bd & Hb & Hp & Hleft & Hright & Hl & Hr).
  destruct (decide (a = b)) as [->|Hne].
  - exists nd'. rewrite lookup_insert_eq. simplify_eq.
    unfold n_parent, n_left, n_right in *. rewrite Hbase. auto 10.
  - exists bd. rewrite lookup_insert_ne by done. auto 10.
Qed.

Lemma rep_ctx_insert_same_base h a nd nd' :
  h !! a = Some nd → base nd' = base nd →
  ∀ ctx p, rep_ctx h ctx p → rep_ctx (<[a := nd']> h) ctx p.
Proof.
  intros Ha Hbase ctx p Hc.
  induction ctx as [|[b r|l b] ctx IH] in p, Hc |- *; simpl; [done| |].
  all: destruct Hc as (bd & Hb & Hp & Hleft & Hright & Hs & Hc).
  all: destruct (decide (a = b)) as [->|Hne];
    [exists nd'; rewrite lookup_insert_eq; simplify_eq;
     unfold n_parent, n_left, n_right in *; rewrite Hbase
    |exists bd; rewrite lookup_insert_ne by done].
  all: repeat split; try done.
  all: first [by eapply rep_insert_same_base|by apply IH].
Qed.

(** ** What the hooks compute *)

Lemma node_max_shape h par t :
  rep h par t → interval_tree_node_max h (root_ptr t) = Some (root_max h t).
Proof.
  destruct t as [|l a r]; [done|]. intros (nd & Ha & _). simpl.
  by rewrite Ha, (max_of_lookup h a nd Ha).
Qed.

Lemma node_size_shape h par t :
  rep h par t → interval_tree_node_size h (root_ptr t) = Some (root_size h t).
Proof.
  destruct t as [|l a r]; [done|]. intros (nd & Ha & _). simpl.
  unfold size_of. by rewrite Ha, (lookup_total_correct h a nd Ha).
Qed.

Lemma node_height_shape h par t :
  rep h par t → interval_tree_node_height h (root_ptr t) = Some (root_height h t).
Proof.
  destruct t as [|l a r]; [done|]. intros (nd & Ha & _). simpl.
  unfold height_of. by rewrite Ha, (lookup_total_correct h a nd Ha).
Qed.

(** [interval_tree_fix_counts] rewrites the three aggregates of one node
    from its children and touches nothing else. *)
Lemma fix_counts_at h a nd l r :
  h !! a = Some nd → n_left nd = root_ptr l → n_right nd = root_ptr r →
  rep h (Some a) l → rep h (Some a) r →
  ∃ nd', interval_tree_fix_counts h (Some a) = Some (<[a := nd']> h) ∧
         base nd' = base nd ∧ n_low nd' = n_low nd ∧ n_high nd' = n_high nd ∧
         n_max nd' = MAX (MAX (n_high nd) (root_max h l)) (root_max h r) ∧
         n_size nd' = int_add (int_add 1 (root_size h l)) (root_size h r) ∧
         n_height nd' = int_add 1 (MAX (root_height h l) (root_height h r)).
Proof.
  intros Ha Hleft Hright Hl Hr. simpl. rewrite Ha. simpl.
  rewrite Hleft, Hright.
  rewrite (node_size_shape h _ l Hl), (node_size_shape h _ r Hr).
  rewrite (node_height_shape h _ l Hl), (node_height_shape h _ r Hr).
  rewrite (node_max_shape h _ l Hl), (node_max_shape h _ r Hr). simpl.
  eexists. split; [reflexivity|]. done.
Qed.

(** ** Consistency along a path *)

Lemma max_fixed_plug h ctx :
  ∀ t, max_fixed h (plug ctx t) ↔ max_fixed h t ∧ ctx_fixed h ctx (root_max h t).
Proof.
  induction ctx as [|[a r|l a] ctx IH]; intros t; simpl; [tauto| |].
  - rewrite IH. simpl. tauto.
  - rewrite IH. simpl. tauto.
Qed.

Lemma ctx_fixed_siblings h ctx : ∀ m, ctx_fixed h ctx m → all_siblings (max_fixed h) ctx.
Proof.
  induction ctx as [|[a r|l a] ctx IH]; intros m; simpl; [done| |].
  - intros (_ & ? & ?). eauto.
  - intros (_ & ? & ?). eauto.
Qed.

Lemma all_siblings_agree h h' ctx :
  agree h h' (before ctx ++ after ctx) →
  all_siblings (max_fixed h) ctx → all_siblings (max_fixed h') ctx.
Proof.
  induction ctx as [|[a r|l a] ctx IH]; simpl; [done| |].
  - intros Hag [Hr Hs]. split.
    + apply (max_fixed_agree h h' r); [|done].
      apply (agree_sub _ _ _ _ Hag). intros b Hb.
      apply elem_of_app. right. apply elem_of_cons. right. apply elem_of_app. by left.
    + apply IH; [|done]. apply (agree_sub _ _ _ _ Hag). intros b Hb.
      apply elem_of_app in Hb as [Hb|Hb]; apply elem_of_app; [by left|right].
      apply elem_of_cons. right. apply elem_of_app. by right.
  - intros Hag [Hl Hs]. split.
    + apply (max_fixed_agree h h' l); [|done].
      apply (agree_sub _ _ _ _ Hag). intros b Hb.
      apply elem_of_app. left. apply elem_of_app. right. apply elem_of_app. by left.
    + apply IH; [|done]. apply (agree_sub _ _ _ _ Hag). intros b Hb.
      apply elem_of_app in Hb as [Hb|Hb]; apply elem_of_app; [left|by right].
      apply elem_of_app. by left.
Qed.

Lemma ctx_fixed_agree h h' ctx :
  agree h h' (before ctx ++ after ctx) →
  ∀ m, ctx_fixed h ctx m → ctx_fixed h' ctx m.
Proof.
  induction ctx as [|[a r|l a] ctx IH]; simpl; [done| |].
  - intros Hag m (Hm & Hr & Hc).
    assert (agree h h' (inorder r)) as Hagr.
    { apply (agree_sub _ _ _ _ Hag). intros b Hb.
      apply elem_of_app. right. apply elem_of_cons. right. apply elem_of_app. by left. }
    destruct (Hag a) as [Hma Hha].
    { apply elem_of_app. right. by apply elem_of_cons; left. }
    rewrite Hma, Hha, (agree_root_max h h' r Hagr).
    split; [done|]. split; [by apply (max_fixed_agree h h' r)|].
    apply IH; [|done]. apply (agree_sub _ _ _ _ Hag). intros b Hb.
    apply elem_of_app in Hb as [Hb|Hb]; apply elem_of_app; [by left|right].
    apply elem_of_cons. right. apply elem_of_app. by right.
  - intros Hag m (Hm & Hl & Hc).
    assert (agree h h' (inorder l)) as Hagl.
    { apply (agree_sub _ _ _ _ Hag). intros b Hb.
      apply elem_of_app. left. apply elem_of_app. right. apply elem_of_app. by left. }
    destruct (Hag a) as [Hma Hha].
    { apply elem_of_app. left. apply elem_of_app. right. apply elem_of_app. right.
      by apply elem_of_cons; left. }
    rewrite Hma, Hha, (agree_root_max h h' l Hagl).
    split; [done|]. split; [by apply (max_fixed_agree h h' l)|].
    apply IH; [|done]. apply (agree_sub _ _ _ _ Hag). intros b Hb.
    apply elem_of_app in Hb as [Hb|Hb]; apply elem_of_app; [left|by right].
    apply elem_of_app. by left.
Qed.

(** In a tree without repeated addresses a node occurs neither in its own
    subtrees nor anywhere along or beside its path. *)
Lemma NoDup_plug_node ctx l a r :
  NoDup (inorder (plug ctx (Node l a r))) →
  (a ∉ inorder l) ∧ (a ∉ inorder r) ∧ (a ∉ before ctx ++ after ctx).
Proof.
  rewrite inorder_plug. simpl. intros Hnd.
  apply NoDup_app in Hnd as (_ & Hb & Hnd).
  apply NoDup_app in Hnd as (Hnd & Ha & _).
  apply NoDup_app in Hnd as (_ & Hl & Hnd).
  apply NoDup_cons in Hnd as [Hr _].
  assert (a ∈ (inorder l ++ a :: inorder r) ++ after ctx) as Hin.
  { apply elem_of_app. left. apply elem_of_app. right. by apply elem_of_cons; left. }
  assert (a ∈ inorder l ++ a :: inorder r) as Hin'.
  { apply elem_of_app. right. by apply elem_of_cons; left. }
  split; [|split; [done|]].
  - intros Hal. apply (Hl a Hal). by apply elem_of_cons; left.
  - intros Hba. apply elem_of_app in Hba as [Hba|Hba].
    + by apply (Hb a Hba).
    + by apply (Ha a Hin').
Qed.

(** ** The propagate hook *)

Lemma propagate_mono fuel :
  ∀ h n h2 fuel',
    interval_tree_augment_propagate fuel h n = Some h2 → (fuel ≤ fuel')%nat →
    interval_tree_augment_propagate fuel' h n = Some h2.
Proof.
  induction fuel as [|fuel IH]; intros h [a|] h2 fuel' Hres Hle;
    try (destruct fuel'; done).
  destruct fuel' as [|fuel']; [lia|].
  simpl in *. destruct (h !! a) as [nd|]; simpl in *; [|done].
  destruct (interval_tree_node_size h (n_left nd)); simpl in *; [|done].
  destruct (interval_tree_node_size h (n_right nd)); simpl in *; [|done].
  destruct (interval_tree_node_height h (n_left nd)); simpl in *; [|done].
  destruct (interval_tree_node_height h (n_right nd)); simpl in *; [|done].
  destruct (interval_tree_node_max h (n_left nd)); simpl in *; [|done].
  destruct (interval_tree_node_max h (n_right nd)); simpl in *; [|done].
  rewrite lookup_insert_eq in Hres |- *. simpl in *.
  apply IH; [done|lia].
Qed.

(** One step of the walk: the node above the hole is recomputed, after which
    the subtree it roots is consistent. *)
Lemma fix_counts_above h l a r par :
  rep h par (Node l a r) → a ∉ inorder l → a ∉ inorder r →
  max_fixed h l → max_fixed h r →
  ∃ nd nd', h !! a = Some nd ∧
    interval_tree_fix_counts h (Some a) = Some (<[a := nd']> h) ∧
    base nd' = base nd ∧ n_high nd' = n_high nd ∧
    max_fixed (<[a := nd']> h) (Node l a r).
Proof.
  intros (nd & Ha & Hp & Hleft & Hright & Hl & Hr) Hal Har Hml Hmr.
  destruct (fix_counts_at h a nd l r Ha Hleft Hright Hl Hr)
    as (nd' & Hfix & Hbase & Hlow & Hhigh & Hmax & _).
  exists nd, nd'. repeat split; try done.
  - simpl. rewrite max_of_insert, high_of_insert, !decide_True by done.
    rewrite (agree_root_max h _ l (agree_insert_notin h a nd' _ Hal)).
    rewrite (agree_root_max h _ r (agree_insert_notin h a nd' _ Har)).
    by rewrite Hmax, Hhigh.
  - apply (max_fixed_agree h); [by apply agree_insert_notin|done].
  - apply (max_fixed_agree h); [by apply agree_insert_notin|done].
Qed.

(** Walking up from the parent of a consistent subtree, past consistent
    siblings, leaves the whole tree consistent. *)
Lemma propagate_path ctx :
  ∀ t h fuel,
    rep h None (plug ctx t) → NoDup (inorder (plug ctx t)) →
    max_fixed h t → all_siblings (max_fixed h) ctx → (length ctx ≤ fuel)%nat →
    ∃ h2, interval_tree_augment_propagate fuel h (hole_parent ctx) = Some h2 ∧
          rep h2 None (plug ctx t) ∧ max_fixed h2 (plug ctx t) ∧
          ∀ b, high_of h2 b = high_of h b.
Proof.
  induction ctx as [|[a r|l a] ctx IH]; intros t h fuel Hrep Hnd Hmt Hsib Hfuel.
  - exists h. by destruct fuel.
  - destruct fuel as [|fuel]; [simpl in Hfuel; lia|]. simpl in Hfuel, Hsib, Hrep, Hnd.
    destruct Hsib as [Hmr Hsib].
    pose proof (proj1 (rep_plug h ctx _) Hrep) as [Hsub Hctx].
    destruct (NoDup_plug_node ctx t a r Hnd) as (Hat & Har & Hac).
    destruct (fix_counts_above h t a r _ Hsub Hat Har Hmt Hmr)
      as (nd & nd' & Ha & Hfix & Hbase & Hhigh & Hfixed).
    destruct (IH (Node t a r) (<[a := nd']> h) fuel) as (h2 & Hprop & Hrep2 & Hm2 & Hh2).
    + by apply (rep_insert_same_base h a nd nd').
    + done.
    + done.
    + apply (all_siblings_agree h); [by apply agree_insert_notin|done].
    + lia.
    + exists h2. split; [|split; [done|split; [done|]]].
      * change (hole_parent (InLeft a r :: ctx)) with (Some a).
        simpl. simpl in Hfix. rewrite Hfix. simpl. rewrite lookup_insert_eq. simpl.
        destruct Hsub as (nd0 & Ha0 & Hp0 & _). simplify_eq.
        unfold n_parent in *. by rewrite Hbase, Hp0.
      * intros b. rewrite Hh2, high_of_insert.
        destruct (decide (a = b)) as [->|]; [|done].
        by rewrite Hhigh, (high_of_lookup h b nd Ha).
  - destruct fuel as [|fuel]; [simpl in Hfuel; lia|]. simpl in Hfuel, Hsib, Hrep, Hnd.
    destruct Hsib as [Hml Hsib].
    pose proof (proj1 (rep_plug h ctx _) Hrep) as [Hsub Hctx].
    destruct (NoDup_plug_node ctx l a t Hnd) as (Hal & Hat & Hac).
    destruct (fix_counts_above h l a t _ Hsub Hal Hat Hml Hmt)
      as (nd & nd' & Ha & Hfix & Hbase & Hhigh & Hfixed).
    destruct (IH (Node l a t) (<[a := nd']> h) fuel) as (h2 & Hprop & Hrep2 & Hm2 & Hh2).
    + by apply (rep_insert_same_base h a nd nd').
    + done.
    + done.
    + apply (all_siblings_agree h); [by apply agree_insert_notin|done].
    + lia.
    + exists h2. split; [|split; [done|split; [done|]]].
      * change (hole_parent (InRight l a :: ctx)) with (Some a).
        simpl. simpl in Hfix. rewrite Hfix. simpl. rewrite lookup_insert_eq. simpl.
        destruct Hsub as (nd0 & Ha0 & Hp0 & _). simplify_eq.
        unfold n_parent in *. by rewrite Hbase, Hp0.
      * intros b. rewrite Hh2, high_of_insert.
        destruct (decide (a = b)) as [->|]; [|done].
        by rewrite Hhigh, (high_of_lookup h b nd Ha).
Qed.

Lemma option_bind_some {A B} (f : A → option B) (x : A) : Some x ≫= f = f x.
Proof. done. Qed.

(** ** The rotation hook *)

(** Recomputing a node of a tree that is already consistent changes no
    stored maximum. *)
Lemma fix_counts_fixed h ctx l p r :
  rep h None (plug ctx (Node l p r)) → max_fixed h (plug ctx (Node l p r)) →
  ∃ h', interval_tree_fix_counts h (Some p) = Some h' ∧
        rep h' None (plug ctx (Node l p r)) ∧ max_fixed h' (plug ctx (Node l p r)) ∧
        ∀ b, high_of h' b = high_of h b.
Proof.
  intros Hrep Hfixed.
  pose proof (proj1 (rep_plug h ctx _) Hrep) as [(nd & Ha & Hp & Hleft & Hright & Hl & Hr) _].
  pose proof (proj1 (max_fixed_plug h ctx _) Hfixed) as [(Hm & _) _].
  destruct (fix_counts_at h p nd l r Ha Hleft Hright Hl Hr)
    as (nd' & Hfix & Hbase & Hlow & Hhigh & Hmax & _).
  rewrite (high_of_lookup h p nd Ha) in Hm.
  assert (∀ k, agree h (<[p := nd']> h) k) as Hag.
  { intros k b _. rewrite max_of_insert, high_of_insert.
    destruct (decide (p = b)) as [<-|]; [|done].
    by rewrite Hmax, Hhigh, <- Hm, (high_of_lookup h p nd Ha). }
  exists (<[p := nd']> h). split; [done|]. split; [|split].
  - by apply (rep_insert_same_base h p nd nd').
  - by apply (max_fixed_agree h).
  - intros b. by apply (Hag [b]), elem_of_cons; left.
Qed.

(** The last call of the hook, on the parent of the new top. *)
Lemma fix_counts_parent h ctx t :
  rep h None (plug ctx t) → max_fixed h (plug ctx t) →
  ∃ h', interval_tree_fix_counts h (hole_parent ctx) = Some h' ∧
        rep h' None (plug ctx t) ∧ max_fixed h' (plug ctx t) ∧
        ∀ b, high_of h' b = high_of h b.
Proof.
  destruct ctx as [|[a r|l a] ctx]; intros Hrep Hfixed.
  - by exists h.
  - apply (fix_counts_fixed h ctx t a r); done.
  - apply (fix_counts_fixed h ctx l a t); done.
Qed.

Lemma agree_trans h1 h2 h3 l : agree h1 h2 l → agree h2 h3 l → agree h1 h3 l.
Proof.
  intros H12 H23 b Hb. destruct (H12 b Hb) as [? ?], (H23 b Hb) as [? ?].
  split; congruence.
Qed.

Lemma rotate_hook_left h1 ctx A x B y C :
  rep h1 None (plug ctx (Node (Node A x B) y C)) →
  NoDup (inorder (plug ctx (Node (Node A x B) y C))) →
  max_fixed h1 (plug ctx (Node A x (Node B y C))) →
  ∃ h2, interval_tree_augment_rotate h1 (Some x) (Some y) = Some h2 ∧
        rep h2 None (plug ctx (Node (Node A x B) y C)) ∧
        max_fixed h2 (plug ctx (Node (Node A x B) y C)) ∧
        ∀ b, high_of h2 b = high_of h1 b.
Proof.
  intros Hrep Hnd Hold.
  apply max_fixed_plug in Hold as [(Hx & HA & Hy & HB & HC) Hctx]. simpl in Hx, Hy, Hctx.
  pose proof (proj1 (rep_plug h1 ctx _) Hrep) as [Hsub Hrctx].
  pose proof Hsub as (yd & Hyd & Hyp & Hyl & Hyr & Hxsub & HCsub).
  destruct (NoDup_plug_node ctx (Node A x B) y C Hnd) as (Hy1 & Hy2 & Hy3).
  destruct (NoDup_plug_node (InLeft y C :: ctx) A x B Hnd) as (Hx1 & Hx2 & Hx3).
  simpl in Hx3, Hy1.
  assert (x ≠ y) as Hxy.
  { intros ->. apply Hy1. apply elem_of_app. right. by apply elem_of_cons; left. }
  assert (x ∉ inorder C) as HxC.
  { intros Hin. apply Hx3. apply elem_of_app. right. apply elem_of_cons. right.
    apply elem_of_app. by left. }
  assert (y ∉ inorder A) as HyA.
  { intros Hin. apply Hy1. apply elem_of_app. by left. }
  assert (y ∉ inorder B) as HyB.
  { intros Hin. apply Hy1. apply elem_of_app. right. by apply elem_of_cons; right. }
  assert (x ∉ before ctx ++ after ctx) as Hxc.
  { intros Hin. apply Hx3. apply elem_of_app in Hin as [Hin|Hin]; apply elem_of_app;
      [by left|right]. apply elem_of_cons. right. apply elem_of_app. by right. }
  destruct (fix_counts_above h1 A x B _ Hxsub Hx1 Hx2 HA HB)
    as (xd & xd' & Hxd & Hfix1 & Hbase1 & Hhigh1 & Hfixed1).
  set (h2 := <[x := xd']> h1) in *.
  assert (rep h2 (hole_parent ctx) (Node (Node A x B) y C)) as Hsub2
    by by apply (rep_insert_same_base h1 x xd xd').
  destruct (fix_counts_above h2 (Node A x B) y C _ Hsub2 Hy1 Hy2 Hfixed1)
    as (yd2 & yd' & Hyd2 & Hfix2 & Hbase2 & Hhigh2 & Hfixed2).
  { apply (max_fixed_agree h1); [by apply agree_insert_notin|done]. }
  set (h3 := <[y := yd']> h2) in *.
  assert (∀ k, x ∉ k → y ∉ k → agree h1 h3 k) as Hag.
  { intros k Hxk Hyk. apply (agree_trans h1 h2 h3); by apply agree_insert_notin. }
  assert (∀ b, high_of h3 b = high_of h1 b) as Hhigh.
  { intros b. unfold h3, h2. rewrite !high_of_insert.
    destruct (decide (y = b)) as [<-|].
    - rewrite Hhigh2. unfold h2 in Hyd2. rewrite lookup_insert_ne in Hyd2 by done.
      by rewrite (high_of_lookup h1 y yd2 Hyd2).
    - destruct (decide (x = b)) as [<-|]; [|done].
      by rewrite Hhigh1, (high_of_lookup h1 x xd Hxd). }
  assert (max_of h3 y = max_of h1 x) as Htop.
  { pose proof Hfixed2 as (Ey & (Ex & _ & _) & _). simpl in Ey.
    rewrite Ey, Ex, !Hhigh.
    rewrite (agree_root_max h1 h3 A), (agree_root_max h1 h3 B), (agree_root_max h1 h3 C);
      [|apply Hag; assumption..].
    rewrite Hx, Hy, !MAX_is_max. lia. }
  assert (max_fixed h3 (plug ctx (Node (Node A x B) y C))) as Hfixed3.
  { apply max_fixed_plug. split; [done|]. simpl. rewrite Htop.
    apply (ctx_fixed_agree h1); [by apply Hag|done]. }
  assert (rep h3 None (plug ctx (Node (Node A x B) y C))) as Hrep3.
  { apply (rep_insert_same_base h2 y yd2 yd'); [done..|].
    by apply (rep_insert_same_base h1 x xd xd'). }
  destruct (fix_counts_parent h3 ctx _ Hrep3 Hfixed3) as (h4 & Hfix3 & Hrep4 & Hfixed4 & Hhigh4).
  exists h4. split; [|split; [done|split; [done|]]].
  - unfold interval_tree_augment_rotate.
    rewrite Hfix1. rewrite (option_bind_some _ _). fold h2.
    rewrite Hfix2. rewrite (option_bind_some _ _). fold h3.
    rewrite (option_bind_some _ _).
    assert (h3 !! y = Some yd') as -> by (unfold h3; apply lookup_insert_eq).
    rewrite (option_bind_some _ _).
    unfold h2 in Hyd2. rewrite lookup_insert_ne in Hyd2 by done. simplify_eq.
    unfold n_parent in *. by rewrite Hbase2, Hyp.
  - intros b. by rewrite Hhigh4, Hhigh.
Qed.

Lemma rotate_hook_right h1 ctx A y B x C :
  rep h1 None (plug ctx (Node A y (Node B x C))) →
  NoDup (inorder (plug ctx (Node A y (Node B x C)))) →
  max_fixed h1 (plug ctx (Node (Node A y B) x C)) →
  ∃ h2, interval_tree_augment_rotate h1 (Some x) (Some y) = Some h2 ∧
        rep h2 None (plug ctx (Node A y (Node B x C))) ∧
        max_fixed h2 (plug ctx (Node A y (Node B x C))) ∧
        ∀ b, high_of h2 b = high_of h1 b.
Proof.
  intros Hrep Hnd Hold.
  apply max_fixed_plug in Hold as [(Hx & (Hy & HA & HB) & HC) Hctx]. simpl in Hx, Hy, Hctx.
  pose proof (proj1 (rep_plug h1 ctx _) Hrep) as [Hsub Hrctx].
  pose proof Hsub as (yd & Hyd & Hyp & Hyl & Hyr & HAsub & Hxsub).
  destruct (NoDup_plug_node ctx A y (Node B x C) Hnd) as (Hy1 & Hy2 & Hy3).
  destruct (NoDup_plug_node (InRight A y :: ctx) B x C Hnd) as (Hx1 & Hx2 & Hx3).
  simpl in Hx3, Hy2.
  assert (x ≠ y) as Hxy.
  { intros ->. apply Hy2. apply elem_of_app. right. by apply elem_of_cons; left. }
  assert (x ∉ inorder A) as HxA.
  { intros Hin. apply Hx3. apply elem_of_app. left. apply elem_of_app. right.
    apply elem_of_app. by left. }
  assert (y ∉ inorder B) as HyB.
  { intros Hin. apply Hy2. apply elem_of_app. by left. }
  assert (y ∉ inorder C) as HyC.
  { intros Hin. apply Hy2. apply elem_of_app. right. by apply elem_of_cons; right. }
  assert (x ∉ before ctx ++ after ctx) as Hxc.
  { intros Hin. apply Hx3. apply elem_of_app in Hin as [Hin|Hin]; apply elem_of_app;
      [left|by right]. apply elem_of_app. by left. }
  destruct (fix_counts_above h1 B x C _ Hxsub Hx1 Hx2 HB HC)
    as (xd & xd' & Hxd & Hfix1 & Hbase1 & Hhigh1 & Hfixed1).
  set (h2 := <[x := xd']> h1) in *.
  assert (rep h2 (hole_parent ctx) (Node A y (Node B x C))) as Hsub2
    by by apply (rep_insert_same_base h1 x xd xd').
  destruct (fix_counts_above h2 A y (Node B x C) _ Hsub2 Hy1 Hy2)
    as (yd2 & yd' & Hyd2 & Hfix2 & Hbase2 & Hhigh2 & Hfixed2).
  { apply (max_fixed_agree h1); [by apply agree_insert_notin|done]. }
  { done. }
  set (h3 := <[y := yd']> h2) in *.
  assert (∀ k, x ∉ k → y ∉ k → agree h1 h3 k) as Hag.
  { intros k Hxk Hyk. apply (agree_trans h1 h2 h3); by apply agree_insert_notin. }
  assert (∀ b, high_of h3 b = high_of h1 b) as Hhigh.
  { intros b. unfold h3, h2. rewrite !high_of_insert.
    destruct (decide (y = b)) as [<-|].
    - rewrite Hhigh2. unfold h2 in Hyd2. rewrite lookup_insert_ne in Hyd2 by done.
      by rewrite (high_of_lookup h1 y yd2 Hyd2).
    - destruct (decide (x = b)) as [<-|]; [|done].
      by rewrite Hhigh1, (high_of_lookup h1 x xd Hxd). }
  assert (max_of h3 y = max_of h1 x) as Htop.
  { pose proof Hfixed2 as (Ey & _ & (Ex & _ & _)). simpl in Ey.
    rewrite Ey, Ex, !Hhigh.
    rewrite (agree_root_max h1 h3 A), (agree_root_max h1 h3 B), (agree_root_max h1 h3 C);
      [|apply Hag; assumption..].
    rewrite Hx, Hy, !MAX_is_max. lia. }
  assert (max_fixed h3 (plug ctx (Node A y (Node B x C)))) as Hfixed3.
  { apply max_fixed_plug. split; [done|]. simpl. rewrite Htop.
    apply (ctx_fixed_agree h1); [by apply Hag|done]. }
  assert (rep h3 None (plug ctx (Node A y (Node B x C)))) as Hrep3.
  { apply (rep_insert_same_base h2 y yd2 yd'); [done..|].
    by apply (rep_insert_same_base h1 x xd xd'). }
  destruct (fix_counts_parent h3 ctx _ Hrep3 Hfixed3) as (h4 & Hfix3 & Hrep4 & Hfixed4 & Hhigh4).
  exists h4. split; [|split; [done|split; [done|]]].
  - unfold interval_tree_augment_rotate.
    rewrite Hfix1. rewrite (option_bind_some _ _). fold h2.
    rewrite Hfix2. rewrite (option_bind_some _ _). fold h3.
    rewrite (option_bind_some _ _).
    assert (h3 !! y = Some yd') as -> by (unfold h3; apply lookup_insert_eq).
    rewrite (option_bind_some _ _).
    unfold h2 in Hyd2. rewrite lookup_insert_ne in Hyd2 by done. simplify_eq.
    unfold n_parent in *. by rewrite Hbase2, Hyp.
  - intros b. by rewrite Hhigh4, Hhigh.
Qed.

(** ** Rotations keep the in-order sequence *)

Lemma sublist_plug ctx t t' :
  inorder t `sublist_of` inorder t' →
  inorder (plug ctx t) `sublist_of` inorder (plug ctx t').
Proof.
  intros Hsub. rewrite !inorder_plug.
  apply sublist_app; [done|]. by apply sublist_app.
Qed.

Lemma inorder_rotation T oldn newn T1 : rotation T oldn newn T1 → inorder T1 = inorder T.
Proof.
  intros [ctx A x B y C|ctx A y B x C]; rewrite !inorder_plug; simpl;
    by repeat (rewrite <- app_assoc; simpl).
Qed.

Lemma all_siblings_app P c1 c2 :
  all_siblings P (c1 ++ c2) ↔ all_siblings P c1 ∧ all_siblings P c2.
Proof.
  induction c1 as [|[a r|l a] c1 IH]; simpl; [tauto| |]; rewrite IH; tauto.
Qed.

(** ** What a consistent stored maximum amounts to *)

Lemma foldr_max_base (l : list Z) m :
  0 <= m → foldr Z.max m l = Z.max m (foldr Z.max 0 l).
Proof. intros Hm. induction l as [|x l IH]; simpl; lia. Qed.

Lemma foldr_max_nonneg (l : list Z) : 0 <= foldr Z.max 0 l.
Proof. induction l as [|x l IH]; simpl; lia. Qed.

Lemma foldr_max_app_cons (l1 l2 : list Z) x :
  foldr Z.max 0 (l1 ++ x :: l2) = Z.max (Z.max x (foldr Z.max 0 l1)) (foldr Z.max 0 l2).
Proof.
  rewrite foldr_app. cbn [foldr].
  pose proof (foldr_max_nonneg l2) as Hr.
  rewrite (foldr_max_base l1 (Z.max x (foldr Z.max 0 l2))) by lia. lia.
Qed.

Lemma max_high0_node h l a r :
  max_high0 h (Node l a r) = Z.max (Z.max (high_of h a) (max_high0 h l)) (max_high0 h r).
Proof.
  unfold max_high0. cbn [inorder]. rewrite fmap_app, fmap_cons.
  apply foldr_max_app_cons.
Qed.

Lemma max_fixed_root h t : max_fixed h t → root_max h t = max_high0 h t.
Proof.
  induction t as [|l IHl a r IHr]; [done|].
  intros (Hm & Hl & Hr). simpl.
  by rewrite max_high0_node, Hm, (IHl Hl), (IHr Hr), !MAX_is_max.
Qed.

Lemma max_high0_bound h t x : x ∈ inorder t → high_of h x <= max_high0 h t.
Proof.
  unfold max_high0. induction (inorder t) as [|y l IH]; intros Hx.
  - by apply elem_of_nil in Hx.
  - rewrite fmap_cons. cbn [foldr].
    apply elem_of_cons in Hx as [->|Hx]; [lia|]. specialize (IH Hx). lia.
Qed.

Lemma max_high0_attained h t :
  max_high0 h t = 0 ∨ ∃ x, x ∈ inorder t ∧ high_of h x = max_high0 h t.
Proof.
  unfold max_high0. induction (inorder t) as [|y l IH]; [by left|].
  rewrite fmap_cons. cbn [foldr].
  destruct (Z.max_spec (high_of h y) (foldr Z.max 0 (high_of h <$> l))) as [[_ ->]|[_ ->]].
  - destruct IH as [IH|(x & Hx & IH)]; [by left|right].
    exists x. split; [by apply elem_of_cons; right|done].
  - right. exists y. split; [by apply elem_of_cons; left|done].
Qed.

(** ** The example states *)

Example asc_heap7_linked_heights :
  (height_of asc_heap7_linked <$> [1; 2; 3; 4; 5; 6; 7]%positive) = [1; 5; 1; 4; 3; 2; 1].
Proof. by vm_compute. Qed.

Example asc_heap7_heights :
  (height_of asc_heap7 <$> [1; 2; 3; 4; 5; 6; 7]%positive) = [1; 5; 1; 3; 1; 2; 1].
Proof. by vm_compute. Qed.

Example asc_heap7_sizes :
  (size_of asc_heap7 <$> [1; 2; 3; 4; 5; 6; 7]%positive) = [1; 7; 1; 5; 1; 3; 1].
Proof. by vm_compute. Qed.

Example asc_heap7_maxes :
  (max_of asc_heap7 <$> [1; 2; 3; 4; 5; 6; 7]%positive) = [1; 7; 3; 7; 5; 7; 7].
Proof. by vm_compute. Qed.

Example neg_heap_fields :
  (low_of neg_heap 1%positive, high_of neg_heap 1%positive, max_of neg_heap 1%positive,
   size_of neg_heap 1%positive, height_of neg_heap 1%positive) = (-5, -3, 0, 1, 1).
Proof. by vm_compute. Qed.

Lemma rep_check_sound h t : ∀ par, rep_check h par t = true → rep h par t.
Proof.
  induction t as [|l IHl a r IHr]; intros par; simpl; [done|].
  destruct (h !! a) as [nd|]; [|done].
  rewrite !andb_true_iff, !bool_decide_eq_true.
  intros ((((? & ?) & ?) & ?) & ?). exists nd. auto 10.
Qed.

(** Before the rotation at 5 all three aggregates are consistent at every
    node. *)
Lemma asc_consistent6 : all_consistent asc_heap6 asc_shape6.
Proof. by vm_compute. Qed.

Lemma asc_consistent7_linked : all_consistent asc_heap7_linked asc_shape7_linked.
Proof. by vm_compute. Qed.

(** ** The hook equation and the hypotheses of the searches *)

(** For non-negative high endpoints the maximum the hooks store is the
    maximum over the children that are present. *)
Lemma max_fixed_consistent h T :
  max_fixed h T → (∀ x, x ∈ inorder T → 0 <= high_of h x) → max_consistent h T.
Proof.
  induction T as [|l IHl a r IHr]; [done|]. simpl.
  intros (Hm & Hl & Hr) Hpos.
  assert (0 <= high_of h a) as Ha.
  { apply Hpos. apply elem_of_app. right. by apply elem_of_cons; left. }
  split; [|split].
  - rewrite Hm, !MAX_is_max.
    pose proof (max_with_ge h l (high_of h a)) as Hge.
    destruct l as [|ll la lr], r as [|rl ra rr]; simpl in *; lia.
  - apply IHl; [done|]. intros x Hx. apply Hpos. apply elem_of_app. by left.
  - apply IHr; [done|]. intros x Hx. apply Hpos. apply elem_of_app. right.
    by apply elem_of_cons; right.
Qed.

(** ** The comparator where the differences fit *)

Lemma cmp_sign_in_range lhs rhs :
  - 2 ^ 31 <= n_low lhs - n_low rhs < 2 ^ 31 →
  - 2 ^ 31 <= n_high lhs - n_high rhs < 2 ^ 31 →
  (interval_tree_cmp lhs rhs < 0 ↔
     n_low lhs < n_low rhs ∨ (n_low lhs = n_low rhs ∧ n_high lhs < n_high rhs)) ∧
  (interval_tree_cmp lhs rhs = 0 ↔ n_low lhs = n_low rhs ∧ n_high lhs = n_high rhs) ∧
  (0 < interval_tree_cmp lhs rhs ↔
     n_low rhs < n_low lhs ∨ (n_low lhs = n_low rhs ∧ n_high rhs < n_high lhs)).
Proof.
  intros Hlow Hhigh. unfold interval_tree_cmp.
  rewrite (to_int_small _ Hlow), (to_int_small _ Hhigh).
  destruct (Z.eqb_spec (n_low lhs - n_low rhs) 0); lia.
Qed.

(** ** Size and height under the propagate hook *)

Lemma all_consistent_split h t : all_consistent h t ↔ max_fixed h t ∧ counts_fixed h t.
Proof.
  induction t as [|l IHl a r IHr]; simpl; [tauto|].
  unfold node_consistent. rewrite IHl, IHr. tauto.
Qed.

Lemma size_of_insert h a nd b :
  size_of (<[a := nd]> h) b = if decide (a = b) then n_size nd else size_of h b.
Proof.
  unfold size_of. destruct (decide (a = b)) as [->|Hne].
  - by rewrite lookup_total_insert_eq.
  - by rewrite lookup_total_insert_ne.
Qed.

Lemma height_of_insert h a nd b :
  height_of (<[a := nd]> h) b = if decide (a = b) then n_height nd else height_of h b.
Proof.
  unfold height_of. destruct (decide (a = b)) as [->|Hne].
  - by rewrite lookup_total_insert_eq.
  - by rewrite lookup_total_insert_ne.
Qed.

Lemma agree_counts_sub h h' l k :
  agree_counts h h' l → (∀ b, b ∈ k → b ∈ l) → agree_counts h h' k.
Proof. intros Hag Hsub b Hb. apply Hag. by apply Hsub. Qed.

Lemma agree_counts_insert_notin h a nd l : a ∉ l → agree_counts h (<[a := nd]> h) l.
Proof.
  intros Ha b Hb. rewrite size_of_insert, height_of_insert.
  destruct (decide (a = b)) as [->|]; done.
Qed.

Lemma agree_counts_root h h' t :
  agree_counts h h' (inorder t) →
  root_size h' t = root_size h t ∧ root_height h' t = root_height h t.
Proof.
  destruct t as [|l a r]; [done|]. intros Hag. simpl.
  apply Hag. simpl. apply elem_of_app. right. by apply elem_of_cons; left.
Qed.

Lemma counts_fixed_agree h h' t :
  agree_counts h h' (inorder t) → counts_fixed h t → counts_fixed h' t.
Proof.
  induction t as [|l IHl a r IHr]; [done|]. simpl.
  intros Hag (Hs & Hh & Hl & Hr).
  assert (agree_counts h h' (inorder l)) as Hagl.
  { apply (agree_counts_sub _ _ _ _ Hag). intros b Hb. apply elem_of_app. by left. }
  assert (agree_counts h h' (inorder r)) as Hagr.
  { apply (agree_counts_sub _ _ _ _ Hag). intros b Hb. apply elem_of_app. right.
    by apply elem_of_cons; right. }
  destruct (Hag a) as [Hsa Hha].
  { apply elem_of_app. right. by apply elem_of_cons; left. }
  destruct (agree_counts_root h h' l Hagl) as [-> ->].
  destruct (agree_counts_root h h' r Hagr) as [-> ->].
  rewrite Hsa, Hha. auto.
Qed.

Lemma all_siblings_agree_counts h h' ctx :
  agree_counts h h' (before ctx ++ after ctx) →
  all_siblings (counts_fixed h) ctx → all_siblings (counts_fixed h') ctx.
Proof.
  induction ctx as [|[a r|l a] ctx IH]; simpl; [done| |].
  - intros Hag [Hr Hs]. split.
    + apply (counts_fixed_agree h h' r); [|done].
      apply (agree_counts_sub _ _ _ _ Hag). intros b Hb.
      apply elem_of_app. right. apply elem_of_cons. right. apply elem_of_app. by left.
    + apply IH; [|done]. apply (agree_counts_sub _ _ _ _ Hag). intros b Hb.
      apply elem_of_app in Hb as [Hb|Hb]; apply elem_of_app; [by left|right].
      apply elem_of_cons. right. apply elem_of_app. by right.
  - intros Hag [Hl Hs]. split.
    + apply (counts_fixed_agree h h' l); [|done].
      apply (agree_counts_sub _ _ _ _ Hag). intros b Hb.
      apply elem_of_app. left. apply elem_of_app. right. apply elem_of_app. by left.
    + apply IH; [|done]. apply (agree_counts_sub _ _ _ _ Hag). intros b Hb.
      apply elem_of_app in Hb as [Hb|Hb]; apply elem_of_app; [left|by right].
      apply elem_of_app. by left.
Qed.

(** Consistent counts are the true ones: the number of nodes and the number
    of levels of the subtree. *)
Lemma counts_fixed_exact h t :
  counts_fixed h t →
  root_size h t = Z.of_nat (length (inorder t)) ∧
  root_height h t = Z.of_nat (theight t).
Proof.
  induction t as [|l IHl a r IHr]; [done|]. simpl.
  intros (Hs & Hh & Hl & Hr).
  destruct (IHl Hl) as [Hsl Hhl], (IHr Hr) as [Hsr Hhr].
  rewrite Hs, Hh, Hsl, Hsr, Hhl, Hhr, MAX_is_max, length_app. simpl. lia.
Qed.

Lemma theight_le_length t : (theight t ≤ length (inorder t))%nat.
Proof.
  induction t as [|l IHl a r IHr]; simpl; [lia|].
  rewrite length_app. simpl. lia.
Qed.

Lemma length_inorder_plug ctx t :
  (length (inorder t) ≤ length (inorder (plug ctx t)))%nat.
Proof. rewrite inorder_plug, !length_app. lia. Qed.

Lemma fix_counts_above_counts h l a r par :
  rep h par (Node l a r) → a ∉ inorder l → a ∉ inorder r →
  counts_fixed h l → counts_fixed h r →
  Z.of_nat (length (inorder (Node l a r))) < 2 ^ 31 →
  ∃ nd nd', h !! a = Some nd ∧
    interval_tree_fix_counts h (Some a) = Some (<[a := nd']> h) ∧
    base nd' = base nd ∧
    counts_fixed (<[a := nd']> h) (Node l a r).
Proof.
  intros (nd & Ha & Hp & Hleft & Hright & Hl & Hr) Hal Har Hcl Hcr Hlen.
  destruct (fix_counts_at h a nd l r Ha Hleft Hright Hl Hr)
    as (nd' & Hfix & Hbase & _ & _ & _ & Hsize & Hheight).
  destruct (counts_fixed_exact h l Hcl) as [Hsl Hhl].
  destruct (counts_fixed_exact h r Hcr) as [Hsr Hhr].
  pose proof (theight_le_length l). pose proof (theight_le_length r).
  simpl in Hlen. rewrite length_app in Hlen. simpl in Hlen.
  exists nd, nd'. repeat split; try done.
  - simpl. rewrite size_of_insert, decide_True by done.
    destruct (agree_counts_root h _ l (agree_counts_insert_notin h a nd' _ Hal)) as [-> _].
    destruct (agree_counts_root h _ r (agree_counts_insert_notin h a nd' _ Har)) as [-> _].
    rewrite Hsize. unfold int_add.
    rewrite (to_int_small (1 + root_size h l)) by lia. apply to_int_small. lia.
  - simpl. rewrite height_of_insert, decide_True by done.
    destruct (agree_counts_root h _ l (agree_counts_insert_notin h a nd' _ Hal)) as [_ ->].
    destruct (agree_counts_root h _ r (agree_counts_insert_notin h a nd' _ Har)) as [_ ->].
    rewrite Hheight. unfold int_add. apply to_int_small.
    rewrite MAX_is_max. lia.
  - apply (counts_fixed_agree h); [by apply agree_counts_insert_notin|done].
  - apply (counts_fixed_agree h); [by apply agree_counts_insert_notin|done].
Qed.

(** The walk of the propagate hook also leaves [size] and [height]
    consistent in the whole tree, as long as the node count fits an [int]. *)
Lemma propagate_path_counts ctx :
  ∀ t h fuel,
    rep h None (plug ctx t) → NoDup (inorder (plug ctx t)) →
    counts_fixed h t → all_siblings (counts_fixed h) ctx → (length ctx ≤ fuel)%nat →
    Z.of_nat (length (inorder (plug ctx t))) < 2 ^ 31 →
    ∃ h2, interval_tree_augment_propagate fuel h (hole_parent ctx) = Some h2 ∧
          counts_fixed h2 (plug ctx t).
Proof.
  induction ctx as [|[a r|l a] ctx IH]; intros t h fuel Hrep Hnd Hct Hsib Hfuel Hlen.
  - exists h. by destruct fuel.
  - destruct fuel as [|fuel]; [simpl in Hfuel; lia|]. simpl in Hfuel, Hsib, Hrep, Hnd, Hlen.
    destruct Hsib as [Hcr Hsib].
    pose proof (proj1 (rep_plug h ctx _) Hrep) as [Hsub Hctx].
    destruct (NoDup_plug_node ctx t a r Hnd) as (Hat & Har & Hac).
    pose proof (length_inorder_plug ctx (Node t a r)) as Hle.
    destruct (fix_counts_above_counts h t a r _ Hsub Hat Har Hct Hcr ltac:(lia))
      as (nd & nd' & Ha & Hfix & Hbase & Hfixed).
    destruct (IH (Node t a r) (<[a := nd']> h) fuel) as (h2 & Hprop & Hc2); try done.
    + by apply (rep_insert_same_base h a nd nd').
    + apply (all_siblings_agree_counts h); [by apply agree_counts_insert_notin|done].
    + lia.
    + exists h2. split; [|done].
      change (hole_parent (InLeft a r :: ctx)) with (Some a).
      simpl. simpl in Hfix. rewrite Hfix. simpl. rewrite lookup_insert_eq. simpl.
      destruct Hsub as (nd0 & Ha0 & Hp0 & _). simplify_eq.
      unfold n_parent in *. by rewrite Hbase, Hp0.
  - destruct fuel as [|fuel]; [simpl in Hfuel; lia|]. simpl in Hfuel, Hsib, Hrep, Hnd, Hlen.
    destruct Hsib as [Hcl Hsib].
    pose proof (proj1 (rep_plug h ctx _) Hrep) as [Hsub Hctx].
    destruct (NoDup_plug_node ctx l a t Hnd) as (Hal & Hat & Hac).
    pose proof (length_inorder_plug ctx (Node l a t)) as Hle.
    destruct (fix_counts_above_counts h l a t _ Hsub Hal Hat Hcl Hct ltac:(lia))
      as (nd & nd' & Ha & Hfix & Hbase & Hfixed).
    destruct (IH (Node l a t) (<[a := nd']> h) fuel) as (h2 & Hprop & Hc2); try done.
    + by apply (rep_insert_same_base h a nd nd').
    + apply (all_siblings_agree_counts h); [by apply agree_counts_insert_notin|done].
    + lia.
    + exists h2. split; [|done].
      change (hole_parent (InRight l a :: ctx)) with (Some a).
      simpl. simpl in Hfix. rewrite Hfix. simpl. rewrite lookup_insert_eq. simpl.
      destruct Hsub as (nd0 & Ha0 & Hp0 & _). simplify_eq.
      unfold n_parent in *. by rewrite Hbase, Hp0.
Qed.

Lemma counts_fixed_plug h ctx :
  ∀ t, counts_fixed h (plug ctx t) →
       counts_fixed h t ∧ all_siblings (counts_fixed h) ctx.
Proof.
  induction ctx as [|[a r|l a] ctx IH]; intros t Hc; simpl in *; [done| |].
  - destruct (IH _ Hc) as ((_ & _ & ? & ?) & ?). done.
  - destruct (IH _ Hc) as ((_ & _ & ? & ?) & ?). done.
Qed.

(** ** Further facts about the comparator *)

Lemma to_int_zero z : to_int z = 0 ↔ z mod 2 ^ 32 = 0.
Proof. unfold to_int. Z.to_euclidean_division_equations. lia. Qed.

(** ** Frame of the hooks on arbitrary heaps *)

(** What the hooks never write: the links and the interval of a node. *)
Lemma fix_counts_inv h a h' :
  interval_tree_fix_counts h (Some a) = Some h' →
  ∃ nd nd', h !! a = Some nd ∧ h' = <[a := nd']> h ∧
            base nd' = base nd ∧ n_low nd' = n_low nd ∧ n_high nd' = n_high nd.
Proof.
  simpl. intros Hfix.
  destruct (h !! a) as [nd|] eqn:Ha; simpl in Hfix; [|done].
  destruct (interval_tree_node_size h (n_left nd)); simpl in Hfix; [|done].
  destruct (interval_tree_node_size h (n_right nd)); simpl in Hfix; [|done].
  destruct (interval_tree_node_height h (n_left nd)); simpl in Hfix; [|done].
  destruct (interval_tree_node_height h (n_right nd)); simpl in Hfix; [|done].
  destruct (interval_tree_node_max h (n_left nd)); simpl in Hfix; [|done].
  destruct (interval_tree_node_max h (n_right nd)); simpl in Hfix; [|done].
  injection Hfix as <-. eexists nd, _. split; [done|]. split; [reflexivity|]. done.
Qed.

Lemma fix_counts_keeps h n h' b :
  interval_tree_fix_counts h n = Some h' →
  base <$> h' !! b = base <$> h !! b ∧
  n_low <$> h' !! b = n_low <$> h !! b ∧
  n_high <$> h' !! b = n_high <$> h !! b.
Proof.
  destruct n as [a|]; [|by intros [= ->]].
  intros Hfix.
  destruct (fix_counts_inv h a h' Hfix) as (nd & nd' & Ha & -> & Hbase & Hlow & Hhigh).
  destruct (decide (a = b)) as [->|Hne].
  - rewrite lookup_insert_eq, Ha. simpl. by rewrite Hbase, Hlow, Hhigh.
  - by rewrite lookup_insert_ne.
Qed.

Lemma propagate_keeps fuel :
  ∀ h n h2 b,
    interval_tree_augment_propagate fuel h n = Some h2 →
    base <$> h2 !! b = base <$> h !! b ∧
    n_low <$> h2 !! b = n_low <$> h !! b ∧
    n_high <$> h2 !! b = n_high <$> h !! b.
Proof.
  induction fuel as [|fuel IH]; intros h [a|] h2 b Hprop;
    try (simpl in Hprop; by simplify_eq).
  cbn [interval_tree_augment_propagate] in Hprop.
  destruct (interval_tree_fix_counts h (Some a)) as [h1|] eqn:Hfix; [|done].
  rewrite (option_bind_some _ _) in Hprop.
  destruct (h1 !! a) as [nd|]; [|done]. rewrite (option_bind_some _ _) in Hprop.
  destruct (IH _ _ _ b Hprop) as (-> & -> & ->).
  by apply (fix_counts_keeps h (Some a)).
Qed.

Lemma rotate_keeps h oldn newn h2 b :
  interval_tree_augment_rotate h oldn newn = Some h2 →
  base <$> h2 !! b = base <$> h !! b ∧
  n_low <$> h2 !! b = n_low <$> h !! b ∧
  n_high <$> h2 !! b = n_high <$> h !! b.
Proof.
  unfold interval_tree_augment_rotate. intros Hrot.
  destruct (interval_tree_fix_counts h oldn) as [h1|] eqn:Hfix1; [|done].
  rewrite (option_bind_some _ _) in Hrot.
  destruct (interval_tree_fix_counts h1 newn) as [h2'|] eqn:Hfix2; [|done].
  rewrite (option_bind_some _ _) in Hrot.
  destruct newn as [y|]; [|done]. rewrite (option_bind_some _ _) in Hrot.
  destruct (h2' !! y) as [nd|]; [|done]. rewrite (option_bind_some _ _) in Hrot.
  destruct (fix_counts_keeps _ _ _ b Hrot) as (-> & -> & ->).
  destruct (fix_counts_keeps _ _ _ b Hfix2) as (-> & -> & ->).
  by apply (fix_counts_keeps h oldn).
Qed.

Lemma all_siblings_weaken (P Q : tree → Prop) ctx :
  (∀ t, P t → Q t) → all_siblings P ctx → all_siblings Q ctx.
Proof.
  intros HPQ. induction ctx as [|[a r|l a] ctx IH]; simpl; [done| |];
    intros [? ?]; auto.
Qed.

(** The walk of the propagate hook rewrites only the nodes of the path. *)
Lemma propagate_off_path ctx :
  ∀ t h fuel h2 b,
    rep h None (plug ctx t) →
    interval_tree_augment_propagate fuel h (hole_parent ctx) = Some h2 →
    b ∉ frame_addr <$> ctx → h2 !! b = h !! b.
Proof.
  induction ctx as [|f ctx IH]; intros t h fuel h2 b Hrep Hprop Hb.
  - destruct fuel; simpl in Hprop; by simplify_eq.
  - destruct fuel as [|fuel]; [done|].
    change (hole_parent (f :: ctx)) with (Some (frame_addr f)) in Hprop.
    cbn [interval_tree_augment_propagate] in Hprop.
    destruct (interval_tree_fix_counts h (Some (frame_addr f))) as [h1|] eqn:Hfix; [|done].
    rewrite (option_bind_some _ _) in Hprop.
    destruct (fix_counts_inv h _ h1 Hfix) as (nd & nd' & Ha & -> & Hbase & _).
    rewrite lookup_insert_eq, (option_bind_some _ _) in Hprop.
    rewrite fmap_cons in Hb. apply not_elem_of_cons in Hb as [Hne Hb].
    assert (n_parent nd' = hole_parent ctx ∧
            ∃ t', rep (<[frame_addr f := nd']> h) None (plug ctx t')) as [Hp [t' Hrep']].
    { destruct f as [a r|l a]; simpl in *.
      - pose proof (proj1 (rep_plug h ctx _) Hrep) as [(nd0 & Ha0 & Hp0 & _) _].
        simplify_eq. unfold n_parent. rewrite Hbase. split; [done|].
        exists (Node t a r). by eapply rep_insert_same_base.
      - pose proof (proj1 (rep_plug h ctx _) Hrep) as [(nd0 & Ha0 & Hp0 & _) _].
        simplify_eq. unfold n_parent. rewrite Hbase. split; [done|].
        exists (Node l a t). by eapply rep_insert_same_base. }
    rewrite Hp in Hprop.
    rewrite (IH t' _ fuel h2 b Hrep' Hprop Hb). by rewrite lookup_insert_ne.
Qed.

(** ** The searches on arbitrary heaps *)

Lemma intersects_overlap nd lo hi :
  interval_tree_intersects nd lo hi = true ↔ overlap (n_low nd) (n_high nd) lo hi.
Proof.
  unfold interval_tree_intersects, overlap.
  rewrite andb_true_iff, !Z.geb_le. lia.
Qed.

Lemma find_loop_sound h lo hi fuel :
  ∀ n a, find_loop fuel h n lo hi = Some (Some a) →
         ∃ nd, h !! a = Some nd ∧ interval_tree_intersects nd lo hi = true.
Proof.
  induction fuel as [|fuel IH]; intros [b|] a Hres; try (simpl in Hres; done).
  simpl in Hres. destruct (h !! b) as [nd|] eqn:Hb; simpl in Hres; [|done].
  destruct (interval_tree_intersects nd lo hi) eqn:Hi.
  - injection Hres as <-. by exists nd.
  - destruct (match n_left nd with
              | Some la => h !! la ≫= λ lnd, Some (n_max lnd <? lo)
              | None => Some true
              end) as [[|]|]; simpl in Hres; [| |done]; by apply (IH _ _ Hres).
Qed.




(** ** The iterator on well-formed links alone *)

Lemma scan_node_elem h lo hi l a r m :
  m ∈ scan h lo hi (Node l a r) ↔
  m ∈ scan h lo hi l ∨ (m = a ∧ hits h lo hi a) ∨ m ∈ scan h lo hi r.
Proof.
  rewrite !scan_elem. cbn [inorder]. rewrite elem_of_app, elem_of_cons.
  split.
  - intros [Hh [?|[->|?]]]; auto.
  - intros [[? ?]|[[-> ?]|[? ?]]]; auto.
Qed.

Lemma min_interval_loop_member h lo hi t :
  ∀ par fuel acc,
    rep h par t → (theight t ≤ fuel)%nat →
    ∃ res, min_interval_loop fuel h (root_ptr t) lo hi acc = Some res ∧
           (res = acc ∨ ∃ m, res = Some m ∧ m ∈ scan h lo hi t).
Proof.
  induction t as [|l IHl a r IHr]; intros par fuel acc Hrep Hfuel.
  - exists acc. split; [by destruct fuel|by left].
  - destruct fuel as [|fuel]; [simpl in Hfuel; lia|].
    simpl in Hfuel.
    destruct Hrep as (nd & Ha & Hp & Hleft & Hright & Hrl & Hrr).
    simpl. rewrite Ha. simpl.
    rewrite Hleft, (left_test_shape h a l lo Hrl), Hright. simpl.
    rewrite (intersects_hits h a nd lo hi Ha).
    destruct (left_excluded h l lo).
    + destruct (decide (hits h lo hi a)) as [Hh|Hh].
      * rewrite bool_decide_eq_true_2 by done. exists (Some a). split; [done|].
        right. exists a. split; [done|]. apply scan_node_elem. auto.
      * rewrite bool_decide_eq_false_2 by done.
        destruct (IHr (Some a) fuel acc Hrr ltac:(lia)) as (res & -> & Hres).
        exists res. split; [done|]. destruct Hres as [?|(m & ? & ?)]; [by left|right].
        exists m. split; [done|]. apply scan_node_elem. auto.
    + destruct (IHl (Some a) fuel (if bool_decide (hits h lo hi a) then Some a else acc)
                  Hrl ltac:(lia)) as (res & -> & Hres).
      exists res. split; [done|]. destruct Hres as [->|(m & ? & ?)].
      * destruct (decide (hits h lo hi a)) as [Hh|Hh].
        -- rewrite bool_decide_eq_true_2 by done. right. exists a. split; [done|].
           apply scan_node_elem. auto.
        -- rewrite bool_decide_eq_false_2 by done. by left.
      * right. exists m. split; [done|]. apply scan_node_elem. auto.
Qed.

Lemma next_interval_member h lo hi H n :
  ∀ ctx, (length ctx ≤ n)%nat →
  ∀ a r nd fuel,
    h !! a = Some nd → n_parent nd = hole_parent ctx → n_right nd = root_ptr r →
    rep h (Some a) r → rep_ctx h ctx (Some a) → distinct_edges ctx a →
    (theight r ≤ H)%nat → siblings (λ s, (theight s ≤ H)%nat) ctx →
    (H + length ctx < fuel)%nat →
    ∃ res, interval_tree_next_interval fuel h (Some a) lo hi = Some res ∧
           ∀ m, res = Some m → hits h lo hi m ∧ m ∈ inorder r ++ after ctx.
Proof.
  induction n as [|n IH]; intros ctx Hlen a r nd fuel Ha Hp Hright Hrep Hctx Hd
    Hh Hsh Hfuel.
  all: destruct fuel as [|fuel]; [lia|].
  all: simpl; rewrite Ha; simpl; rewrite Hright.
  all: destruct (min_interval_loop_member h lo hi r (Some a) fuel None Hrep ltac:(lia))
         as (min & Hmin & Hminspec).
  all: assert (match root_ptr r with
               | Some _ => interval_tree_min_interval fuel h (root_ptr r) lo hi
               | None => Some None
               end = Some min) as ->;
    [destruct r; [simpl in Hmin; destruct fuel; simpl in Hmin; by simplify_eq|exact Hmin]|].
  all: simpl.
  all: destruct min as [m|];
    [exists (Some m); split; [done|]; intros ? [= <-];
     destruct Hminspec as [?|(m' & [= <-] & Hm)]; [done|];
     apply scan_elem in Hm as [? ?]; split; [done|apply elem_of_app; by left]|].
  all: rewrite Hp, (climb_loop_up h ctx a fuel) by (done || lia); simpl.
  all: rewrite <- (after_up ctx).
  all: pose proof (up_length ctx) as Hul.
  all: pose proof (rep_ctx_up h ctx _ Hctx) as (p' & Hup).
  all: pose proof (distinct_edges_up ctx a Hd) as Hdu.
  all: pose proof (siblings_up _ ctx Hsh) as Hshu.
  all: destruct (up_shape ctx) as [Hu|(pa & rs & ctx' & Hu)]; rewrite Hu in *;
    [by exists None|].
  all: destruct Hup as (pnd & Hpa & Hpp & Hpl & Hpr & Hprep & Hpctx).
  all: simpl; rewrite Hpa; simpl.
  all: rewrite (intersects_hits h pa pnd lo hi Hpa).
  all: destruct (decide (hits h lo hi pa)) as [Hh'|Hh'];
    [rewrite bool_decide_eq_true_2 by done; exists (Some pa); split; [done|];
     intros ? [= <-]; split; [done|]; apply elem_of_app; right; by apply elem_of_cons; left
    |rewrite bool_decide_eq_false_2 by done].
  - simpl in Hul. destruct ctx; simpl in *; lia.
  - destruct Hshu as [? ?]. simpl in Hul.
    destruct (IH ctx' ltac:(lia) pa rs pnd fuel) as (res & Hres & Hspec); try done; [lia|].
    exists res. split; [done|]. intros m Hm. destruct (Hspec m Hm) as [? ?].
    split; [done|]. apply elem_of_app. right. by apply elem_of_cons; right.
Qed.

Lemma next_interval_member_position h lo hi ctx l a r fuel :
  rep h None (plug ctx (Node l a r)) →
  NoDup (inorder (plug ctx (Node l a r))) →
  (2 * theight (plug ctx (Node l a r)) ≤ fuel)%nat →
  ∃ res, interval_tree_next_interval fuel h (Some a) lo hi = Some res ∧
         ∀ m, res = Some m → hits h lo hi m ∧ m ∈ inorder r ++ after ctx.
Proof.
  intros Hrep Hnd Hfuel.
  apply rep_plug in Hrep as [(nd & Ha & Hp & Hleft & Hright & Hl & Hr) Hctx].
  destruct (theight_plug ctx (Node l a r)) as [Hh Hsh]. simpl in Hh.
  apply (next_interval_member h lo hi (theight (plug ctx (Node l a r))) (length ctx) ctx
           ltac:(lia) a r nd fuel); try done.
  - by apply (NoDup_distinct_edges ctx (Node l a r)).
  - lia.
  - lia.
Qed.

Lemma iter_collect_ordered h lo hi T fuel :
  rep h None T → NoDup (inorder T) → (2 * theight T ≤ fuel)%nat →
  ∀ steps b pre post,
    inorder T = pre ++ b :: post → (length post < steps)%nat →
    ∃ out,
      iter_collect steps fuel h {| it_low := lo; it_high := hi; it_n := Some b |} (Some b)
      = Some (b :: out) ∧
      out `sublist_of` filter (hits h lo hi) post.
Proof.
  intros Hrep Hnd Hfuel.
  induction steps as [|steps IH]; intros b pre post Hin Hlen; [lia|].
  assert (b ∈ inorder T) as Hb.
  { rewrite Hin. apply elem_of_app. right. by apply elem_of_cons; left. }
  destruct (position_exists T b Hb) as (ctx & l & r & HT).
  assert (post = inorder r ++ after ctx) as Hpost.
  { symmetry. apply (NoDup_split_unique b (before ctx ++ inorder l) _ pre post).
    - rewrite HT, inorder_plug in Hnd. simpl in Hnd. by rewrite <- !app_assoc in Hnd |- *.
    - rewrite <- Hin, HT, inorder_plug. simpl. by rewrite <- !app_assoc. }
  destruct (next_interval_member_position h lo hi ctx l b r fuel)
    as (res & Hres & Hspec); [by rewrite <- HT..|].
  simpl. unfold interval_tree_iter_next. simpl. rewrite Hres. simpl.
  destruct res as [c|]; [|exists []; split; [by destruct steps|apply sublist_nil_l]].
  destruct (Hspec c eq_refl) as [Hc Hcin]. rewrite <- Hpost in Hcin.
  apply list_elem_of_split in Hcin as (p1 & p2 & ->).
  destruct (IH c (pre ++ b :: p1) p2) as (out & -> & Hout).
  - rewrite Hin. by rewrite <- app_assoc.
  - rewrite length_app in Hlen. simpl in Hlen. lia.
  - exists (c :: out). split; [done|].
    rewrite filter_app, filter_cons_True by done.
    apply sublist_inserts_l. by apply sublist_skip.
Qed.

Lemma iterate_ordered h t T lo hi steps fuel :
  wf_tree h t T →
  (2 * theight T ≤ fuel)%nat → (length (inorder T) ≤ steps)%nat →
  ∃ out, iterate steps fuel h t lo hi = Some out ∧ out `sublist_of` scan h lo hi T.
Proof.
  intros (Hroot & Hrep & Hnd) Hfuel Hsteps.
  unfold iterate, interval_tree_iter_first, interval_tree_min_interval.
  rewrite Hroot.
  destruct (min_interval_loop_member h lo hi T None fuel None Hrep ltac:(lia))
    as (res & -> & Hres).
  simpl. destruct res as [b|]; [|exists []; split; [by destruct steps|apply sublist_nil_l]].
  destruct Hres as [?|(m & [= <-] & Hm)]; [done|].
  apply scan_elem in Hm as [Hhit Hin].
  apply list_elem_of_split in Hin as (p1 & p2 & Hin).
  destruct (iter_collect_ordered h lo hi T fuel Hrep Hnd Hfuel steps b p1 p2 Hin)
    as (out & -> & Hout).
  - rewrite Hin, length_app in Hsteps. simpl in Hsteps. lia.
  - exists (b :: out). split; [done|].
    unfold scan. rewrite Hin, filter_app, filter_cons_True by done.
    apply sublist_inserts_l. by apply sublist_skip.
Qed.

(** ** The rotation hook and the three aggregates *)

Lemma all_consistent_plug h ctx :
  ∀ t, all_consistent h (plug ctx t) →
       all_consistent h t ∧ all_siblings (all_consistent h) ctx.
Proof.
  induction ctx as [|[a r|l a] ctx IH]; intros t Hc; simpl in *; [done| |].
  - destruct (IH _ Hc) as ((_ & ? & ?) & ?). done.
  - destruct (IH _ Hc) as ((_ & ? & ?) & ?). done.
Qed.

Lemma all_consistent_insert_notin h a nd t :
  a ∉ inorder t → all_consistent h t → all_consistent (<[a := nd]> h) t.
Proof.
  intros Ha Hc. apply all_consistent_split in Hc as [Hm Hc].
  apply all_consistent_split. split.
  - apply (max_fixed_agree h); [by apply agree_insert_notin|done].
  - apply (counts_fixed_agree h); [by apply agree_counts_insert_notin|done].
Qed.

Lemma all_siblings_insert_notin h a nd ctx :
  a ∉ before ctx ++ after ctx →
  all_siblings (all_consistent h) ctx →
  all_siblings (all_consistent (<[a := nd]> h)) ctx.
Proof.
  induction ctx as [|[b r|l b] ctx IH]; simpl; [done| |]; intros Ha [Hs Hc]; split.
  - apply all_consistent_insert_notin; [in_lists|done].
  - apply IH; [in_lists|done].
  - apply all_consistent_insert_notin; [in_lists|done].
  - apply IH; [in_lists|done].
Qed.

(** One call of [fix_counts] on the node of a frame whose subtrees satisfy
    the three equations: afterwards the subtree rooted at that node does. *)
Lemma fix_counts_frame h g ctx t :
  rep h None (plug (g :: ctx) t) → NoDup (inorder (plug (g :: ctx) t)) →
  all_consistent h t → all_siblings (all_consistent h) (g :: ctx) →
  Z.of_nat (length (inorder (plug (g :: ctx) t))) < 2 ^ 31 →
  ∃ nd nd', h !! frame_addr g = Some nd ∧
    interval_tree_fix_counts h (Some (frame_addr g)) = Some (<[frame_addr g := nd']> h) ∧
    base nd' = base nd ∧ n_high nd' = n_high nd ∧
    n_parent nd = hole_parent ctx ∧
    rep (<[frame_addr g := nd']> h) None (plug (g :: ctx) t) ∧
    all_consistent (<[frame_addr g := nd']> h) (plug [g] t) ∧
    all_siblings (all_consistent (<[frame_addr g := nd']> h)) ctx.
Proof.
  intros Hrep Hnd Ht Hsib Hlen.
  destruct g as [a r|l a]; simpl in *; destruct Hsib as [Hs Hsib].
  - pose proof (proj1 (rep_plug h ctx _) Hrep) as [Hsub Hctx].
    destruct (NoDup_plug_node ctx t a r Hnd) as (Hat & Har & Hac).
    apply all_consistent_split in Ht as [Hmt Hct].
    apply all_consistent_split in Hs as [Hmr Hcr].
    destruct (fix_counts_above h t a r _ Hsub Hat Har Hmt Hmr)
      as (nd & nd' & Ha & Hfix & Hbase & Hhigh & Hfixed).
    destruct (fix_counts_above_counts h t a r _ Hsub Hat Har Hct Hcr)
      as (nd0 & nd2 & Ha0 & Hfix2 & _ & Hcounts).
    { pose proof (length_inorder_plug ctx (Node t a r)). lia. }
    rewrite Hfix in Hfix2. injection Hfix2 as Heq. rewrite <- Heq in Hcounts.
    exists nd, nd'. split; [done|]. split; [done|]. split; [done|]. split; [done|].
    split; [destruct Hsub as (? & ? & ? & _); by simplify_eq|].
    split; [by apply (rep_insert_same_base h a nd nd')|].
    split; [by apply (proj2 (all_consistent_split _ (Node t a r)))|].
    by apply all_siblings_insert_notin.
  - pose proof (proj1 (rep_plug h ctx _) Hrep) as [Hsub Hctx].
    destruct (NoDup_plug_node ctx l a t Hnd) as (Hal & Hat & Hac).
    apply all_consistent_split in Ht as [Hmt Hct].
    apply all_consistent_split in Hs as [Hml Hcl].
    destruct (fix_counts_above h l a t _ Hsub Hal Hat Hml Hmt)
      as (nd & nd' & Ha & Hfix & Hbase & Hhigh & Hfixed).
    destruct (fix_counts_above_counts h l a t _ Hsub Hal Hat Hcl Hct)
      as (nd0 & nd2 & Ha0 & Hfix2 & _ & Hcounts).
    { pose proof (length_inorder_plug ctx (Node l a t)). lia. }
    rewrite Hfix in Hfix2. injection Hfix2 as Heq. rewrite <- Heq in Hcounts.
    exists nd, nd'. split; [done|]. split; [done|]. split; [done|]. split; [done|].
    split; [destruct Hsub as (? & ? & ? & _); by simplify_eq|].
    split; [by apply (rep_insert_same_base h a nd nd')|].
    split; [by apply (proj2 (all_consistent_split _ (Node l a t)))|].
    by apply all_siblings_insert_notin.
Qed.

(** The rotation hook is the first three steps of the walk to the root that
    starts at the old top, which now hangs below the new top. *)
Lemma rotate_hook_path h1 f ctx L x R :
  rep h1 None (plug (InLeft x R :: f :: ctx) L) →
  NoDup (inorder (plug (InLeft x R :: f :: ctx) L)) →
  all_consistent h1 L →
  all_siblings (all_consistent h1) (InLeft x R :: f :: ctx) →
  Z.of_nat (length (inorder (plug (InLeft x R :: f :: ctx) L))) < 2 ^ 31 →
  ∃ h2, interval_tree_augment_rotate h1 (Some x) (Some (frame_addr f)) = Some h2 ∧
        rep h2 None (plug (InLeft x R :: f :: ctx) L) ∧
        all_consistent h2 (plug (InLeft x R :: f :: take 1 ctx) L) ∧
        (∀ b, high_of h2 b = high_of h1 b) ∧
        (∀ b, b ≠ x → b ≠ frame_addr f → hole_parent ctx ≠ Some b → h2 !! b = h1 !! b).
Proof.
  intros Hrep Hnd HL Hsib Hlen.
  destruct (fix_counts_frame h1 (InLeft x R) (f :: ctx) L Hrep Hnd HL Hsib Hlen)
    as (xd & xd' & Hxd & Hfix1 & Hbase1 & Hhigh1 & _ & Hrepa & Hca & Hsa).
  change (frame_addr (InLeft x R)) with x in *.
  set (ha := <[x := xd']> h1) in *.
  destruct (fix_counts_frame ha f ctx (plug [InLeft x R] L) Hrepa Hnd Hca Hsa Hlen)
    as (yd & yd' & Hyd & Hfix2 & Hbase2 & Hhigh2 & Hpar & Hrepb & Hcb & Hsb).
  set (y := frame_addr f) in *.
  set (hb := <[y := yd']> ha) in *.
  assert (∀ b, high_of hb b = high_of h1 b) as Hhighb.
  { intros b. unfold hb, ha. rewrite !high_of_insert.
    destruct (decide (y = b)) as [<-|].
    - rewrite Hhigh2. rewrite <- (high_of_lookup ha y yd Hyd). unfold ha.
      rewrite high_of_insert.
      destruct (decide (x = y)) as [<-|]; [|done].
      by rewrite Hhigh1, (high_of_lookup h1 x xd Hxd).
    - destruct (decide (x = b)) as [<-|]; [|done].
      by rewrite Hhigh1, (high_of_lookup h1 x xd Hxd). }
  assert (interval_tree_augment_rotate h1 (Some x) (Some y)
          = interval_tree_fix_counts hb (hole_parent ctx)) as Hhook.
  { unfold interval_tree_augment_rotate.
    rewrite Hfix1. rewrite (option_bind_some _ _). fold ha.
    rewrite Hfix2. rewrite (option_bind_some _ _). fold hb.
    rewrite (option_bind_some _ _).
    assert (hb !! y = Some yd') as -> by (unfold hb; apply lookup_insert_eq).
    rewrite (option_bind_some _ _).
    unfold n_parent in *. by rewrite Hbase2, Hpar. }
  rewrite Hhook.
  destruct ctx as [|g ctx'].
  - exists hb. split; [done|]. split; [done|]. split; [exact Hcb|]. split; [done|].
    intros b Hbx Hby _. unfold hb, ha. by rewrite !lookup_insert_ne.
  - assert (plug (InLeft x R :: f :: g :: ctx') L
            = plug (g :: ctx') (plug [f] (plug [InLeft x R] L))) as Heq.
    { exact (plug_app [f] (g :: ctx') (Node L x R)). }
    assert (plug (InLeft x R :: f :: take 1 (g :: ctx')) L
            = plug [g] (plug [f] (plug [InLeft x R] L))) as Heq1.
    { exact (plug_app [f] [g] (Node L x R)). }
    rewrite Heq in Hnd, Hlen |- *. rewrite Heq1.
    change (f :: g :: ctx') with ([f] ++ g :: ctx') in Hrepb. rewrite plug_app in Hrepb.
    destruct (fix_counts_frame hb g ctx' (plug [f] (plug [InLeft x R] L)) Hrepb Hnd Hcb Hsb Hlen)
      as (pd & pd' & Hpd & Hfix3 & Hbase3 & Hhigh3 & _ & Hrepc & Hcc & _).
    change (hole_parent (g :: ctx')) with (Some (frame_addr g)).
    exists (<[frame_addr g := pd']> hb). split; [done|]. split; [done|].
    split; [exact Hcc|]. split.
    + intros b. rewrite high_of_insert.
      destruct (decide (frame_addr g = b)) as [<-|]; [|done].
      by rewrite Hhigh3, <- (high_of_lookup hb _ pd Hpd).
    + intros b Hbx Hby Hbp.
      rewrite lookup_insert_ne by (intros Hg; apply Hbp; simpl; by rewrite Hg).
      unfold hb, ha. by rewrite !lookup_insert_ne.
Qed.

Lemma root_fields_unchanged h h' t :
  (∀ b, b ∈ inorder t → h' !! b = h !! b) →
  root_max h' t = root_max h t ∧ root_size h' t = root_size h t.
Proof.
  destruct t as [|l a r]; [done|]. intros Hsame. simpl.
  unfold max_of, size_of. rewrite !lookup_total_alt, Hsame; [done|].
  simpl. in_lists.
Qed.

Lemma hole_parent_on_path ctx p :
  hole_parent ctx = Some p → p ∈ before ctx ++ after ctx.
Proof. destruct ctx as [|[a r|l a] ctx]; simpl; [done| |]; intros [= <-]; in_lists. Qed.

Lemma NoDup_plug_disjoint ctx t :
  NoDup (inorder (plug ctx t)) →
  NoDup (inorder t) ∧ ∀ b, b ∈ inorder t → b ∉ before ctx ++ after ctx.
Proof.
  rewrite inorder_plug. intros Hnd.
  apply NoDup_app in Hnd as (_ & Hb & Hnd).
  apply NoDup_app in Hnd as (Hnd & Ha & _).
  split; [done|]. intros b Hb' Hin. apply elem_of_app in Hin as [Hin|Hin].
  - apply (Hb b Hin). apply elem_of_app. by left.
  - by apply (Ha b).
Qed.

Lemma rotated_in_tree ctx s oldn newn s1 :
  rotated s oldn newn s1 → rotation (plug ctx s) oldn newn (plug ctx s1).
Proof. intros [A x B y C|A y B x C]; constructor. Qed.

(** The new top of a rotated pair stores the [max] and the [size] the old
    top stored, once both satisfy their equations. *)
Lemma rotated_values h1 h2 s x y s1 :
  rotated s x y s1 → NoDup (inorder s1) →
  all_consistent h1 s → all_consistent h2 s1 →
  (∀ b, high_of h2 b = high_of h1 b) →
  (∀ b, b ∈ inorder s1 → b ≠ x → b ≠ y → h2 !! b = h1 !! b) →
  root_max h2 s1 = root_max h1 s ∧ root_size h2 s1 = root_size h1 s.
Proof.
  intros [A x' B y' C|A y' B x' C] Hnd Hold Hnew Hhigh Hout; simpl in *.
  - apply NoDup_app in Hnd as (Hnd1 & Hd1 & Hnd2).
    apply NoDup_app in Hnd1 as (_ & Hd2 & Hnd3).
    apply NoDup_cons in Hnd2 as [Hd3 _]. apply NoDup_cons in Hnd3 as [Hd4 _].
    destruct (root_fields_unchanged h1 h2 A) as [EA SA].
    { intros b Hb. apply Hout; [in_lists| |].
      - intros ->. apply (Hd2 x'); in_lists.
      - intros ->. apply (Hd1 y'); in_lists. }
    destruct (root_fields_unchanged h1 h2 B) as [EB SB].
    { intros b Hb. apply Hout; [in_lists| |].
      - intros ->. by apply Hd4.
      - intros ->. apply (Hd1 y'); in_lists. }
    destruct (root_fields_unchanged h1 h2 C) as [EC SC].
    { intros b Hb. apply Hout; [in_lists| |].
      - intros ->. apply (Hd1 x'); in_lists.
      - intros ->. by apply Hd3. }
    destruct Hold as ((Mx & Sx & _) & _ & (My & Sy & _) & _).
    destruct Hnew as ((My2 & Sy2 & _) & ((Mx2 & Sx2 & _) & _) & _).
    simpl in *. rewrite !MAX_is_max in Mx, My, Mx2, My2.
    rewrite !Hhigh, EA, EB, EC in *. rewrite SA, SB, SC in *. lia.
  - apply NoDup_app in Hnd as (_ & Hd1 & Hnd2).
    apply NoDup_cons in Hnd2 as [Hd2 Hnd3].
    apply NoDup_app in Hnd3 as (_ & Hd3 & Hnd4).
    apply NoDup_cons in Hnd4 as [Hd4 _].
    destruct (root_fields_unchanged h1 h2 A) as [EA SA].
    { intros b Hb. apply Hout; [in_lists| |].
      - intros ->. apply (Hd1 x'); in_lists.
      - intros ->. apply (Hd1 y'); in_lists. }
    destruct (root_fields_unchanged h1 h2 B) as [EB SB].
    { intros b Hb. apply Hout; [in_lists| |].
      - intros ->. apply (Hd3 x'); in_lists.
      - intros ->. apply Hd2. in_lists. }
    destruct (root_fields_unchanged h1 h2 C) as [EC SC].
    { intros b Hb. apply Hout; [in_lists| |].
      - intros ->. by apply Hd4.
      - intros ->. apply Hd2. in_lists. }
    destruct Hold as ((Mx & Sx & _) & ((My & Sy & _) & _) & _).
    destruct Hnew as ((My2 & Sy2 & _) & _ & (Mx2 & Sx2 & _) & _).
    simpl in *. rewrite !MAX_is_max in Mx, My, Mx2, My2.
    rewrite !Hhigh, EA, EB, EC in *. rewrite SA, SB, SC in *. lia.
Qed.

Lemma rotate_hook_rotated h1 ctx s x y s1 :
  rotated s x y s1 →
  rep h1 None (plug ctx s1) → NoDup (inorder (plug ctx s1)) →
  all_consistent h1 (plug ctx s) →
  Z.of_nat (length (inorder (plug ctx s1))) < 2 ^ 31 →
  ∃ h2, interval_tree_augment_rotate h1 (Some x) (Some y) = Some h2 ∧
        rep h2 None (plug ctx s1) ∧
        all_consistent h2 (plug (take 1 ctx) s1) ∧
        (∀ b, high_of h2 b = high_of h1 b) ∧
        (∀ b, b ≠ x → b ≠ y → hole_parent ctx ≠ Some b → h2 !! b = h1 !! b).
Proof.
  intros [A x' B y' C|A y' B x' C] Hrep Hnd Hold Hlen;
    apply all_consistent_plug in Hold as [Hs Hsibs]; simpl in Hs.
  - destruct Hs as (_ & HA & _ & HB & HC).
    by apply (rotate_hook_path h1 (InLeft y' C) ctx A x' B).
  - destruct Hs as (_ & (_ & HA & HB) & HC).
    by apply (rotate_hook_path h1 (InRight A y') ctx B x' C).
Qed.

Lemma rotated_tops s x y s1 :
  rotated s x y s1 →
  root_ptr s = Some x ∧ root_ptr s1 = Some y ∧ x ∈ inorder s1 ∧ y ∈ inorder s1.
Proof. intros [A x' B y' C|A y' B x' C]; simpl; repeat split; try done; in_lists. Qed.

(** The parent of a rotated pair keeps its [max] and [size] when its
    equations hold before and after and its children contribute the same. *)
Lemma parent_values h1 h2 g s s1 :
  all_consistent h1 (plug [g] s) → all_consistent h2 (plug [g] s1) →
  (∀ b, high_of h2 b = high_of h1 b) →
  root_max h2 s1 = root_max h1 s → root_size h2 s1 = root_size h1 s →
  all_siblings (λ t, ∀ b, b ∈ inorder t → h2 !! b = h1 !! b) [g] →
  max_of h2 (frame_addr g) = max_of h1 (frame_addr g) ∧
  size_of h2 (frame_addr g) = size_of h1 (frame_addr g).
Proof.
  destruct g as [p sib|sib p]; simpl;
    intros ((M1 & S1 & _) & _) ((M2 & S2 & _) & _) Hhigh EM ES [Hsib _];
    destruct (root_fields_unchanged h1 h2 sib Hsib) as [E S];
    by rewrite M2, S2, M1, S1, Hhigh, EM, ES, E, S.
Qed.

Lemma max_high0_same_highs h h' t :
  (∀ b, high_of h' b = high_of h b) → max_high0 h' t = max_high0 h t.
Proof.
  intros Hhigh. unfold max_high0. f_equal. apply list_fmap_ext. intros ? b _. apply Hhigh.
Qed.

(** ** The order of the two hooks on the ascending example *)

(** With the propagate hook first and the rotation hook last the root keeps
    the height of the unrotated tree; with the rotation hook first and the
    propagate hook last every node satisfies the three equations. *)
Example asc_walk_first_stale :
  height_of asc_heap7 2%positive = 5 ∧ theight asc_shape7 = 4%nat.
Proof. by vm_compute. Qed.

Example asc_walk_last_consistent :
  rep asc_heap7_walk_last None asc_shape7 ∧
  all_consistent asc_heap7_walk_last asc_shape7 ∧
  height_of asc_heap7_walk_last 2%positive = 4.
Proof.
  split; [apply rep_check_sound; by vm_compute|]. split; by vm_compute.
Qed.

Lemma plug_two_root f g s :
  root_ptr (plug [f; g] s) = Some (frame_addr g).
Proof. by destruct f, g. Qed.

(** ** Trees that are stale along one path only *)

Lemma clean_off_all n h t : n ∉ inorder t → clean_off n h t → all_consistent h t.
Proof.
  induction t as [|l IHl a r IHr]; [done|]. intros Hn (Ha & Hl & Hr).
  split; [by apply Ha|]. simpl in Hn. split.
  - apply IHl; [|done]. intros ?. apply Hn. in_lists.
  - apply IHr; [|done]. intros ?. apply Hn. in_lists.
Qed.

Lemma all_consistent_clean_off n h t : all_consistent h t → clean_off n h t.
Proof.
  induction t as [|l IHl a r IHr]; [done|]. intros (Ha & Hl & Hr).
  split; [done|]. split; auto.
Qed.

Lemma clean_off_plug n h ctx :
  ∀ t, clean_off n h (plug ctx t) →
       clean_off n h t ∧ all_siblings (clean_off n h) ctx.
Proof.
  induction ctx as [|[a r|l a] ctx IH]; intros t Hc; simpl in *; [done| |].
  - destruct (IH _ Hc) as ((_ & ? & ?) & ?). done.
  - destruct (IH _ Hc) as ((_ & ? & ?) & ?). done.
Qed.

Lemma clean_off_plug_in n h ctx :
  ∀ t, n ∈ inorder t → clean_off n h t → all_siblings (clean_off n h) ctx →
       clean_off n h (plug ctx t).
Proof.
  induction ctx as [|[a r|l a] ctx IH]; intros t Hn Ht Hs; simpl in *; [done| |].
  - destruct Hs as [Hr Hs]. apply IH; [simpl; in_lists| |done].
    split; [|done]. intros Hout. exfalso. apply Hout. simpl. in_lists.
  - destruct Hs as [Hl Hs]. apply IH; [simpl; in_lists| |done].
    split; [|done]. intros Hout. exfalso. apply Hout. simpl. in_lists.
Qed.

Lemma clean_off_plug_near n h ctx t :
  n ∈ inorder (plug (take 1 ctx) t) →
  clean_off n h t → all_siblings (clean_off n h) ctx →
  clean_off n h (plug ctx t).
Proof.
  destruct ctx as [|f ctx]; [done|]. intros Hn Ht Hs.
  change (f :: ctx) with ([f] ++ ctx). rewrite plug_app.
  assert (clean_off n h (plug [f] t) ∧ all_siblings (clean_off n h) ctx) as [Hf Hc].
  { destruct f as [a r|l a]; simpl in *; destruct Hs as [? ?];
      (split; [|done]); (split; [|done]); intros Hout; by exfalso. }
  by apply clean_off_plug_in.
Qed.

Lemma root_height_unchanged h h' t :
  (∀ b, b ∈ inorder t → h' !! b = h !! b) → root_height h' t = root_height h t.
Proof.
  destruct t as [|l a r]; [done|]. intros Hsame. simpl.
  unfold height_of. rewrite !lookup_total_alt, Hsame; [done|].
  simpl. in_lists.
Qed.

Lemma node_consistent_same h h' l a r :
  (∀ b, b ∈ inorder (Node l a r) → h' !! b = h !! b) →
  node_consistent h l a r → node_consistent h' l a r.
Proof.
  intros Hsame (Hm & Hs & Hh).
  assert (∀ b, b ∈ inorder l → h' !! b = h !! b) as Hl.
  { intros b Hb. apply Hsame. simpl. in_lists. }
  assert (∀ b, b ∈ inorder r → h' !! b = h !! b) as Hr.
  { intros b Hb. apply Hsame. simpl. in_lists. }
  assert (h' !! a = h !! a) as Ha by (apply Hsame; simpl; in_lists).
  destruct (root_fields_unchanged h h' l Hl) as [El Sl].
  destruct (root_fields_unchanged h h' r Hr) as [Er Sr].
  pose proof (root_height_unchanged h h' l Hl) as Tl.
  pose proof (root_height_unchanged h h' r Hr) as Tr.
  unfold node_consistent, max_of, high_of, size_of, height_of in *.
  rewrite !lookup_total_alt, Ha, El, Er, Sl, Sr, Tl, Tr in *.
  rewrite <- !lookup_total_alt. done.
Qed.

Lemma clean_off_same n h h' t :
  (∀ b, b ∈ inorder t → h' !! b = h !! b) → clean_off n h t → clean_off n h' t.
Proof.
  induction t as [|l IHl a r IHr]; [done|]. intros Hsame (Ha & Hl & Hr).
  split; [|split].
  - intros Hn. apply (node_consistent_same h); [done|]. by apply Ha.
  - apply IHl; [|done]. intros b Hb. apply Hsame. simpl. in_lists.
  - apply IHr; [|done]. intros b Hb. apply Hsame. simpl. in_lists.
Qed.

Lemma all_consistent_same h h' t :
  (∀ b, b ∈ inorder t → h' !! b = h !! b) → all_consistent h t → all_consistent h' t.
Proof.
  induction t as [|l IHl a r IHr]; [done|]. intros Hsame (Ha & Hl & Hr).
  split; [|split].
  - by apply (node_consistent_same h).
  - apply IHl; [|done]. intros b Hb. apply Hsame. simpl. in_lists.
  - apply IHr; [|done]. intros b Hb. apply Hsame. simpl. in_lists.
Qed.

(** ** The rotation hook on a tree that is stale along one path *)

Lemma fix_counts_returns h g ctx t :
  rep h None (plug (g :: ctx) t) →
  ∃ nd nd', h !! frame_addr g = Some nd ∧
    interval_tree_fix_counts h (Some (frame_addr g)) = Some (<[frame_addr g := nd']> h) ∧
    base nd' = base nd ∧ n_parent nd = hole_parent ctx ∧
    rep (<[frame_addr g := nd']> h) None (plug (g :: ctx) t).
Proof.
  intros Hrep. destruct g as [a r|l a]; simpl in *.
  - pose proof (proj1 (rep_plug h ctx _) Hrep) as [(nd & Ha & Hp & Hleft & Hright & Hl & Hr) _].
    destruct (fix_counts_at h a nd t r Ha Hleft Hright Hl Hr) as (nd' & Hfix & Hbase & _).
    exists nd, nd'. repeat split; try done. by apply (rep_insert_same_base h a nd nd').
  - pose proof (proj1 (rep_plug h ctx _) Hrep) as [(nd & Ha & Hp & Hleft & Hright & Hl & Hr) _].
    destruct (fix_counts_at h a nd l t Ha Hleft Hright Hl Hr) as (nd' & Hfix & Hbase & _).
    exists nd, nd'. repeat split; try done. by apply (rep_insert_same_base h a nd nd').
Qed.

Lemma fix_counts_frame_local h g ctx t nd' :
  rep h None (plug (g :: ctx) t) → NoDup (inorder (plug (g :: ctx) t)) →
  Z.of_nat (length (inorder (plug (g :: ctx) t))) < 2 ^ 31 →
  interval_tree_fix_counts h (Some (frame_addr g)) = Some (<[frame_addr g := nd']> h) →
  all_consistent h t → all_siblings (all_consistent h) [g] →
  all_consistent (<[frame_addr g := nd']> h) (plug [g] t).
Proof.
  intros Hrep Hnd Hlen Hres Ht Hsib.
  destruct g as [a r|l a]; simpl in Hrep, Hnd, Hlen, Hsib |- *;
    cbn [frame_addr] in Hres; destruct Hsib as [Hs _].
  - pose proof (proj1 (rep_plug h ctx _) Hrep) as [Hsub Hctx].
    destruct (NoDup_plug_node ctx t a r Hnd) as (Hat & Har & Hac).
    apply all_consistent_split in Ht as [Hmt Hct].
    apply all_consistent_split in Hs as [Hmr Hcr].
    destruct (fix_counts_above h t a r _ Hsub Hat Har Hmt Hmr)
      as (nd & nd1 & Ha & Hfix & _ & _ & Hfixed).
    destruct (fix_counts_above_counts h t a r _ Hsub Hat Har Hct Hcr)
      as (nd0 & nd2 & Ha0 & Hfix2 & _ & Hcounts).
    { pose proof (length_inorder_plug ctx (Node t a r)). lia. }
    rewrite Hres in Hfix, Hfix2.
    injection Hfix as Heq1. injection Hfix2 as Heq2.
    rewrite <- Heq1 in Hfixed. rewrite <- Heq2 in Hcounts.
    by apply (proj2 (all_consistent_split _ (Node t a r))).
  - pose proof (proj1 (rep_plug h ctx _) Hrep) as [Hsub Hctx].
    destruct (NoDup_plug_node ctx l a t Hnd) as (Hal & Hat & Hac).
    apply all_consistent_split in Ht as [Hmt Hct].
    apply all_consistent_split in Hs as [Hml Hcl].
    destruct (fix_counts_above h l a t _ Hsub Hal Hat Hml Hmt)
      as (nd & nd1 & Ha & Hfix & _ & _ & Hfixed).
    destruct (fix_counts_above_counts h l a t _ Hsub Hal Hat Hcl Hct)
      as (nd0 & nd2 & Ha0 & Hfix2 & _ & Hcounts).
    { pose proof (length_inorder_plug ctx (Node l a t)). lia. }
    rewrite Hres in Hfix, Hfix2.
    injection Hfix as Heq1. injection Hfix2 as Heq2.
    rewrite <- Heq1 in Hfixed. rewrite <- Heq2 in Hcounts.
    by apply (proj2 (all_consistent_split _ (Node l a t))).
Qed.

Lemma frame_off_subtree g ctx t :
  NoDup (inorder (plug (g :: ctx) t)) → frame_addr g ∉ inorder t.
Proof.
  destruct g as [a r|l a]; simpl; intros Hnd.
  - by destruct (NoDup_plug_node ctx t a r Hnd) as (? & _ & _).
  - by destruct (NoDup_plug_node ctx l a t Hnd) as (_ & ? & _).
Qed.

Lemma frame_sibling_off g ctx t :
  NoDup (inorder (plug (g :: ctx) t)) →
  (frame_addr g ∉ inorder (frame_sibling g)) ∧
  ∀ b, b ∈ inorder t → b ∉ inorder (frame_sibling g).
Proof.
  destruct g as [a r|l a]; simpl; intros Hnd.
  - destruct (NoDup_plug_node ctx t a r Hnd) as (_ & ? & _). split; [done|].
    apply NoDup_plug_disjoint in Hnd as [Hnd _]. simpl in Hnd.
    apply NoDup_app in Hnd as (_ & Hd & _). intros b Hb Hr. apply (Hd b Hb). in_lists.
  - destruct (NoDup_plug_node ctx l a t Hnd) as (? & _ & _). split; [done|].
    apply NoDup_plug_disjoint in Hnd as [Hnd _]. simpl in Hnd.
    apply NoDup_app in Hnd as (_ & Hd & _). intros b Hb Hl. apply (Hd b Hl). in_lists.
Qed.

Lemma all_siblings_one (P : tree → Prop) g : all_siblings P [g] ↔ P (frame_sibling g).
Proof. destruct g; simpl; tauto. Qed.

Lemma inorder_plug_one g t b :
  b ∈ inorder (plug [g] t) ↔
  b ∈ inorder t ∨ b = frame_addr g ∨ b ∈ inorder (frame_sibling g).
Proof. destruct g as [a r|l a]; simpl; split; intros; in_lists. Qed.

(** The rotation hook returns on any linked tree and writes the old top, the
    new top and the new top's parent only; the subtree of the old top is
    consistent afterwards when its two subtrees were, and so is the subtree of
    the new top when its other subtree was as well. *)
Lemma rotate_hook_local h1 f ctx L x R :
  rep h1 None (plug (InLeft x R :: f :: ctx) L) →
  NoDup (inorder (plug (InLeft x R :: f :: ctx) L)) →
  Z.of_nat (length (inorder (plug (InLeft x R :: f :: ctx) L))) < 2 ^ 31 →
  ∃ h2, interval_tree_augment_rotate h1 (Some x) (Some (frame_addr f)) = Some h2 ∧
        rep h2 None (plug (InLeft x R :: f :: ctx) L) ∧
        (∀ b, b ≠ x → b ≠ frame_addr f → hole_parent ctx ≠ Some b → h2 !! b = h1 !! b) ∧
        (all_consistent h1 L → all_consistent h1 R → all_consistent h2 (Node L x R)) ∧
        (all_consistent h1 L → all_consistent h1 R →
         all_consistent h1 (frame_sibling f) →
         all_consistent h2 (plug [f] (Node L x R))).
Proof.
  intros Hrep Hnd Hlen.
  destruct (fix_counts_returns h1 (InLeft x R) (f :: ctx) L Hrep)
    as (xd & xd' & Hxd & Hfix1 & Hbase1 & _ & Hrepa).
  cbn [frame_addr] in Hxd, Hfix1, Hrepa.
  set (ha := <[x := xd']> h1) in *.
  assert (plug (InLeft x R :: f :: ctx) L = plug (f :: ctx) (Node L x R)) as Ht by done.
  rewrite Ht in Hrep, Hnd, Hlen, Hrepa |- *.
  destruct (fix_counts_returns ha f ctx (Node L x R) Hrepa)
    as (yd & yd' & Hyd & Hfix2 & Hbase2 & Hpar & Hrepb).
  set (y := frame_addr f) in *.
  set (hb := <[y := yd']> ha) in *.
  pose proof (frame_off_subtree f ctx (Node L x R) Hnd) as Hy. fold y in Hy.
  destruct (frame_sibling_off f ctx (Node L x R) Hnd) as [HyS HxS]. fold y in HyS.
  assert (x ≠ y) as Hxy.
  { intros ->. apply Hy. simpl. in_lists. }
  assert (interval_tree_augment_rotate h1 (Some x) (Some y)
          = interval_tree_fix_counts hb (hole_parent ctx)) as Hhook.
  { unfold interval_tree_augment_rotate.
    rewrite Hfix1. rewrite (option_bind_some _ _). fold ha.
    rewrite Hfix2. rewrite (option_bind_some _ _). fold hb.
    rewrite (option_bind_some _ _).
    assert (hb !! y = Some yd') as -> by (unfold hb; apply lookup_insert_eq).
    rewrite (option_bind_some _ _).
    unfold n_parent in *. by rewrite Hbase2, Hpar. }
  rewrite Hhook.
  assert (all_consistent h1 L → all_consistent h1 R → all_consistent ha (Node L x R)) as Hca.
  { intros HL HR.
    apply (fix_counts_frame_local h1 (InLeft x R) (f :: ctx) L xd');
      first [done | by apply all_siblings_one]. }
  assert (all_consistent h1 L → all_consistent h1 R → all_consistent hb (Node L x R)) as Hcb.
  { intros HL HR. apply all_consistent_insert_notin; [done|]. by apply Hca. }
  assert (all_consistent h1 L → all_consistent h1 R →
          all_consistent h1 (frame_sibling f) →
          all_consistent hb (plug [f] (Node L x R))) as Hcb2.
  { intros HL HR HS.
    apply (fix_counts_frame_local ha f ctx (Node L x R) yd'); try done.
    - by apply Hca.
    - apply all_siblings_one. apply all_consistent_insert_notin; [|done].
      apply HxS. simpl. in_lists. }
  destruct ctx as [|g ctx'].
  - exists hb. split; [done|]. split; [done|]. split; [|done].
    intros b Hbx Hby _. unfold hb, ha. by rewrite !lookup_insert_ne.
  - change (f :: g :: ctx') with ([f] ++ g :: ctx') in Hrepb, Hnd |- *.
    rewrite plug_app in Hrepb, Hnd |- *.
    destruct (fix_counts_returns hb g ctx' (plug [f] (Node L x R)) Hrepb)
      as (pd & pd' & Hpd & Hfix3 & Hbase3 & _ & Hrepc).
    pose proof (frame_off_subtree g ctx' _ Hnd) as Hp.
    change (hole_parent (g :: ctx')) with (Some (frame_addr g)).
    exists (<[frame_addr g := pd']> hb). split; [done|]. split; [done|]. split; [|split].
    + intros b Hbx Hby Hbp.
      rewrite lookup_insert_ne by (intros Hg; apply Hbp; simpl; by rewrite Hg).
      unfold hb, ha. by rewrite !lookup_insert_ne.
    + intros HL HR. apply all_consistent_insert_notin; [|by apply Hcb].
      intros Hin. apply Hp. apply inorder_plug_one. by left.
    + intros HL HR HS. apply all_consistent_insert_notin; [done|]. by apply Hcb2.
Qed.

Lemma all_siblings_nodes (P : addr → Prop) ctx :
  (∀ b, b ∈ before ctx ++ after ctx → P b) →
  all_siblings (λ t, ∀ b, b ∈ inorder t → P b) ctx.
Proof.
  induction ctx as [|[a r|l a] ctx IH]; simpl; [done| |]; intros HP; split.
  - intros b Hb. apply HP. in_lists.
  - apply IH. intros b Hb. apply HP. in_lists.
  - intros b Hb. apply HP. in_lists.
  - apply IH. intros b Hb. apply HP. in_lists.
Qed.

Lemma all_siblings_impl2 (P Q R : tree → Prop) ctx :
  (∀ t, P t → Q t → R t) →
  all_siblings P ctx → all_siblings Q ctx → all_siblings R ctx.
Proof.
  intros HR. induction ctx as [|[a r|l a] ctx IH]; simpl; [done| |];
    intros [? ?] [? ?]; auto.
Qed.

Lemma all_siblings_cons (P : tree → Prop) f ctx :
  all_siblings P (f :: ctx) ↔ P (frame_sibling f) ∧ all_siblings P ctx.
Proof. destruct f; simpl; tauto. Qed.

(** The rotation hook leaves the subtrees hanging off the path above the
    rotated pair as they are. *)
Lemma siblings_untouched (h1 h2 : heap) ctx s1 x y :
  NoDup (inorder (plug ctx s1)) → x ∈ inorder s1 → y ∈ inorder s1 →
  (∀ b, b ≠ x → b ≠ y → hole_parent ctx ≠ Some b → h2 !! b = h1 !! b) →
  all_siblings (λ t, ∀ b, b ∈ inorder t → h2 !! b = h1 !! b) ctx.
Proof.
  intros Hnd Hx Hy Hout. destruct ctx as [|f ctx]; [done|].
  apply all_siblings_cons. split.
  - destruct (frame_sibling_off f ctx s1 Hnd) as [Hp Hs].
    intros b Hb. apply Hout.
    + intros ->. by apply (Hs x).
    + intros ->. by apply (Hs y).
    + simpl. intros [= Hf]. apply Hp. by rewrite Hf.
  - change (f :: ctx) with ([f] ++ ctx) in Hnd. rewrite plug_app in Hnd.
    apply NoDup_plug_disjoint in Hnd as [_ Hd].
    apply all_siblings_nodes. intros b Hb. apply Hout.
    + intros ->. apply (Hd x); [|done]. apply inorder_plug_one. by left.
    + intros ->. apply (Hd y); [|done]. apply inorder_plug_one. by left.
    + simpl. intros [= Hf]. apply (Hd b); [|done].
      apply inorder_plug_one. right. by left.
Qed.

(** Inside the rotated subtree the hook writes the pair only. *)
Lemma pair_subtree_untouched (h1 h2 : heap) ctx s1 x y :
  NoDup (inorder (plug ctx s1)) →
  (∀ b, b ≠ x → b ≠ y → hole_parent ctx ≠ Some b → h2 !! b = h1 !! b) →
  ∀ b, b ∈ inorder s1 → b ≠ x → b ≠ y → h2 !! b = h1 !! b.
Proof.
  intros Hnd Hout b Hb Hbx Hby. apply Hout; [done..|].
  intros Hp. apply hole_parent_on_path in Hp.
  apply NoDup_plug_disjoint in Hnd as [_ Hd]. by apply (Hd b).
Qed.

Lemma rotate_hook_clean h1 ctx s x y s1 n :
  rotated s x y s1 →
  rep h1 None (plug ctx s1) → NoDup (inorder (plug ctx s1)) →
  Z.of_nat (length (inorder (plug ctx s1))) < 2 ^ 31 →
  clean_off n h1 (plug ctx s) →
  n ∈ inorder (plug (take 1 ctx) s1) →
  ∃ h2, interval_tree_augment_rotate h1 (Some x) (Some y) = Some h2 ∧
        rep h2 None (plug ctx s1) ∧
        clean_off n h2 (plug ctx s1).
Proof.
  intros Hrot Hrep Hnd Hlen Hold Hnear.
  apply clean_off_plug in Hold as [Hs Hsib].
  destruct (rotated_tops s x y s1 Hrot) as (_ & _ & Hxin & Hyin).
  pose proof (proj1 (NoDup_plug_disjoint ctx s1 Hnd)) as Hnd1.
  destruct Hrot as [A x B y C|A y B x C].
  - destruct (rotate_hook_local h1 (InLeft y C) ctx A x B Hrep Hnd Hlen)
      as (h2 & Hhook & Hrep2 & Hout & Hc1 & Hc2).
    cbn [frame_addr frame_sibling] in Hhook, Hout, Hc2.
    pose proof (pair_subtree_untouched h1 h2 ctx _ x y Hnd Hout) as Hin.
    pose proof (siblings_untouched h1 h2 ctx _ x y Hnd Hxin Hyin Hout) as Hsame.
    destruct Hs as (_ & HA & _ & HB & HC).
    simpl in Hnd1.
    apply NoDup_app in Hnd1 as (Hnd2 & Hd1 & Hnd3).
    apply NoDup_app in Hnd2 as (_ & Hd2 & Hnd4).
    apply NoDup_cons in Hnd3 as [Hd3 _]. apply NoDup_cons in Hnd4 as [Hd4 _].
    assert (∀ b, b ∈ inorder A → h2 !! b = h1 !! b) as HsA.
    { intros b Hb. apply Hin; [simpl; in_lists| |].
      - intros ->. apply (Hd2 x); in_lists.
      - intros ->. apply (Hd1 y); in_lists. }
    assert (∀ b, b ∈ inorder B → h2 !! b = h1 !! b) as HsB.
    { intros b Hb. apply Hin; [simpl; in_lists| |].
      - intros ->. by apply Hd4.
      - intros ->. apply (Hd1 y); in_lists. }
    assert (∀ b, b ∈ inorder C → h2 !! b = h1 !! b) as HsC.
    { intros b Hb. apply Hin; [simpl; in_lists| |].
      - intros ->. apply (Hd1 x); in_lists.
      - intros ->. by apply Hd3. }
    exists h2. split; [done|]. split; [done|].
    apply clean_off_plug_near; [done| |].
    + split; [|split; [split; [|split]|]].
      * intros Hn. simpl in Hn.
        destruct Hc2 as [Hnc _]; [| | |exact Hnc].
        -- apply (clean_off_all n); [|done]. intros ?. apply Hn. in_lists.
        -- apply (clean_off_all n); [|done]. intros ?. apply Hn. in_lists.
        -- apply (clean_off_all n); [|done]. intros ?. apply Hn. in_lists.
      * intros Hn. simpl in Hn.
        destruct Hc1 as [Hnc _]; [| |exact Hnc].
        -- apply (clean_off_all n); [|done]. intros ?. apply Hn. in_lists.
        -- apply (clean_off_all n); [|done]. intros ?. apply Hn. in_lists.
      * by apply (clean_off_same n h1).
      * by apply (clean_off_same n h1).
      * by apply (clean_off_same n h1).
    + apply (all_siblings_impl2 _ _ _ ctx (λ t Hsm Hcl, clean_off_same n h1 h2 t Hsm Hcl));
        done.
  - destruct (rotate_hook_local h1 (InRight A y) ctx B x C Hrep Hnd Hlen)
      as (h2 & Hhook & Hrep2 & Hout & Hc1 & Hc2).
    cbn [frame_addr frame_sibling] in Hhook, Hout, Hc2.
    pose proof (pair_subtree_untouched h1 h2 ctx _ x y Hnd Hout) as Hin.
    pose proof (siblings_untouched h1 h2 ctx _ x y Hnd Hxin Hyin Hout) as Hsame.
    destruct Hs as (_ & (_ & HA & HB) & HC).
    simpl in Hnd1.
    apply NoDup_app in Hnd1 as (_ & Hd1 & Hnd2).
    apply NoDup_cons in Hnd2 as [Hd2 Hnd3].
    apply NoDup_app in Hnd3 as (_ & Hd3 & Hnd4).
    apply NoDup_cons in Hnd4 as [Hd4 _].
    assert (∀ b, b ∈ inorder A → h2 !! b = h1 !! b) as HsA.
    { intros b Hb. apply Hin; [simpl; in_lists| |].
      - intros ->. apply (Hd1 x); in_lists.
      - intros ->. apply (Hd1 y); in_lists. }
    assert (∀ b, b ∈ inorder B → h2 !! b = h1 !! b) as HsB.
    { intros b Hb. apply Hin; [simpl; in_lists| |].
      - intros ->. apply (Hd3 x); in_lists.
      - intros ->. apply Hd2. in_lists. }
    assert (∀ b, b ∈ inorder C → h2 !! b = h1 !! b) as HsC.
    { intros b Hb. apply Hin; [simpl; in_lists| |].
      - intros ->. by apply Hd4.
      - intros ->. apply Hd2. in_lists. }
    exists h2. split; [done|]. split; [done|].
    apply clean_off_plug_near; [done| |].
    + split; [|split; [|split; [|split]]].
      * intros Hn. simpl in Hn.
        destruct Hc2 as [Hnc _]; [| | |exact Hnc].
        -- apply (clean_off_all n); [|done]. intros ?. apply Hn. in_lists.
        -- apply (clean_off_all n); [|done]. intros ?. apply Hn. in_lists.
        -- apply (clean_off_all n); [|done]. intros ?. apply Hn. in_lists.
      * by apply (clean_off_same n h1).
      * intros Hn. simpl in Hn.
        destruct Hc1 as [Hnc _]; [| |exact Hnc].
        -- apply (clean_off_all n); [|done]. intros ?. apply Hn. in_lists.
        -- apply (clean_off_all n); [|done]. intros ?. apply Hn. in_lists.
      * by apply (clean_off_same n h1).
      * by apply (clean_off_same n h1).
    + apply (all_siblings_impl2 _ _ _ ctx (λ t Hsm Hcl, clean_off_same n h1 h2 t Hsm Hcl));
        done.
Qed.

(** The walk of the propagate hook from [n] repairs a tree in which only [n]
    and the nodes above it are stale. *)
Lemma propagate_from_clean h T n fuel :
  rep h None T → NoDup (inorder T) →
  Z.of_nat (length (inorder T)) < 2 ^ 31 →
  n ∈ inorder T → clean_off n h T → (theight T ≤ fuel)%nat →
  ∃ h3, interval_tree_augment_propagate fuel h (Some n) = Some h3 ∧
        rep h3 None T ∧ all_consistent h3 T.
Proof.
  intros Hrep Hnd Hlen Hn Hclean Hfuel.
  destruct (position_exists T n Hn) as (ctx & l & r & ->).
  apply clean_off_plug in Hclean as [(_ & Hl & Hr) Hsib].
  destruct (NoDup_plug_node ctx l n r Hnd) as (Hnl & Hnr & Hnc).
  apply (clean_off_all n) in Hl; [|done]. apply (clean_off_all n) in Hr; [|done].
  assert (all_siblings (all_consistent h) ctx) as Hs.
  { apply (all_siblings_impl2 (λ t, ∀ b, b ∈ inorder t → b ≠ n) (clean_off n h)); [| |done].
    - intros t Ht Hc. apply (clean_off_all n); [|done]. intros Hin. by apply (Ht n).
    - apply all_siblings_nodes. intros b Hb ->. by apply Hnc. }
  destruct (theight_plug ctx (Node l n r)) as [Hh _]. simpl in Hh.
  apply all_consistent_split in Hl as [Hml Hcl].
  apply all_consistent_split in Hr as [Hmr Hcr].
  assert (all_siblings (max_fixed h) ctx) as Hsm.
  { apply (all_siblings_weaken (all_consistent h)); [|done].
    intros t Ht. by apply all_consistent_split in Ht as [? _]. }
  assert (all_siblings (counts_fixed h) ctx) as Hsc.
  { apply (all_siblings_weaken (all_consistent h)); [|done].
    intros t Ht. by apply all_consistent_split in Ht as [_ ?]. }
  destruct (propagate_path (InLeft n r :: ctx) l h fuel) as (h2 & Hprop & Hrep2 & Hm2 & _);
    [done|done|done|by split|simpl; lia|].
  destruct (propagate_path_counts (InLeft n r :: ctx) l h fuel) as (h2' & Hprop' & Hc2);
    [done|done|done|by split|simpl; lia|done|].
  change (hole_parent (InLeft n r :: ctx)) with (Some n) in Hprop, Hprop'.
  rewrite Hprop in Hprop'. injection Hprop' as <-.
  exists h2. split; [done|]. split; [done|]. by apply all_consistent_split.
Qed.

(** * The claims *)

(** C1. For a well-formed tree that satisfies BST ordering and whose stored
    maxima are consistent, and query bounds [lo <= hi], the sequence produced
    by [iter_first] followed by [iter_next] until it returns [NULL] is, element
    for element, the brute-force scan that filters the stored intervals with
    the overlap predicate, and it is in ascending (low, high) order. *)
Theorem iterate_is_brute_force_scan h t T lo hi steps fuel :
  wf_tree h t T → bst h T → max_consistent h T → lo <= hi →
  (2 * theight T ≤ fuel)%nat → (length (inorder T) ≤ steps)%nat →
  iterate steps fuel h t lo hi = Some (scan h lo hi T) ∧
  StronglySorted (lex_lt h) (scan h lo hi T).
Proof.
  intros Hwf Hbst Hmax _ Hfuel Hsteps. split.
  - by apply iterate_scan.
  - by apply scan_sorted.
Qed.

Lemma iterate_is_brute_force_scan_witness :
  iterate 3 4 ex_heap ex_tree 4 4 = Some (scan ex_heap 4 4 ex_shape) ∧
  StronglySorted (lex_lt ex_heap) (scan ex_heap 4 4 ex_shape).
Proof.
  apply (iterate_is_brute_force_scan ex_heap ex_tree ex_shape 4 4 3 4).
  - exact ex_wf.
  - exact ex_bst.
  - exact ex_max_consistent.
  - lia.
  - simpl. lia.
  - simpl. lia.
Defined.

(** C3. For a well-formed tree that satisfies BST ordering and whose stored
    maxima are consistent, and query bounds [lo <= hi], [find] returns a node
    if and only if some stored interval overlaps [[lo,hi]], where [[a,b]] and
    [[c,d]] overlap iff [b >= c] and [d >= a]; a node it returns overlaps the
    query. *)
Theorem find_iff_overlap h t T lo hi fuel :
  wf_tree h t T → bst h T → max_consistent h T → lo <= hi →
  (theight T ≤ fuel)%nat →
  ∃ res, interval_tree_find fuel h t lo hi = Some res ∧
    (is_Some res ↔
       ∃ x, x ∈ inorder T ∧ overlap (low_of h x) (high_of h x) lo hi) ∧
    (∀ a, res = Some a →
       a ∈ inorder T ∧ overlap (low_of h a) (high_of h a) lo hi).
Proof.
  intros (Hroot & Hrep & Hnd) Hbst Hmax _ Hfuel.
  destruct (find_loop_scan h lo hi T None fuel Hrep Hbst Hmax Hfuel) as (res & Hres & Hspec).
  exists res. unfold interval_tree_find. rewrite Hroot. split; [done|].
  destruct res as [a|].
  - apply scan_elem in Hspec as [Hov Hin]. split.
    + split; [intros _; by exists a|by eauto].
    + by intros ? [= <-].
  - split; [|done]. split; [by intros [? ?]|].
    intros (x & Hx & Hov). exfalso.
    assert (x ∈ scan h lo hi T) as Hin by by apply scan_elem.
    rewrite Hspec in Hin. by apply elem_of_nil in Hin.
Qed.

Lemma find_iff_overlap_witness :
  ∃ res, interval_tree_find 2 ex_heap ex_tree 4 4 = Some res ∧
    (is_Some res ↔
       ∃ x, x ∈ inorder ex_shape ∧ overlap (low_of ex_heap x) (high_of ex_heap x) 4 4) ∧
    (∀ a, res = Some a →
       a ∈ inorder ex_shape ∧ overlap (low_of ex_heap a) (high_of ex_heap a) 4 4).
Proof.
  apply (find_iff_overlap ex_heap ex_tree ex_shape 4 4 2).
  - exact ex_wf.
  - exact ex_bst.
  - exact ex_max_consistent.
  - lia.
  - simpl. lia.
Defined.

(** C6. For a linked subtree that satisfies BST ordering and whose stored
    maxima are consistent, and query bounds [lo <= hi], [min_interval] returns
    the overlapping node an in-order traversal of the subtree meets first,
    which is minimal in (low, high) order among the overlapping nodes of the
    subtree, and returns none exactly when no node of the subtree overlaps. *)
Theorem min_interval_first_overlap h par t lo hi fuel :
  rep h par t → bst h t → max_consistent h t → lo <= hi →
  (theight t ≤ fuel)%nat →
  interval_tree_min_interval fuel h (root_ptr t) lo hi = Some (head (scan h lo hi t)) ∧
  (head (scan h lo hi t) = None ↔
     ∀ x, x ∈ inorder t → ¬ overlap (low_of h x) (high_of h x) lo hi) ∧
  (∀ m, head (scan h lo hi t) = Some m →
     m ∈ inorder t ∧ overlap (low_of h m) (high_of h m) lo hi ∧
     ∀ y, y ∈ inorder t → overlap (low_of h y) (high_of h y) lo hi →
          y = m ∨ lex_lt h m y).
Proof.
  intros Hrep Hbst Hmax _ Hfuel. split; [|split].
  - unfold interval_tree_min_interval.
    rewrite (min_interval_loop_scan h lo hi t par) by done.
    by destruct (head (scan h lo hi t)).
  - split.
    + intros Hnone x Hx Hov.
      assert (x ∈ scan h lo hi t) as Hin by by apply scan_elem.
      destruct (scan h lo hi t); [by apply elem_of_nil in Hin|done].
    + intros Hno. destruct (scan h lo hi t) as [|m ms] eqn:Hs; [done|].
      exfalso. assert (m ∈ scan h lo hi t) as Hm by (rewrite Hs; by apply elem_of_cons; left).
      apply scan_elem in Hm as [Hov Hin]. by apply (Hno m).
  - intros m Hm. pose proof (scan_sorted h lo hi t Hbst) as Hsorted.
    destruct (scan h lo hi t) as [|m' ms] eqn:Hs; simpl in Hm; [done|].
    injection Hm as ->.
    assert (m ∈ scan h lo hi t) as Hin by (rewrite Hs; by apply elem_of_cons; left).
    apply scan_elem in Hin as [Hov Hin]. split; [done|]. split; [done|].
    intros y Hy Hovy.
    assert (y ∈ scan h lo hi t) as Hys by by apply scan_elem.
    rewrite Hs in Hys. apply elem_of_cons in Hys as [->|Hys]; [by left|right].
    apply StronglySorted_cons in Hsorted as [Hall _].
    rewrite Forall_forall in Hall. by apply Hall.
Qed.

Lemma min_interval_first_overlap_witness :
  interval_tree_min_interval 2 ex_heap (root_ptr ex_shape) 4 4
    = Some (head (scan ex_heap 4 4 ex_shape)) ∧
  (head (scan ex_heap 4 4 ex_shape) = None ↔
     ∀ x, x ∈ inorder ex_shape → ¬ overlap (low_of ex_heap x) (high_of ex_heap x) 4 4) ∧
  (∀ m, head (scan ex_heap 4 4 ex_shape) = Some m →
     m ∈ inorder ex_shape ∧ overlap (low_of ex_heap m) (high_of ex_heap m) 4 4 ∧
     ∀ y, y ∈ inorder ex_shape → overlap (low_of ex_heap y) (high_of ex_heap y) 4 4 →
          y = m ∨ lex_lt ex_heap m y).
Proof.
  apply (min_interval_first_overlap ex_heap None ex_shape 4 4 2).
  - exact (proj1 (proj2 ex_wf)).
  - exact ex_bst.
  - exact ex_max_consistent.
  - lia.
  - simpl. lia.
Defined.

(** C2 (as amended). In a well-formed tree, when the right subtree of the
    current node yields no match and the climb stops at the first ancestor
    reached through a left-child edge: if that ancestor overlaps the query it
    is returned; otherwise [next] does not report exhaustion but goes on
    exactly as if it had been called on that ancestor. Exhaustion is reported
    at once only when the climb runs past the root. *)
Theorem next_interval_resumes_at_successor h t ctx l a r lo hi fuel :
  wf_tree h t (plug ctx (Node l a r)) →
  interval_tree_min_interval fuel h (root_ptr r) lo hi = Some None →
  (2 * theight (plug ctx (Node l a r)) ≤ fuel)%nat →
  interval_tree_next_interval fuel h (Some a) lo hi =
  match up ctx with
  | InLeft pa _ :: _ =>
      if decide (overlap (low_of h pa) (high_of h pa) lo hi) then Some (Some pa)
      else interval_tree_next_interval fuel h (Some pa) lo hi
  | _ => Some None
  end.
Proof.
  intros (_ & Hrep & Hnd) Hmin Hfuel.
  destruct (theight_plug ctx (Node l a r)) as [Hh _]. simpl in Hh.
  pose proof (proj1 (rep_plug h ctx _) Hrep) as [(nd & Ha & Hp & Hleft & Hright & Hl & Hr) Hctx].
  destruct fuel as [|fuel]; [lia|].
  assert (match root_ptr r with
          | Some _ => interval_tree_min_interval fuel h (root_ptr r) lo hi
          | None => Some None
          end = Some None) as Hmin'.
  { destruct r as [|rl ra rr]; [done|].
    destruct (min_interval_loop_total h lo hi (Node rl ra rr) (Some a) fuel None Hr)
      as [x Hx]; [simpl in *; lia|].
    unfold interval_tree_min_interval in *.
    rewrite (min_interval_loop_mono h lo hi fuel _ None x (S fuel) Hx ltac:(lia)) in Hmin.
    by rewrite Hx, Hmin. }
  assert (interval_tree_next_interval (S fuel) h (Some a) lo hi =
          match hole_parent (up ctx) with
          | Some pa =>
              pnd ← h !! pa;
              if interval_tree_intersects pnd lo hi then Some (Some pa)
              else interval_tree_next_interval fuel h (Some pa) lo hi
          | None => Some None
          end) as ->.
  { simpl. rewrite Ha. simpl. rewrite Hright, Hmin'. simpl.
    rewrite Hp, (climb_loop_up h ctx a fuel); [done|done| |lia].
    by apply (NoDup_distinct_edges ctx (Node l a r)). }
  destruct (up_shape ctx) as [Hup|(pa & rs & ctx' & Hup)]; rewrite Hup; [done|].
  destruct (up_position ctx (Node l a r) pa rs ctx' Hup) as (L & HT & Hlen).
  rewrite HT in Hrep, Hnd.
  apply rep_plug in Hrep as [(pnd & Hpa & Hpp & Hpl & Hpr & HL & Hrs) Hctx'].
  assert (is_Some (interval_tree_next_interval fuel h (Some pa) lo hi)) as [res Hres].
  { destruct (theight_plug ctx' (Node L pa rs)) as [Hh' Hsh']. simpl in Hh'.
    rewrite <- HT in Hh', Hsh'.
    apply (next_interval_total h lo hi (theight (plug ctx (Node l a r))) (length ctx') ctx'
             ltac:(lia) pa rs pnd); try done.
    - by apply (NoDup_distinct_edges ctx' (Node L pa rs)).
    - lia.
    - lia. }
  rewrite (next_interval_mono h lo hi fuel (Some pa) res (S fuel) Hres ltac:(lia)).
  simpl. rewrite Hpa. simpl. rewrite (intersects_hits h pa pnd lo hi Hpa), Hres.
  unfold hits.
  destruct (decide (overlap (low_of h pa) (high_of h pa) lo hi)).
  - by rewrite bool_decide_eq_true_2.
  - by rewrite bool_decide_eq_false_2.
Qed.

Lemma next_interval_resumes_at_successor_witness :
  interval_tree_next_interval 4 gap_heap (Some 1%positive) 4 4 =
  if decide (overlap (low_of gap_heap 2%positive) (high_of gap_heap 2%positive) 4 4)
  then Some (Some 2%positive)
  else interval_tree_next_interval 4 gap_heap (Some 2%positive) 4 4.
Proof.
  apply (next_interval_resumes_at_successor gap_heap gap_tree
           [InLeft 2%positive (Node Leaf 3%positive Leaf)] Leaf 1%positive Leaf 4 4 4).
  - exact gap_wf.
  - reflexivity.
  - simpl. lia.
Defined.

(** C2 fails as stated: in the tree holding [1,5], [2,2], [3,7] with [2,2]
    at the root and the query [4,4], the node [1,5] has no right subtree, the
    climb stops at [2,2] through a left-child edge, [2,2] does not overlap
    the query, and yet [next] returns [3,7] instead of reporting exhaustion. *)
Lemma next_interval_passes_successor :
  n_right (gap_heap !!! 1%positive) = None ∧
  climb_loop 3 gap_heap 1%positive (n_parent (gap_heap !!! 1%positive))
    = Some (Some 2%positive) ∧
  n_left (gap_heap !!! 2%positive) = Some 1%positive ∧
  ¬ overlap (low_of gap_heap 2%positive) (high_of gap_heap 2%positive) 4 4 ∧
  interval_tree_next_interval 4 gap_heap (Some 1%positive) 4 4 = Some (Some 3%positive) ∧
  interval_tree_next_interval 4 gap_heap (Some 1%positive) 4 4 ≠ Some None.
Proof.
  repeat split; try by vm_compute.
  intros [Hhi _]. vm_compute in Hhi. by apply Hhi.
Qed.

(** C5, refuted on the code: the comparator subtracts the endpoints and
    converts the difference to [int], so its sign is not the lexicographic
    order once the difference leaves the range of [int]. With low endpoints
    2^31 and 0 the left node sorts after the right one, yet the result is
    negative; the same happens with 2^31 - 1 and -1. *)
Theorem cmp_sign_wrong_on_overflow :
  interval_tree_cmp (node None None None 1 1 (2 ^ 31) (2 ^ 31) (2 ^ 31))
                    (node None None None 1 1 0 0 0) = - 2 ^ 31 ∧
  interval_tree_cmp (node None None None 1 1 (2 ^ 31 - 1) (2 ^ 31 - 1) (2 ^ 31 - 1))
                    (node None None None 1 1 (-1) (-1) 0) = - 2 ^ 31.
Proof. by vm_compute. Qed.

(** C8. [clear] changes only the root reference of the tree handle, which
    becomes [NULL], and leaves every node as it was; afterwards, for any
    query bounds, [find] returns none and the iterator yields nothing. *)
Theorem clear_drops_only_root h t lo hi fuel steps :
  (interval_tree_clear h t).1 = h ∧
  root (interval_tree_clear h t).2 = None ∧
  interval_tree_find fuel (interval_tree_clear h t).1 (interval_tree_clear h t).2 lo hi
    = Some None ∧
  interval_tree_iter_first fuel (interval_tree_clear h t).1 (interval_tree_clear h t).2 lo hi
    = Some (None, {| it_low := lo; it_high := hi; it_n := None |}) ∧
  iterate steps fuel (interval_tree_clear h t).1 (interval_tree_clear h t).2 lo hi
    = Some [].
Proof.
  unfold interval_tree_clear, interval_tree_find, iterate, interval_tree_iter_first,
    interval_tree_min_interval. simpl.
  repeat split; destruct fuel; simpl; try done; by destruct steps.
Qed.

(** C9. An exhausted iterator stays exhausted: when the current-node
    reference is absent, every further [next] call returns none and leaves
    the iterator as it was, query bounds included. *)
Theorem exhausted_is_terminal h it fuel k :
  it_n it = None →
  interval_tree_iter_next fuel h it = Some (None, it) ∧
  iter_next_times k fuel h it = Some (None, it).
Proof.
  intros Hn.
  assert (interval_tree_iter_next fuel h it = Some (None, it)) as Hnext.
  { unfold interval_tree_iter_next. rewrite Hn.
    destruct it as [lo hi n]. simpl in *. subst n. by destruct fuel. }
  split; [done|].
  induction k as [|k IH]; simpl.
  - by rewrite Hn.
  - rewrite Hnext. simpl. exact IH.
Qed.

Lemma exhausted_is_terminal_witness :
  interval_tree_iter_next 4 ex_heap {| it_low := 4; it_high := 4; it_n := None |}
    = Some (None, {| it_low := 4; it_high := 4; it_n := None |}) ∧
  iter_next_times 5 4 ex_heap {| it_low := 4; it_high := 4; it_n := None |}
    = Some (None, {| it_low := 4; it_high := 4; it_n := None |}).
Proof.
  apply (exhausted_is_terminal ex_heap {| it_low := 4; it_high := 4; it_n := None |} 4 5).
  reflexivity.
Defined.

(** C10. On a finite tree whose parent/left/right links are well formed, the
    loops of [find], [min_interval] and [next_interval] terminate: each of
    them returns a result within a number of iterations bounded by twice the
    height of the tree, and more iterations never change that result. *)
Theorem traversals_terminate h t T lo hi :
  wf_tree h t T →
  (∃ res, ∀ fuel, (2 * theight T ≤ fuel)%nat →
          interval_tree_find fuel h t lo hi = Some res) ∧
  (∀ p, p = root t ∨ (∃ a, a ∈ inorder T ∧ p = Some a) →
        ∃ res, ∀ fuel, (2 * theight T ≤ fuel)%nat →
               interval_tree_min_interval fuel h p lo hi = Some res) ∧
  (∀ n, n = None ∨ (∃ a, a ∈ inorder T ∧ n = Some a) →
        ∃ res, ∀ fuel, (2 * theight T ≤ fuel)%nat →
               interval_tree_next_interval fuel h n lo hi = Some res).
Proof.
  intros (Hroot & Hrep & Hnd).
  assert (∀ par sub, rep h par sub → (theight sub ≤ theight T)%nat →
            ∃ res, ∀ fuel, (2 * theight T ≤ fuel)%nat →
              interval_tree_min_interval fuel h (root_ptr sub) lo hi = Some res) as Hmin.
  { intros par sub Hsub Hh.
    destruct (min_interval_loop_total h lo hi sub par (theight sub) None Hsub) as [res Hres];
      [lia|].
    exists res. intros fuel Hfuel.
    apply (min_interval_loop_mono h lo hi (theight sub)); [done|lia]. }
  split; [|split].
  - destruct (find_loop_total h lo hi T None (theight T) Hrep) as [res Hres]; [lia|].
    exists res. intros fuel Hfuel. unfold interval_tree_find. rewrite Hroot.
    apply (find_loop_mono h lo hi (theight T)); [done|lia].
  - intros p [->|(a & Ha & ->)].
    + rewrite Hroot. by apply (Hmin None T).
    + destruct (subtree_at h T a Hrep Ha) as (par & sub & Hsub & Hptr & Hh).
      rewrite <- Hptr. by apply (Hmin par sub).
  - intros n [->|(a & Ha & ->)].
    + exists None. intros fuel _. by destruct fuel.
    + destruct (position_exists T a Ha) as (ctx & l & r & HT).
      destruct (next_interval_total_position h lo hi ctx l a r (2 * theight T))
        as [res Hres]; [by rewrite <- HT..|by rewrite <- HT|].
      exists res. intros fuel Hfuel.
      by apply (next_interval_mono h lo hi (2 * theight T)).
Qed.

Lemma traversals_terminate_witness :
  (∃ res, ∀ fuel, (2 * theight ex_shape ≤ fuel)%nat →
          interval_tree_find fuel ex_heap ex_tree 4 4 = Some res) ∧
  (∀ p, p = root ex_tree ∨ (∃ a, a ∈ inorder ex_shape ∧ p = Some a) →
        ∃ res, ∀ fuel, (2 * theight ex_shape ≤ fuel)%nat →
               interval_tree_min_interval fuel ex_heap p 4 4 = Some res) ∧
  (∀ n, n = None ∨ (∃ a, a ∈ inorder ex_shape ∧ n = Some a) →
        ∃ res, ∀ fuel, (2 * theight ex_shape ≤ fuel)%nat →
               interval_tree_next_interval fuel ex_heap n 4 4 = Some res).
Proof. apply (traversals_terminate ex_heap ex_tree ex_shape 4 4). exact ex_wf. Defined.


(** * Further properties of the code *)

(** X1. Whenever the two low endpoints differ by less than 2^31 and so do
    the two high endpoints, the comparator is a genuine three-way comparison:
    its result is negative, zero or positive exactly as the left node sorts
    before, with or after the right node in (low, high) order. *)
Theorem cmp_three_way_when_differences_fit lhs rhs :
  - 2 ^ 31 <= n_low lhs - n_low rhs < 2 ^ 31 →
  - 2 ^ 31 <= n_high lhs - n_high rhs < 2 ^ 31 →
  (interval_tree_cmp lhs rhs < 0 ↔
     n_low lhs < n_low rhs ∨ (n_low lhs = n_low rhs ∧ n_high lhs < n_high rhs)) ∧
  (interval_tree_cmp lhs rhs = 0 ↔ n_low lhs = n_low rhs ∧ n_high lhs = n_high rhs) ∧
  (0 < interval_tree_cmp lhs rhs ↔
     n_low rhs < n_low lhs ∨ (n_low lhs = n_low rhs ∧ n_high rhs < n_high lhs)).
Proof. apply cmp_sign_in_range. Qed.

Lemma cmp_three_way_when_differences_fit_witness :
  (interval_tree_cmp (node None None None 1 1 1 5 5) (node None None None 1 1 3 7 7) < 0 ↔
     1 < 3 ∨ (1 = 3 ∧ 5 < 7)) ∧
  (interval_tree_cmp (node None None None 1 1 1 5 5) (node None None None 1 1 3 7 7) = 0 ↔
     1 = 3 ∧ 5 = 7) ∧
  (0 < interval_tree_cmp (node None None None 1 1 1 5 5) (node None None None 1 1 3 7 7) ↔
     3 < 1 ∨ (1 = 3 ∧ 7 < 5)).
Proof.
  apply (cmp_three_way_when_differences_fit
           (node None None None 1 1 1 5 5) (node None None None 1 1 3 7 7)); simpl; lia.
Defined.

(** X2. For all endpoint values the comparator returns 0 exactly when the
    low endpoints agree modulo 2^32 and the high endpoints agree modulo 2^32:
    equal keys always compare equal, and so do keys that lie a multiple of
    2^32 apart. *)
Theorem cmp_zero_iff_congruent lhs rhs :
  interval_tree_cmp lhs rhs = 0 ↔
  (n_low lhs - n_low rhs) mod 2 ^ 32 = 0 ∧ (n_high lhs - n_high rhs) mod 2 ^ 32 = 0.
Proof.
  unfold interval_tree_cmp.
  destruct (Z.eqb_spec (to_int (n_low lhs - n_low rhs)) 0) as [Hz|Hnz].
  - rewrite to_int_zero. apply to_int_zero in Hz. tauto.
  - rewrite <- to_int_zero. tauto.
Qed.

(** X3. [interval_tree_fix_counts] does nothing on [NULL]. On a node it
    succeeds exactly when the node and the children it points to are there,
    and then it rewrites that one node only, keeping its links and its
    interval: every other node of the heap is left as it was. *)
Theorem fix_counts_touches_one_node h a :
  interval_tree_fix_counts h None = Some h ∧
  (is_Some (interval_tree_fix_counts h (Some a)) ↔
     ∃ nd, h !! a = Some nd ∧
           (∀ c, n_left nd = Some c → is_Some (h !! c)) ∧
           (∀ c, n_right nd = Some c → is_Some (h !! c))) ∧
  (∀ h', interval_tree_fix_counts h (Some a) = Some h' →
     (∃ nd nd', h !! a = Some nd ∧ h' !! a = Some nd' ∧ base nd' = base nd ∧
                n_low nd' = n_low nd ∧ n_high nd' = n_high nd) ∧
     (∀ b, b ≠ a → h' !! b = h !! b)).
Proof.
  split; [done|]. split.
  - simpl. split.
    + intros [h' Hfix].
      destruct (h !! a) as [nd|] eqn:Ha; simpl in Hfix; [|done].
      exists nd. split; [done|].
      unfold interval_tree_node_size in Hfix.
      split; intros c Hc; rewrite Hc in Hfix.
      * destruct (h !! c); [done|]. done.
      * destruct (n_left nd) as [lc|]; [destruct (h !! lc); [|done]|];
          simpl in Hfix; (destruct (h !! c); [done|done]).
    + intros (nd & Ha & Hl & Hr). rewrite Ha. simpl.
      unfold interval_tree_node_size, interval_tree_node_height, interval_tree_node_max.
      destruct (n_left nd) as [lc|]; [destruct (Hl lc eq_refl) as [ld ->]|];
        (destruct (n_right nd) as [rc|]; [destruct (Hr rc eq_refl) as [rd ->]|]);
        simpl; done.
  - intros h' Hfix.
    destruct (fix_counts_inv h a h' Hfix) as (nd & nd' & Ha & -> & Hbase & Hlow & Hhigh).
    split.
    + exists nd, nd'. rewrite lookup_insert_eq. done.
    + intros b Hb. by rewrite lookup_insert_ne.
Qed.

(** X4. Whatever the heap looks like, a run of the propagate hook or of the
    rotation hook that returns has changed no link and no interval and has
    neither added nor removed a node: at every address the parent/left/right
    pointers and the low and high endpoints are what they were. *)
Theorem hooks_keep_links_and_intervals h h2 b :
  (∃ fuel n, interval_tree_augment_propagate fuel h n = Some h2) ∨
  (∃ oldn newn, interval_tree_augment_rotate h oldn newn = Some h2) →
  base <$> h2 !! b = base <$> h !! b ∧
  n_low <$> h2 !! b = n_low <$> h !! b ∧
  n_high <$> h2 !! b = n_high <$> h !! b.
Proof.
  intros [(fuel & n & Hprop)|(oldn & newn & Hrot)].
  - by apply (propagate_keeps fuel h n).
  - by apply (rotate_keeps h oldn newn).
Qed.

Lemma hooks_keep_links_and_intervals_witness :
  base <$> asc_heap7 !! 4%positive = base <$> relink asc_heap7_linked None asc_shape7 !! 4%positive ∧
  n_low <$> asc_heap7 !! 4%positive = n_low <$> relink asc_heap7_linked None asc_shape7 !! 4%positive ∧
  n_high <$> asc_heap7 !! 4%positive = n_high <$> relink asc_heap7_linked None asc_shape7 !! 4%positive.
Proof.
  apply (hooks_keep_links_and_intervals (relink asc_heap7_linked None asc_shape7) asc_heap7).
  right. exists (Some 5%positive), (Some 6%positive). by vm_compute.
Defined.

(** X5. In a well-formed tree, start the propagate hook at a node whose two
    subtrees satisfy the three augmentation equations at every node, while
    every subtree hanging off the path from that node to the root does so
    too. As long as the node count fits an [int], the walk returns, and
    afterwards every node of the tree satisfies [max], [size] and [height];
    the links are as before and only the nodes on the path were rewritten. *)
Theorem propagate_restores_consistency h ctx l a r fuel :
  rep h None (plug ctx (Node l a r)) →
  NoDup (inorder (plug ctx (Node l a r))) →
  all_consistent h l → all_consistent h r →
  all_siblings (all_consistent h) ctx →
  Z.of_nat (length (inorder (plug ctx (Node l a r)))) < 2 ^ 31 →
  (length ctx < fuel)%nat →
  ∃ h2, interval_tree_augment_propagate fuel h (Some a) = Some h2 ∧
        rep h2 None (plug ctx (Node l a r)) ∧
        all_consistent h2 (plug ctx (Node l a r)) ∧
        (∀ b, b ≠ a → b ∉ frame_addr <$> ctx → h2 !! b = h !! b).
Proof.
  intros Hrep Hnd Hl Hr Hsib Hlen Hfuel.
  apply all_consistent_split in Hl as [Hml Hcl].
  apply all_consistent_split in Hr as [Hmr Hcr].
  assert (all_siblings (max_fixed h) ctx) as Hsm.
  { apply (all_siblings_weaken (all_consistent h)); [|done].
    intros t Ht. by apply all_consistent_split in Ht as [? _]. }
  assert (all_siblings (counts_fixed h) ctx) as Hsc.
  { apply (all_siblings_weaken (all_consistent h)); [|done].
    intros t Ht. by apply all_consistent_split in Ht as [_ ?]. }
  destruct (propagate_path (InLeft a r :: ctx) l h fuel) as (h2 & Hprop & Hrep2 & Hm2 & _);
    [done|done|done|by split|simpl; lia|].
  destruct (propagate_path_counts (InLeft a r :: ctx) l h fuel) as (h2' & Hprop' & Hc2);
    [done|done|done|by split|simpl; lia|done|].
  change (hole_parent (InLeft a r :: ctx)) with (Some a) in Hprop, Hprop'.
  rewrite Hprop in Hprop'. injection Hprop' as <-.
  exists h2. split; [done|]. split; [done|]. split.
  - apply all_consistent_split. done.
  - intros b Hba Hb.
    apply (propagate_off_path (InLeft a r :: ctx) l h fuel h2 b); [done|done|].
    rewrite fmap_cons. simpl. by apply not_elem_of_cons.
Qed.

Lemma propagate_restores_consistency_witness :
  ∃ h2, interval_tree_augment_propagate 8 (relink asc_heap6 None asc_shape7_linked)
          (Some 7%positive) = Some h2 ∧
        rep h2 None (plug asc_path7 (Node Leaf 7%positive Leaf)) ∧
        all_consistent h2 (plug asc_path7 (Node Leaf 7%positive Leaf)) ∧
        (∀ b, b ≠ 7%positive → b ∉ frame_addr <$> asc_path7 →
              h2 !! b = relink asc_heap6 None asc_shape7_linked !! b).
Proof.
  apply (propagate_restores_consistency (relink asc_heap6 None asc_shape7_linked)
           asc_path7 Leaf 7%positive Leaf 8).
  - apply rep_check_sound. by vm_compute.
  - apply (bool_decide_unpack _). by vm_compute.
  - exact I.
  - exact I.
  - by vm_compute.
  - by vm_compute.
  - simpl. lia.
Defined.

(** X6. Whatever the heap looks like - stale maxima, broken ordering, even
    cyclic links - a node returned by [find] is a node of the heap whose
    interval overlaps the query. *)
Theorem find_returns_only_overlapping h t lo hi fuel a :
  interval_tree_find fuel h t lo hi = Some (Some a) →
  ∃ nd, h !! a = Some nd ∧ overlap (n_low nd) (n_high nd) lo hi.
Proof.
  intros Hres.
  destruct (find_loop_sound h lo hi fuel (root t) a Hres) as (nd & Ha & Hi).
  exists nd. split; [done|]. by apply intersects_overlap.
Qed.

Lemma find_returns_only_overlapping_witness :
  ∃ nd, ex_heap !! 2%positive = Some nd ∧ overlap (n_low nd) (n_high nd) 4 4.
Proof.
  apply (find_returns_only_overlapping ex_heap ex_tree 4 4 2 2%positive). reflexivity.
Defined.



(** X8. After one rotation the rotation hook restores the [max] equation
    everywhere. Let the links describe the rotated tree while the stored
    maxima still satisfy the equation for the tree before the rotation; then
    the hook, called with the old and the new top, returns, leaves links and
    high endpoints alone, and afterwards every node's [max] is the [MAX] of
    its own high and its children's stored maxima (0 for an absent child). *)
Theorem rotation_hook_restores_max h1 T oldn newn T1 :
  rotation T oldn newn T1 →
  rep h1 None T1 → NoDup (inorder T1) → max_fixed h1 T →
  ∃ h2, interval_tree_augment_rotate h1 (Some oldn) (Some newn) = Some h2 ∧
        rep h2 None T1 ∧ max_fixed h2 T1 ∧
        ∀ b, high_of h2 b = high_of h1 b.
Proof.
  intros [ctx A x B y C|ctx A y B x C] Hrep Hnd Hfixed.
  - by apply rotate_hook_left.
  - by apply rotate_hook_right.
Qed.

Lemma rotation_hook_restores_max_witness :
  ∃ h2, interval_tree_augment_rotate (relink asc_heap7_linked None asc_shape7)
          (Some 5%positive) (Some 6%positive) = Some h2 ∧
        rep h2 None asc_shape7 ∧ max_fixed h2 asc_shape7 ∧
        ∀ b, high_of h2 b = high_of (relink asc_heap7_linked None asc_shape7) b.
Proof.
  apply (rotation_hook_restores_max (relink asc_heap7_linked None asc_shape7)
           asc_shape7_linked 5%positive 6%positive asc_shape7).
  - exact (rotate_left [InRight (leaf_node 3) 4%positive; InRight (leaf_node 1) 2%positive]
             Leaf 5%positive Leaf 6%positive (leaf_node 7)).
  - apply rep_check_sound. by vm_compute.
  - apply (bool_decide_unpack _). by vm_compute.
  - by vm_compute.
Defined.

(** X9. Well-formed links are enough for the iterator to behave, whatever
    the stored maxima and the ordering of the intervals are: the caller's
    loop of [iter_first] and [iter_next] ends, and the nodes it produced are
    overlapping nodes of the tree in in-order position, none of them twice.
    With stale maxima the iterator may skip matches, but it neither repeats
    nor reorders nor invents one. *)
Theorem iterator_never_repeats_or_reorders h t T lo hi steps fuel :
  wf_tree h t T →
  (2 * theight T ≤ fuel)%nat → (length (inorder T) ≤ steps)%nat →
  ∃ out, iterate steps fuel h t lo hi = Some out ∧
         out `sublist_of` scan h lo hi T ∧ NoDup out.
Proof.
  intros Hwf Hfuel Hsteps.
  destruct (iterate_ordered h t T lo hi steps fuel Hwf Hfuel Hsteps) as (out & Hout & Hsub).
  exists out. split; [done|]. split; [done|].
  destruct Hwf as (_ & _ & Hnd).
  apply (sublist_NoDup out (scan h lo hi T)); [|exact Hsub].
  unfold scan. by apply NoDup_filter.
Qed.

Lemma iterator_never_repeats_or_reorders_witness :
  ∃ out, iterate 3 4 gap_heap gap_tree 4 4 = Some out ∧
         out `sublist_of` scan gap_heap 4 4 gap_shape ∧ NoDup out.
Proof.
  apply (iterator_never_repeats_or_reorders gap_heap gap_tree gap_shape 4 4 3 4).
  - exact gap_wf.
  - simpl. lia.
  - simpl. lia.
Defined.

(** X10. On a well-formed, ordered tree with consistent maxima,
    [next_interval] called on any node of the tree returns the first node
    after it, in in-order position, whose interval overlaps the query, and
    [NULL] when no later node overlaps. *)
Theorem next_interval_is_next_overlapping h t T pre a post lo hi fuel :
  wf_tree h t T → bst h T → max_consistent h T →
  inorder T = pre ++ a :: post →
  (2 * theight T ≤ fuel)%nat →
  interval_tree_next_interval fuel h (Some a) lo hi
  = Some (head (filter (hits h lo hi) post)).
Proof.
  intros (_ & Hrep & Hnd) Hbst Hmax Hin Hfuel.
  assert (a ∈ inorder T) as Ha.
  { rewrite Hin. apply elem_of_app. right. by apply elem_of_cons; left. }
  destruct (position_exists T a Ha) as (ctx & l & r & HT).
  assert (post = inorder r ++ after ctx) as ->.
  { symmetry. apply (NoDup_split_unique a (before ctx ++ inorder l) _ pre post).
    - rewrite HT, inorder_plug in Hnd. simpl in Hnd. by rewrite <- !app_assoc in Hnd |- *.
    - rewrite <- Hin, HT, inorder_plug. simpl. by rewrite <- !app_assoc. }
  apply (next_interval_position h lo hi ctx l a r fuel); by rewrite <- HT.
Qed.

Lemma next_interval_is_next_overlapping_witness :
  interval_tree_next_interval 4 gap_heap (Some 1%positive) 4 4
  = Some (head (filter (hits gap_heap 4 4) [2%positive; 3%positive])).
Proof.
  apply (next_interval_is_next_overlapping gap_heap gap_tree gap_shape
           [] 1%positive [2%positive; 3%positive] 4 4 4).
  - exact gap_wf.
  - exact gap_bst.
  - exact gap_max_consistent.
  - reflexivity.
  - simpl. lia.
Defined.

(** X11. Round trip on a well-formed, ordered tree with consistent maxima:
    querying with the bounds of a stored interval, the iterator produces that
    very node exactly when its low endpoint does not exceed its high
    endpoint, and in that case [find] returns some node. An interval stored
    with low above high is not reported for its own bounds. *)
Theorem stored_interval_found_by_own_bounds h t T x steps fuel :
  wf_tree h t T → bst h T → max_consistent h T →
  x ∈ inorder T →
  (2 * theight T ≤ fuel)%nat → (length (inorder T) ≤ steps)%nat →
  ∃ out, iterate steps fuel h t (low_of h x) (high_of h x) = Some out ∧
         (x ∈ out ↔ low_of h x <= high_of h x) ∧
         (low_of h x <= high_of h x →
          ∃ a, interval_tree_find fuel h t (low_of h x) (high_of h x) = Some (Some a)).
Proof.
  intros Hwf Hbst Hmax Hx Hfuel Hsteps.
  exists (scan h (low_of h x) (high_of h x) T).
  split; [by apply iterate_scan|]. split.
  - rewrite scan_elem. unfold overlap. split; [lia|]. intros ?. split; [lia|done].
  - intros Hle. destruct Hwf as (Hroot & Hrep & Hnd).
    destruct (find_loop_scan h (low_of h x) (high_of h x) T None fuel Hrep Hbst Hmax)
      as (res & Hres & Hspec); [lia|].
    unfold interval_tree_find. rewrite Hroot, Hres.
    destruct res as [a|]; [by exists a|].
    assert (x ∈ scan h (low_of h x) (high_of h x) T) as Hin.
    { apply scan_elem. unfold overlap. split; [lia|done]. }
    rewrite Hspec in Hin. by apply elem_of_nil in Hin.
Qed.

Lemma stored_interval_found_by_own_bounds_witness :
  ∃ out, iterate 3 4 ex_heap ex_tree (low_of ex_heap 3%positive) (high_of ex_heap 3%positive)
         = Some out ∧
         (3%positive ∈ out ↔ low_of ex_heap 3%positive <= high_of ex_heap 3%positive) ∧
         (low_of ex_heap 3%positive <= high_of ex_heap 3%positive →
          ∃ a, interval_tree_find 4 ex_heap ex_tree
                 (low_of ex_heap 3%positive) (high_of ex_heap 3%positive) = Some (Some a)).
Proof.
  apply (stored_interval_found_by_own_bounds ex_heap ex_tree ex_shape 3%positive 3 4).
  - exact ex_wf.
  - exact ex_bst.
  - exact ex_max_consistent.
  - apply (bool_decide_unpack _). by vm_compute.
  - simpl. lia.
  - simpl. lia.
Defined.

(** X12. On a well-formed, ordered tree with consistent maxima, [find] and
    [iter_first] agree on whether anything overlaps the query: one returns
    [NULL] exactly when the other does, although they may return different
    nodes. *)
Theorem find_and_iter_first_agree_on_emptiness h t T lo hi fuel :
  wf_tree h t T → bst h T → max_consistent h T →
  (theight T ≤ fuel)%nat →
  ∃ found first it,
    interval_tree_find fuel h t lo hi = Some found ∧
    interval_tree_iter_first fuel h t lo hi = Some (first, it) ∧
    it_n it = first ∧
    (found = None ↔ first = None).
Proof.
  intros (Hroot & Hrep & Hnd) Hbst Hmax Hfuel.
  destruct (find_loop_scan h lo hi T None fuel Hrep Hbst Hmax Hfuel)
    as (res & Hres & Hspec).
  unfold interval_tree_find, interval_tree_iter_first, interval_tree_min_interval.
  rewrite Hroot, Hres.
  rewrite (min_interval_loop_scan h lo hi T None fuel None Hrep Hbst Hmax Hfuel).
  destruct (scan h lo hi T) as [|b rest]; simpl.
  - exists res, None, {| it_low := lo; it_high := hi; it_n := None |}.
    repeat split; try done.
    destruct res as [a|]; [by apply elem_of_nil in Hspec|done].
  - exists res, (Some b), {| it_low := lo; it_high := hi; it_n := Some b |}.
    repeat split; try done.
    by destruct res.
Qed.

Lemma find_and_iter_first_agree_on_emptiness_witness :
  ∃ found first it,
    interval_tree_find 2 ex_heap ex_tree 20 30 = Some found ∧
    interval_tree_iter_first 2 ex_heap ex_tree 20 30 = Some (first, it) ∧
    it_n it = first ∧
    (found = None ↔ first = None).
Proof.
  apply (find_and_iter_first_agree_on_emptiness ex_heap ex_tree ex_shape 20 30 2).
  - exact ex_wf.
  - exact ex_bst.
  - exact ex_max_consistent.
  - simpl. lia.
Defined.

(** X13. The equation the hooks maintain, with 0 standing in for an absent
    child, is enough for the searches as long as no stored high endpoint is
    negative: on such a well-formed, ordered tree the iterator produces
    exactly the brute-force scan and [find] returns a node exactly when some
    stored interval overlaps the query. *)
Theorem hook_invariant_suffices_for_nonnegative_highs h t T lo hi steps fuel :
  wf_tree h t T → bst h T → max_fixed h T →
  (∀ x, x ∈ inorder T → 0 <= high_of h x) →
  (2 * theight T ≤ fuel)%nat → (length (inorder T) ≤ steps)%nat →
  iterate steps fuel h t lo hi = Some (scan h lo hi T) ∧
  ∃ res, interval_tree_find fuel h t lo hi = Some res ∧
         (is_Some res ↔ ∃ x, x ∈ inorder T ∧ overlap (low_of h x) (high_of h x) lo hi).
Proof.
  intros Hwf Hbst Hfixed Hpos Hfuel Hsteps.
  pose proof (max_fixed_consistent h T Hfixed Hpos) as Hmax.
  split; [by apply iterate_scan|].
  destruct Hwf as (Hroot & Hrep & Hnd).
  destruct (find_loop_scan h lo hi T None fuel Hrep Hbst Hmax) as (res & Hres & Hspec); [lia|].
  exists res. unfold interval_tree_find. rewrite Hroot. split; [done|].
  destruct res as [a|].
  - split; [|by eexists]. intros _. apply scan_elem in Hspec as [? ?]. by exists a.
  - split; [by intros [? ?]|]. intros (x & Hx & Hov).
    assert (x ∈ scan h lo hi T) as Hin by (by apply scan_elem).
    rewrite Hspec in Hin. by apply elem_of_nil in Hin.
Qed.

Lemma hook_invariant_suffices_for_nonnegative_highs_witness :
  iterate 7 8 asc_heap7 {| root := Some 2%positive |} 4 6 = Some (scan asc_heap7 4 6 asc_shape7) ∧
  ∃ res, interval_tree_find 8 asc_heap7 {| root := Some 2%positive |} 4 6 = Some res ∧
         (is_Some res ↔
          ∃ x, x ∈ inorder asc_shape7 ∧ overlap (low_of asc_heap7 x) (high_of asc_heap7 x) 4 6).
Proof.
  apply (hook_invariant_suffices_for_nonnegative_highs asc_heap7 {| root := Some 2%positive |}
           asc_shape7 4 6 7 8).
  - split; [reflexivity|]. split.
    + apply rep_check_sound. by vm_compute.
    + apply (bool_decide_unpack _). by vm_compute.
  - example_bst.
  - by vm_compute.
  - apply Forall_forall. apply (bool_decide_unpack _). by vm_compute.
  - simpl. lia.
  - simpl. lia.
Defined.

(** X14. Why recomputing three nodes is enough for [max] and [size]. Take a
    tree in which every node satisfies the three equations, rotate one pair,
    and let the links describe the rotated tree while the aggregates are
    still the old ones. As long as the node count fits an [int], the rotation
    hook returns; afterwards every node of the rotated subtree satisfies all
    three equations, the new top stores the [max] and the [size] the old top
    stored, and every other node of the tree stores the [max] and [size] it
    stored before. Nothing but the pair and the parent of the new top was
    written. *)
Theorem rotation_hook_fixes_rotated_pair h1 ctx s oldn newn s1 :
  rotated s oldn newn s1 →
  rep h1 None (plug ctx s1) → NoDup (inorder (plug ctx s1)) →
  all_consistent h1 (plug ctx s) →
  Z.of_nat (length (inorder (plug ctx s1))) < 2 ^ 31 →
  ∃ h2, interval_tree_augment_rotate h1 (Some oldn) (Some newn) = Some h2 ∧
        rep h2 None (plug ctx s1) ∧
        all_consistent h2 s1 ∧
        max_of h2 newn = max_of h1 oldn ∧ size_of h2 newn = size_of h1 oldn ∧
        (∀ b, b ≠ oldn → b ≠ newn →
              max_of h2 b = max_of h1 b ∧ size_of h2 b = size_of h1 b) ∧
        (∀ b, b ≠ oldn → b ≠ newn → hole_parent ctx ≠ Some b → h2 !! b = h1 !! b).
Proof.
  intros Hrot Hrep Hnd Hold Hlen.
  destruct (rotate_hook_rotated h1 ctx s oldn newn s1 Hrot Hrep Hnd Hold Hlen)
    as (h2 & Hhook & Hrep2 & Hc2 & Hhigh & Hout).
  destruct (NoDup_plug_disjoint ctx s1 Hnd) as [Hnd1 Hdis].
  destruct (all_consistent_plug h1 ctx s Hold) as [Hs _].
  destruct (all_consistent_plug h2 (take 1 ctx) s1 Hc2) as [Hs1 _].
  destruct (rotated_tops s oldn newn s1 Hrot) as (Hts & Hts1 & Hoin & Hnin).
  destruct (rotated_values h1 h2 s oldn newn s1 Hrot Hnd1 Hs Hs1 Hhigh) as [EM ES].
  { intros b Hb Hbx Hby. apply Hout; [done..|].
    intros Hp. apply hole_parent_on_path in Hp. by apply (Hdis b). }
  exists h2. split; [done|]. split; [done|]. split; [done|].
  split; [destruct s, s1; simpl in *; by simplify_eq|].
  split; [destruct s, s1; simpl in *; by simplify_eq|].
  split; [|done].
  intros b Hbx Hby.
  destruct (decide (hole_parent ctx = Some b)) as [Hp|Hp].
  - destruct ctx as [|g ctx']; [done|]. simpl in Hp. injection Hp as <-.
    change (g :: ctx') with ([g] ++ ctx') in Hold, Hnd. rewrite plug_app in Hold, Hnd.
    apply all_consistent_plug in Hold as [Hg _].
    apply (parent_values h1 h2 g s s1); try done.
    destruct g as [p sib|sib p]; simpl in *; (split; [|done]); intros b Hb.
    + destruct (NoDup_plug_node ctx' s1 p sib Hnd) as (_ & Hps & _).
      apply Hout.
      * intros ->. apply (Hdis oldn Hoin). in_lists.
      * intros ->. apply (Hdis newn Hnin). in_lists.
      * intros [= ->]. by apply Hps.
    + destruct (NoDup_plug_node ctx' sib p s1 Hnd) as (Hps & _ & _).
      apply Hout.
      * intros ->. apply (Hdis oldn Hoin). in_lists.
      * intros ->. apply (Hdis newn Hnin). in_lists.
      * intros [= ->]. by apply Hps.
  - unfold max_of, size_of. by rewrite !lookup_total_alt, (Hout b Hbx Hby Hp).
Qed.

Lemma rotation_hook_fixes_rotated_pair_witness :
  ∃ h2, interval_tree_augment_rotate (relink asc_heap7_linked None asc_shape7)
          (Some 5%positive) (Some 6%positive) = Some h2 ∧
        rep h2 None asc_shape7 ∧
        all_consistent h2 (Node (leaf_node 5) 6%positive (leaf_node 7)) ∧
        max_of h2 6%positive = max_of (relink asc_heap7_linked None asc_shape7) 5%positive ∧
        size_of h2 6%positive = size_of (relink asc_heap7_linked None asc_shape7) 5%positive ∧
        (∀ b, b ≠ 5%positive → b ≠ 6%positive →
              max_of h2 b = max_of (relink asc_heap7_linked None asc_shape7) b ∧
              size_of h2 b = size_of (relink asc_heap7_linked None asc_shape7) b) ∧
        (∀ b, b ≠ 5%positive → b ≠ 6%positive → Some 4%positive ≠ Some b →
              h2 !! b = relink asc_heap7_linked None asc_shape7 !! b).
Proof.
  apply (rotation_hook_fixes_rotated_pair (relink asc_heap7_linked None asc_shape7)
           [InRight (leaf_node 3) 4%positive; InRight (leaf_node 1) 2%positive]
           (Node Leaf 5%positive (Node Leaf 6%positive (leaf_node 7)))
           5%positive 6%positive
           (Node (leaf_node 5) 6%positive (leaf_node 7))).
  - exact (rotated_left Leaf 5%positive Leaf 6%positive (leaf_node 7)).
  - apply rep_check_sound. by vm_compute.
  - apply (bool_decide_unpack _). by vm_compute.
  - by vm_compute.
  - by vm_compute.
Defined.

(** X15. What one call of [fix_counts] stores, in terms of the tree: on a
    node whose two subtrees satisfy the three equations, and with a node
    count that fits an [int], it sets [size] to the number of nodes of the
    subtree, [height] to its number of levels - 1 for a node without
    children, one more than the longest downward edge count - and [max] to
    the largest of 0 and the high endpoints stored in the subtree. *)
Theorem fix_counts_stores_count_levels_and_max h par l a r :
  rep h par (Node l a r) → NoDup (inorder (Node l a r)) →
  all_consistent h l → all_consistent h r →
  Z.of_nat (length (inorder (Node l a r))) < 2 ^ 31 →
  ∃ h', interval_tree_fix_counts h (Some a) = Some h' ∧
        size_of h' a = Z.of_nat (length (inorder (Node l a r))) ∧
        height_of h' a = Z.of_nat (theight (Node l a r)) ∧
        max_of h' a = max_high0 h (Node l a r).
Proof.
  intros Hrep Hnd Hl Hr Hlen.
  destruct (NoDup_plug_node [] l a r Hnd) as (Hal & Har & _).
  apply all_consistent_split in Hl as [Hml Hcl].
  apply all_consistent_split in Hr as [Hmr Hcr].
  destruct (fix_counts_above h l a r _ Hrep Hal Har Hml Hmr)
    as (nd & nd' & Ha & Hfix & Hbase & Hhigh & Hfixed).
  destruct (fix_counts_above_counts h l a r _ Hrep Hal Har Hcl Hcr Hlen)
    as (nd0 & nd2 & Ha0 & Hfix2 & _ & Hcounts).
  rewrite Hfix in Hfix2. injection Hfix2 as Heq. rewrite <- Heq in Hcounts.
  exists (<[a := nd']> h). split; [done|].
  destruct (counts_fixed_exact _ _ Hcounts) as [Hs Hh].
  pose proof (max_fixed_root _ _ Hfixed) as Hm.
  split; [exact Hs|]. split; [exact Hh|].
  simpl in Hm. rewrite Hm. apply max_high0_same_highs.
  intros b. rewrite high_of_insert.
  destruct (decide (a = b)) as [<-|]; [|done].
  by rewrite Hhigh, (high_of_lookup h a nd Ha).
Qed.

Lemma fix_counts_stores_count_levels_and_max_witness :
  ∃ h', interval_tree_fix_counts asc_heap6 (Some 4%positive) = Some h' ∧
        size_of h' 4%positive
          = Z.of_nat (length (inorder (Node (leaf_node 3) 4%positive
                                            (Node Leaf 5%positive (leaf_node 6))))) ∧
        height_of h' 4%positive
          = Z.of_nat (theight (Node (leaf_node 3) 4%positive
                                    (Node Leaf 5%positive (leaf_node 6)))) ∧
        max_of h' 4%positive
          = max_high0 asc_heap6 (Node (leaf_node 3) 4%positive
                                      (Node Leaf 5%positive (leaf_node 6))).
Proof.
  apply (fix_counts_stores_count_levels_and_max asc_heap6 (Some 2%positive)).
  - apply rep_check_sound. by vm_compute.
  - apply (bool_decide_unpack _). by vm_compute.
  - by vm_compute.
  - by vm_compute.
  - by vm_compute.
Defined.

(** X16. The rotation hook does not repair heights further up. Under the
    hypotheses of X14, with at least two nodes above the rotated pair, the
    node two levels above the new top - the parent of the new top's parent -
    still stores the number of levels its subtree had before the rotation.
    So whenever the rotation changes that number, the height equation does
    not hold at every node after the hook. *)
Theorem rotation_hook_leaves_grandparent_height h1 f g ctx s oldn newn s1 :
  rotated s oldn newn s1 →
  rep h1 None (plug (f :: g :: ctx) s1) →
  NoDup (inorder (plug (f :: g :: ctx) s1)) →
  all_consistent h1 (plug (f :: g :: ctx) s) →
  Z.of_nat (length (inorder (plug (f :: g :: ctx) s1))) < 2 ^ 31 →
  ∃ h2, interval_tree_augment_rotate h1 (Some oldn) (Some newn) = Some h2 ∧
        height_of h2 (frame_addr g) = Z.of_nat (theight (plug [f; g] s)) ∧
        (theight (plug [f; g] s1) ≠ theight (plug [f; g] s) →
         ¬ all_consistent h2 (plug (f :: g :: ctx) s1)).
Proof.
  intros Hrot Hrep Hnd Hold Hlen.
  destruct (rotate_hook_rotated h1 (f :: g :: ctx) s oldn newn s1 Hrot Hrep Hnd Hold Hlen)
    as (h2 & Hhook & _ & _ & _ & Hout).
  destruct (rotated_tops s oldn newn s1 Hrot) as (_ & _ & Hoin & Hnin).
  assert (plug (f :: g :: ctx) s1 = plug ctx (plug [f; g] s1)) as Heq1
    by exact (plug_app [f; g] ctx s1).
  assert (plug (f :: g :: ctx) s = plug ctx (plug [f; g] s)) as Heq
    by exact (plug_app [f; g] ctx s).
  assert (h2 !! frame_addr g = h1 !! frame_addr g) as Hsame.
  { assert (NoDup (inorder (plug [f; g] s1))) as Hnd2.
    { rewrite Heq1 in Hnd. by apply NoDup_plug_disjoint in Hnd as [? _]. }
    assert (frame_addr g ∉ inorder (plug [f] s1)) as Hg.
    { change [f; g] with ([f] ++ [g]) in Hnd2. rewrite plug_app in Hnd2.
      destruct g as [q v|v q]; simpl in Hnd2 |- *.
      - by destruct (NoDup_plug_node [] (plug [f] s1) q v Hnd2) as (? & _ & _).
      - by destruct (NoDup_plug_node [] v q (plug [f] s1) Hnd2) as (_ & ? & _). }
    assert (∀ b, b ∈ inorder s1 → b ∈ inorder (plug [f] s1)) as Hin.
    { intros b Hb. rewrite inorder_plug. in_lists. }
    apply Hout.
    - intros Hb. apply Hg. rewrite Hb. by apply Hin.
    - intros Hb. apply Hg. rewrite Hb. by apply Hin.
    - simpl. intros [= Hb]. apply Hg. rewrite <- Hb.
      destruct f as [p u|u p]; simpl; in_lists. }
  assert (height_of h2 (frame_addr g) = Z.of_nat (theight (plug [f; g] s))) as Hh.
  { rewrite Heq in Hold. apply all_consistent_plug in Hold as [Hold _].
    apply all_consistent_split in Hold as [_ Hc].
    destruct (counts_fixed_exact _ _ Hc) as [_ Hexact].
    rewrite <- Hexact. unfold height_of. rewrite !lookup_total_alt, Hsame.
    pose proof (plug_two_root f g s) as Hroot.
    destruct (plug [f; g] s) as [|l a r]; [done|].
    simpl in Hroot. injection Hroot as ->. simpl. unfold height_of.
    by rewrite lookup_total_alt. }
  exists h2. split; [done|]. split; [done|].
  intros Hne Hall. rewrite Heq1 in Hall.
  apply all_consistent_plug in Hall as [Hall _].
  apply all_consistent_split in Hall as [_ Hc].
  destruct (counts_fixed_exact _ _ Hc) as [_ Hexact].
  pose proof (plug_two_root f g s1) as Hroot.
  destruct (plug [f; g] s1) as [|l a r] eqn:Hp; [done|].
  simpl in Hroot. injection Hroot as ->. simpl in Hexact.
  rewrite Hh in Hexact. apply Hne. symmetry. by apply Nat2Z.inj.
Qed.

Lemma rotation_hook_leaves_grandparent_height_witness :
  ∃ h2, interval_tree_augment_rotate (relink asc_heap7_linked None asc_shape7)
          (Some 5%positive) (Some 6%positive) = Some h2 ∧
        height_of h2 2%positive = Z.of_nat (theight asc_shape7_linked) ∧
        (theight asc_shape7 ≠ theight asc_shape7_linked →
         ¬ all_consistent h2 asc_shape7).
Proof.
  apply (rotation_hook_leaves_grandparent_height
           (relink asc_heap7_linked None asc_shape7)
           (InRight (leaf_node 3) 4%positive) (InRight (leaf_node 1) 2%positive) []
           (Node Leaf 5%positive (Node Leaf 6%positive (leaf_node 7)))
           5%positive 6%positive
           (Node (leaf_node 5) 6%positive (leaf_node 7))).
  - exact (rotated_left Leaf 5%positive Leaf 6%positive (leaf_node 7)).
  - apply rep_check_sound. by vm_compute.
  - apply (bool_decide_unpack _). by vm_compute.
  - by vm_compute.
  - by vm_compute.
Defined.

(** X17. The rotation hook followed by the propagate hook repairs a tree
    that is stale along one path. Let [n] be a node and let every node whose
    subtree does not hold [n] satisfy the three equations before a rotation,
    so that only [n] and the nodes above it may be stale. Rotate a pair whose
    new top ends up with a parent that has [n] in its subtree, or at the
    root. As long as the node count fits an [int], the rotation hook returns
    and the rotated tree is again stale only at [n] and above it; the
    propagate hook started at [n] then returns and leaves every node of the
    tree satisfying [max], [size] and [height]. *)
Theorem rotation_hook_then_walk_restores_all h1 ctx s oldn newn s1 n fuel :
  rotated s oldn newn s1 →
  rep h1 None (plug ctx s1) → NoDup (inorder (plug ctx s1)) →
  Z.of_nat (length (inorder (plug ctx s1))) < 2 ^ 31 →
  clean_off n h1 (plug ctx s) →
  n ∈ inorder (plug (take 1 ctx) s1) →
  (theight (plug ctx s1) ≤ fuel)%nat →
  ∃ h2 h3,
    interval_tree_augment_rotate h1 (Some oldn) (Some newn) = Some h2 ∧
    rep h2 None (plug ctx s1) ∧ clean_off n h2 (plug ctx s1) ∧
    interval_tree_augment_propagate fuel h2 (Some n) = Some h3 ∧
    rep h3 None (plug ctx s1) ∧ all_consistent h3 (plug ctx s1).
Proof.
  intros Hrot Hrep Hnd Hlen Hclean Hnear Hfuel.
  destruct (rotate_hook_clean h1 ctx s oldn newn s1 n Hrot Hrep Hnd Hlen Hclean Hnear)
    as (h2 & Hhook & Hrep2 & Hclean2).
  assert (n ∈ inorder (plug ctx s1)) as Hn.
  { destruct ctx as [|f ctx']; [done|].
    change (f :: ctx') with ([f] ++ ctx'). rewrite plug_app, inorder_plug.
    simpl in Hnear. in_lists. }
  destruct (propagate_from_clean h2 (plug ctx s1) n fuel Hrep2 Hnd Hlen Hn Hclean2 Hfuel)
    as (h3 & Hprop & Hrep3 & Hall).
  by exists h2, h3.
Qed.

Lemma rotation_hook_then_walk_restores_all_witness :
  ∃ h2 h3,
    interval_tree_augment_rotate (relink asc_heap6 None asc_shape7)
      (Some 5%positive) (Some 6%positive) = Some h2 ∧
    rep h2 None asc_shape7 ∧ clean_off 7%positive h2 asc_shape7 ∧
    interval_tree_augment_propagate 8 h2 (Some 7%positive) = Some h3 ∧
    rep h3 None asc_shape7 ∧ all_consistent h3 asc_shape7.
Proof.
  apply (rotation_hook_then_walk_restores_all (relink asc_heap6 None asc_shape7)
           [InRight (leaf_node 3) 4%positive; InRight (leaf_node 1) 2%positive]
           (Node Leaf 5%positive (Node Leaf 6%positive (leaf_node 7)))
           5%positive 6%positive
           (Node (leaf_node 5) 6%positive (leaf_node 7)) 7%positive 8).
  - exact (rotated_left Leaf 5%positive Leaf 6%positive (leaf_node 7)).
  - apply rep_check_sound. by vm_compute.
  - apply (bool_decide_unpack _). by vm_compute.
  - by vm_compute.
  - apply (bool_decide_unpack _). by vm_compute.
  - apply (bool_decide_unpack _). by vm_compute.
  - simpl. lia.
Defined.
